(** * uWebSockets [HttpParser.h]: a shallow embedding and its properties

    The development follows [src/HttpParser.h].  Bytes are integers in
    [0, 256); a byte range [p, end) of the source is the list of the bytes it
    holds, and a position inside it is an offset from [p].  The fence byte
    ['\r'] that [fenceAndConsumePostPadded] writes at [data[length]] is the
    byte read one past the end of such a list. *)

From Stdlib Require Import Ascii String.
From Stdlib Require Import ZArith List Bool Lia PeanoNat.
Import ListNotations.
Local Open Scope Z_scope.

(** ** Bytes and machine integers *)

Definition byte_ok (c : Z) : Prop := 0 <= c < 256.
Definition bytes_ok (l : list Z) : Prop := Forall byte_ok l.

Definition byte_okb (c : Z) : bool := (0 <=? c) && (c <? 256).
Definition bytes_okb (l : list Z) : bool := forallb byte_okb l.

Definition bytes_of (s : string) : list Z :=
  map (fun a => Z.of_nat (nat_of_ascii a)) (list_ascii_of_string s).

Definition CR : Z := 13.
Definition LF : Z := 10.
Definition COLON : Z := 58.
Definition CRLF : list Z := [CR; LF].

(** [unsigned int] is 32 bits wide, [uint64_t] 64 bits. *)
Definition UINT_MAX : Z := 4294967295.
Definition wrap32 (z : Z) : Z := z mod 2 ^ 32.
Definition wrap64 (z : Z) : Z := z mod 2 ^ 64.

(** ** [toUnsignedInteger] (lines 172-188) *)

(** The [for (char c : str)] loop; [acc] is [unsignedIntegerValue].  A byte
    above 127 is a negative [char] where [char] is signed and exceeds ['9']
    where it is not: it is refused either way. *)
Fixpoint toUnsignedInteger_loop (str : list Z) (acc : Z) : Z :=
  match str with
  | [] => acc
  | c :: rest =>
      if (c <? 48) || (c >? 57) then UINT_MAX
      else toUnsignedInteger_loop rest (wrap32 (wrap32 (acc * 10) + wrap32 (c - 48)))
  end.

Definition toUnsignedInteger (str : list Z) : Z :=
  if (9 <? length str)%nat then UINT_MAX else toUnsignedInteger_loop str 0.

(** The decimal value of a digit string, most significant digit first. *)
Definition is_digit (c : Z) : bool := (48 <=? c) && (c <=? 57).

Definition decimal_value (s : list Z) : Z :=
  fold_left (fun acc c => acc * 10 + (c - 48)) s 0.

(** ** [memchr_r] (lines 201-219) *)

(** [*(uint64_t * )p] on a little-endian machine. *)
Fixpoint le_combine (l : list Z) : Z :=
  match l with
  | [] => 0
  | b :: t => b + 256 * le_combine t
  end.

Definition cr_mask : Z := le_combine [CR; CR; CR; CR; CR; CR; CR; CR].

(** The test of line 206 on the word [w] loaded at [p].  [~val] is masked
    with a non-negative constant, so the complement of the 64-bit word and
    [Z.lnot] agree on the bits that are kept. *)
Definition word_has_cr (w : Z) : bool :=
  let val := Z.lxor w cr_mask in
  negb (Z.land (wrap64 (val + 0xfefefefefefefeff))
               (Z.land (Z.lnot val) 0x8080808080808080) =? 0).

(** The loop of lines 203-210: the number of bytes [p] has advanced when the
    loop is left, either at a word that tests positive or with fewer than
    eight bytes ahead. *)
Fixpoint memchr_r_words (l : list Z) : nat :=
  match l with
  | b0 :: b1 :: b2 :: b3 :: b4 :: b5 :: b6 :: b7 :: rest =>
      if word_has_cr (le_combine [b0; b1; b2; b3; b4; b5; b6; b7]) then O
      else (8 + memchr_r_words rest)%nat
  | _ => O
  end.

(** The byte loop of lines 212-216. *)
Fixpoint memchr_r_bytes (l : list Z) : option nat :=
  match l with
  | [] => None
  | c :: rest => if c =? CR then Some O else option_map S (memchr_r_bytes rest)
  end.

(** [memchr_r p end] on the bytes of [p, end): the offset from [p] of the
    byte returned, [None] for [nullptr]. *)
Definition memchr_r (l : list Z) : option nat :=
  let k := memchr_r_words l in
  option_map (Nat.add k) (memchr_r_bytes (skipn k l)).

(** The scan the specification describes: the first ['\r'], byte by byte. *)
Fixpoint first_cr (l : list Z) : option nat :=
  match l with
  | [] => None
  | c :: rest => if c =? CR then Some O else option_map S (first_cr rest)
  end.

(** ** Views, the header table and the request (lines 39-161) *)

(** A [std::string_view] is the bytes it exposes; [None] is the null view
    [std::string_view(nullptr, 0)], whose [data()] is [nullptr].  A view of
    length zero into the buffer is [Some []]. *)
Definition string_view : Type := option (list Z).

Definition sv_length (v : string_view) : nat :=
  match v with None => O | Some l => List.length l end.

Definition sv_bytes (v : string_view) : list Z :=
  match v with None => [] | Some l => l end.

Definition sv_is_null (v : string_view) : bool :=
  match v with None => true | Some _ => false end.

Record Header : Type := mkHeader { key : string_view; value : string_view }.

Definition MAX_HEADERS : nat := 50.
Definition MINIMUM_HTTP_POST_PADDING : Z := 32.
Definition MAX_FALLBACK_SIZE : Z := 1024 * 4.

(** Pointers are addresses; [FULLPTR] is [(void * )~(uintptr_t)0]. *)
Definition FULLPTR : Z := 2 ^ 64 - 1.

(** Modelled from the spec: [BloomFilter.h] is not among the sources.  The
    filter is reset, fed the lower-cased header names and queried; a name
    that was added is always reported, a name that was not may be. *)
Class BloomFilter : Type := {
  filter : Type;
  bf_reset : filter;
  bf_add : filter -> list Z -> filter;
  bf_mightHave : filter -> list Z -> bool;
  bf_no_false_negative :
    forall keys k, In k keys -> bf_mightHave (fold_left bf_add keys bf_reset) k = true
}.

(** A filter that remembers the names themselves. *)
Definition list_eqb (a b : list Z) : bool :=
  if list_eq_dec Z.eq_dec a b then true else false.

#[export] Instance exact_filter : BloomFilter.
Proof.
  refine {| filter := list (list Z);
            bf_reset := [];
            bf_add := fun f x => x :: f;
            bf_mightHave := fun f k => existsb (list_eqb k) f |}.
  intros keys k Hin.
  assert (Hgen : forall acc, In k keys \/ In k acc ->
            In k (fold_left (fun f x => x :: f) keys acc)).
  { clear Hin. induction keys as [|x keys IH]; intros acc H; simpl.
    - destruct H as [[]|H]; assumption.
    - apply IH. simpl in H.
      destruct H as [[->|H]|H];
        [right; left; reflexivity | left; assumption | right; right; assumption]. }
  apply existsb_exists. exists k. split; [apply Hgen; left; assumption|].
  unfold list_eqb. destruct (list_eq_dec Z.eq_dec k k); congruence.
Defined.

Record HttpRequest `{BloomFilter} : Type := mkRequest {
  headers : list Header;
  ancientHttp : bool;
  querySeparator : nat;
  bf : filter
}.

(** [strncmp(a, b, n) == 0] for two arrays of [n] bytes: equal up to the
    first [NUL] they share, or throughout. *)
Fixpoint strncmp_eq (a b : list Z) : bool :=
  match a, b with
  | x :: a', y :: b' =>
      if x =? y then (if x =? 0 then true else strncmp_eq a' b') else false
  | _, _ => true
  end.

(** The loop of lines 100-104 over the slots after [h]; it ends at the first
    key of length zero. *)
Fixpoint getHeader_scan (slots : list Header) (lowerCasedHeader : list Z) : string_view :=
  match slots with
  | [] => None
  | h :: rest =>
      if (sv_length (key h) =? 0)%nat then None
      else if (sv_length (key h) =? List.length lowerCasedHeader)%nat
              && strncmp_eq (sv_bytes (key h)) lowerCasedHeader
           then value h
           else getHeader_scan rest lowerCasedHeader
  end.

Definition getHeader `{BloomFilter} (req : HttpRequest) (lowerCasedHeader : list Z)
  : string_view :=
  if bf_mightHave (bf req) lowerCasedHeader
  then getHeader_scan (tl (headers req)) lowerCasedHeader
  else None.

(** The header fields a request shows: the slots after slot 0 up to the first
    key of length zero (the iteration of lines 64-91 and 299-301). *)
Fixpoint shown_headers (slots : list Header) : list Header :=
  match slots with
  | [] => []
  | h :: rest => if (sv_length (key h) =? 0)%nat then [] else h :: shown_headers rest
  end.

(** ** [getHeaders] (lines 221-274, built without [UWS_WITH_PROXY]) *)

(** Line 251: how many bytes the key scan passes; each of them is or-ed with
    32.  The scan ends at [':'], at a byte of 32 or less, and so at the
    fence past the end of the list at the latest. *)
Fixpoint key_scan (l : list Z) : nat :=
  match l with
  | c :: rest => if negb (c =? COLON) && (32 <? c) then S (key_scan rest) else O
  | [] => O
  end.

Definition lower (c : Z) : Z := Z.lor c 32.

(** The test of the key scan on one byte. *)
Definition key_byte (c : Z) : bool := negb (c =? COLON) && (32 <? c).

(** Line 261, after [postPaddedBuffer++]: colons and bytes below 33 other
    than ['\r'] are passed; the fence ends the scan. *)
Fixpoint value_skip (l : list Z) : nat :=
  match l with
  | c :: rest =>
      if ((c =? COLON) || (c <? 33)) && negb (c =? CR) then S (value_skip rest) else O
  | [] => O
  end.

(** The test of the scan of line 261 on one byte. *)
Definition skippable (c : Z) : bool := ((c =? COLON) || (c <? 33)) && negb (c =? CR).

(** The [for] loop of lines 250-273 with [n] iterations left, at iteration
    [i], [off] bytes past [start]; [l] holds the bytes from
    [postPaddedBuffer] to [end].  The result is the value returned, the slots
    written from [headers] on, and the bytes of [l] after the in-place
    lower-casing.

    The slot that ends the table is given as [mkHeader None None].  Line 254
    writes its key only: its value is what the table held there before,
    null in the table of a first head (line 408 makes the table anew for
    every call of [consumePostPadded]), and what an earlier head of the same
    call wrote at that place otherwise.  The table is private to
    [HttpRequest] and every accessor stops at the key of length zero, so
    that value is not shown to the application; where the calls of two
    deliveries are compared below, they are compared through [shown_calls],
    which leaves the ending slot out. *)
Fixpoint getHeaders_loop (n i off : nat) (l : list Z) : nat * list Header * list Z :=
  match n with
  | O => (O, [], l)
  | S n' =>
      let klen := key_scan l in
      let keyb := map lower (firstn klen l) in
      match skipn klen l with
      | [] => (O, [], keyb)
      | c :: after =>
          if c =? CR then
            if (nth O after CR =? LF) && (0 <? i)%nat
            then ((off + klen + 2)%nat, [mkHeader None None], keyb ++ c :: after)
            else (O, [], keyb ++ c :: after)
          else
            let s := value_skip after in
            let from_value := skipn s after in
            match memchr_r from_value with
            | Some r =>
                if nth (S r) from_value CR =? LF then
                  let h := mkHeader (Some keyb) (Some (firstn r from_value)) in
                  let '(ret, slots, rest) :=
                    getHeaders_loop n' (S i) (off + klen + 1 + s + r + 2)%nat
                                    (skipn (r + 2) from_value) in
                  (ret, h :: slots,
                   keyb ++ c :: firstn s after ++ firstn (r + 2) from_value ++ rest)
                else (O, [], keyb ++ c :: after)
            | None => (O, [], keyb ++ c :: after)
            end
      end
  end.

Definition getHeaders (l : list Z) : nat * list Header * list Z :=
  getHeaders_loop MAX_HEADERS O O l.

(** ** The collaborators of the parser *)

(** [ChunkedEncoding.h] is not among the sources: its constants, its two
    predicates on the state word and its decoder are parameters.
    [ChunkIterator data state] stands for the whole iteration
    [for (auto chunk : uWS::ChunkIterator(&dataToConsume, &state))]: the
    chunks it yields in order, how many bytes it has removed from the front
    of [dataToConsume], and the state word it leaves. *)
Class ChunkedEncoding : Type := {
  STATE_IS_CHUNKED : Z;
  isParsingChunkedEncoding : Z -> bool;
  isParsingInvalidChunkedEncoding : Z -> bool;
  ChunkIterator : list Z -> Z -> list (list Z) * nat * Z
}.

(** The decoder takes its bytes from the front of the input and, while a
    chunked body is still under way, takes all of them. *)
Definition decoder_drains `{ChunkedEncoding} : Prop :=
  forall data state,
    let '(_, taken, state') := ChunkIterator data state in
    (taken <= List.length data)%nat
    /\ (state' <> 0 -> isParsingInvalidChunkedEncoding state' = false ->
        taken = List.length data).

(** What the application is shown, in order. *)
Inductive event : Type :=
| Request (slots : list Header) (separator : nat)
| Data (chunk : list Z) (is_end : bool)
| Failure.

(** The three callbacks.  A callback is a closure of the application: its
    answer may depend on every call made to the application so far, which is
    its first argument; the second is [user]. *)
Record Handlers : Type := mkHandlers {
  requestHandler : list event -> Z -> list Header -> nat -> Z;
  dataHandler : list event -> Z -> list Z -> bool -> Z;
  errorHandler : list event -> Z -> Z
}.

Record HttpParser : Type := mkParser {
  fallback : list Z;
  remainingStreamingBytes : Z
}.

Definition host_name : list Z := bytes_of "host".
Definition transfer_encoding_name : list Z := bytes_of "transfer-encoding".
Definition content_length_name : list Z := bytes_of "content-length".

(** [memchr(value.data(), '?', value.length())] of lines 323-324. *)
Fixpoint query_separator (target : list Z) : nat :=
  match target with
  | [] => O
  | c :: rest => if c =? 63 then O else S (query_separator rest)
  end.

(** The data events of one [ChunkIterator] loop (lines 363-365). *)
Definition chunk_events (chunks : list (list Z)) : list event :=
  map (fun chunk => Data chunk (List.length chunk =? 0)%nat) chunks.

Section Parser.

Context `{BF : BloomFilter} `{CE : ChunkedEncoding}.
Variable handlers : Handlers.
Variable user : Z.

(** The request as it stands at line 304: the table [getHeaders] wrote and
    the filter fed with the shown names. *)
Definition request_of (slots : list Header) : HttpRequest :=
  {| headers := slots;
     ancientHttp := false;
     querySeparator := O;
     bf := fold_left bf_add (map (fun h => sv_bytes (key h)) (shown_headers (tl slots)))
                     bf_reset |}.

(** What [fenceAndConsumePostPadded] hands back: the pair it returns, the
    bytes of [data, data + length) as it leaves them, the state word and the
    calls made. *)
Record fenced : Type := mkFenced {
  consumed_first : Z;
  consumed_second : Z;
  buffer : list Z;
  remaining : Z;
  calls : list event
}.

Definition prepend (pre : list Z) (r : fenced) : fenced :=
  {| consumed_first := consumed_first r;
     consumed_second := consumed_second r;
     buffer := pre ++ buffer r;
     remaining := remaining r;
     calls := calls r |}.

(** The loop of lines 289-399.  [data] holds the bytes from the current
    [data] pointer on, [consumedTotal], [remainingBytes] and [tr] are the
    running values of [consumedTotal], [remainingStreamingBytes] and of the
    calls made.  Every turn of the loop removes a head from [data], so
    [fuel] above its length is never used up. *)
Fixpoint fence_loop (fuel : nat) (CONSUME_MINIMALLY : bool) (data : list Z)
         (consumedTotal remainingBytes : Z) (tr : list event) : fenced :=
  match fuel with
  | O => mkFenced consumedTotal user data remainingBytes tr
  | S fuel' =>
    if (List.length data =? 0)%nat
    then mkFenced consumedTotal user data remainingBytes tr
    else
      let '(consumed, slots, buf) := getHeaders data in
      if (consumed =? 0)%nat
      then mkFenced consumedTotal user buf remainingBytes tr
      else
        let head := firstn consumed buf in
        let data1 := skipn consumed buf in
        let consumedTotal1 := wrap32 (consumedTotal + Z.of_nat consumed) in
        let req := request_of slots in
        if sv_is_null (getHeader req host_name)
        then mkFenced 0 FULLPTR buf remainingBytes tr
        else
          let transferEncodingString := getHeader req transfer_encoding_name in
          let contentLengthString := getHeader req content_length_name in
          if negb (sv_length transferEncodingString =? 0)%nat
             && negb (sv_length contentLengthString =? 0)%nat
          then mkFenced 0 FULLPTR buf remainingBytes tr
          else
            let separator := query_separator (sv_bytes (value (hd (mkHeader None None) slots))) in
            let returnedUser := requestHandler handlers tr user slots separator in
            let tr1 := tr ++ [Request slots separator] in
            if negb (returnedUser =? user)
            then mkFenced consumedTotal1 returnedUser buf remainingBytes tr1
            else if negb (sv_length transferEncodingString =? 0)%nat then
              if CONSUME_MINIMALLY
              then mkFenced consumedTotal1 user buf STATE_IS_CHUNKED tr1
              else
                let '(chunks, taken, state) := ChunkIterator data1 STATE_IS_CHUNKED in
                let tr2 := tr1 ++ chunk_events chunks in
                if isParsingInvalidChunkedEncoding state
                then mkFenced 0 FULLPTR buf state tr2
                else
                  let rest := skipn taken data1 in
                  let consumed' := wrap32 (Z.of_nat (List.length data1)
                                           - Z.of_nat (List.length rest)) in
                  prepend (head ++ firstn taken data1)
                    (fence_loop fuel' CONSUME_MINIMALLY rest
                                (wrap32 (consumedTotal1 + consumed')) state tr2)
            else if negb (sv_length contentLengthString =? 0)%nat then
              let declared := toUnsignedInteger (sv_bytes contentLengthString) in
              if declared =? UINT_MAX
              then mkFenced 0 FULLPTR buf declared tr1
              else if CONSUME_MINIMALLY
              then mkFenced consumedTotal1 user buf declared tr1
              else
                let emittable := Z.min declared (Z.of_nat (List.length data1)) in
                let tr2 := tr1 ++ [Data (firstn (Z.to_nat emittable) data1)
                                        (emittable =? declared)] in
                prepend (head ++ firstn (Z.to_nat emittable) data1)
                  (fence_loop fuel' CONSUME_MINIMALLY (skipn (Z.to_nat emittable) data1)
                              (wrap32 (consumedTotal1 + emittable))
                              (wrap32 (declared - emittable)) tr2)
            else
              let tr2 := tr1 ++ [Data [] true] in
              if CONSUME_MINIMALLY
              then mkFenced consumedTotal1 user buf remainingBytes tr2
              else prepend head
                     (fence_loop fuel' CONSUME_MINIMALLY data1 consumedTotal1
                                 remainingBytes tr2)
  end.

Definition fenceAndConsumePostPadded (CONSUME_MINIMALLY : bool) (data : list Z)
           (remainingBytes : Z) (tr : list event) : fenced :=
  fence_loop (S (List.length data)) CONSUME_MINIMALLY data 0 remainingBytes tr.

(** What one call of [consumePostPadded] leaves: the pointer returned, the
    parser and the calls made. *)
Record consumption : Type := mkConsumption {
  returned : Z;
  parser : HttpParser;
  made : list event
}.

(** Lines 511-528: the heads and bodies of [data], then the remainder kept
    in [fallback]. *)
Definition consume_heads (fallback0 : list Z) (data : list Z) (remainingBytes : Z)
           (tr : list event) : consumption :=
  let r := fenceAndConsumePostPadded false data remainingBytes tr in
  if negb (consumed_second r =? user)
  then mkConsumption (consumed_second r) (mkParser fallback0 (remaining r)) (calls r)
  else
    let rest := skipn (Z.to_nat (consumed_first r)) (buffer r) in
    if negb (List.length rest =? 0)%nat then
      if Z.of_nat (List.length rest) <? MAX_FALLBACK_SIZE
      then mkConsumption user (mkParser (fallback0 ++ rest) (remaining r)) (calls r)
      else mkConsumption (errorHandler handlers (calls r) user)
                         (mkParser fallback0 (remaining r)) (calls r ++ [Failure])
    else mkConsumption user (mkParser fallback0 (remaining r)) (calls r).

(** Lines 412-442, and again lines 469-498: a body is under way. *)
Definition consume_body (fallback0 : list Z) (data : list Z) (remainingBytes : Z)
           (tr : list event) : consumption :=
  if isParsingChunkedEncoding remainingBytes then
    let '(chunks, taken, state) := ChunkIterator data remainingBytes in
    let tr1 := tr ++ chunk_events chunks in
    if isParsingInvalidChunkedEncoding state
    then mkConsumption FULLPTR (mkParser fallback0 state) tr1
    else consume_heads fallback0 (skipn taken data) state tr1
  else
    let length := Z.of_nat (List.length data) in
    if length <=? remainingBytes then
      let is_end := remainingBytes =? length in
      mkConsumption (dataHandler handlers tr user data is_end)
                    (mkParser fallback0 (wrap32 (remainingBytes - length)))
                    (tr ++ [Data data is_end])
    else
      let chunk := firstn (Z.to_nat remainingBytes) data in
      let returnedUser := dataHandler handlers tr user chunk true in
      let tr1 := tr ++ [Data chunk true] in
      if negb (returnedUser =? user)
      then mkConsumption returnedUser (mkParser fallback0 0) tr1
      else consume_heads fallback0 (skipn (Z.to_nat remainingBytes) data) 0 tr1.

(** [consumePostPadded] (lines 404-529) on the parser [p], after the calls
    [tr], for the [length] bytes of [data]. *)
Definition consumePostPadded (p : HttpParser) (tr : list event) (data : list Z)
  : consumption :=
  if negb (remainingStreamingBytes p =? 0) then
    consume_body (fallback p) data (remainingStreamingBytes p) tr
  else if negb (List.length (fallback p) =? 0)%nat then
    let had := Z.of_nat (List.length (fallback p)) in
    let maxCopyDistance :=
      Z.min (wrap64 (MAX_FALLBACK_SIZE - had)) (Z.of_nat (List.length data)) in
    let fallback1 := fallback p ++ firstn (Z.to_nat maxCopyDistance) data in
    let consumed := fenceAndConsumePostPadded true fallback1 (remainingStreamingBytes p) tr in
    if negb (consumed_second consumed =? user)
    then mkConsumption (consumed_second consumed)
                       (mkParser (buffer consumed) (remaining consumed)) (calls consumed)
    else if negb (consumed_first consumed =? 0) then
      let data1 := skipn (Z.to_nat (wrap32 (consumed_first consumed - had))) data in
      if negb (remaining consumed =? 0)
      then consume_body [] data1 (remaining consumed) (calls consumed)
      else consume_heads [] data1 (remaining consumed) (calls consumed)
    else
      if Z.of_nat (List.length (buffer consumed)) =? MAX_FALLBACK_SIZE
      then mkConsumption (errorHandler handlers (calls consumed) user)
                         (mkParser (buffer consumed) (remaining consumed))
                         (calls consumed ++ [Failure])
      else mkConsumption user (mkParser (buffer consumed) (remaining consumed))
                         (calls consumed)
  else consume_heads (fallback p) data (remainingStreamingBytes p) tr.

(** A connection: the chunks are handed to [consumePostPadded] one after the
    other for as long as it returns [user]. *)
Fixpoint consume_all (p : HttpParser) (tr : list event) (chunks : list (list Z))
  : consumption :=
  match chunks with
  | [] => mkConsumption user p tr
  | data :: later =>
      let c := consumePostPadded p tr data in
      if returned c =? user then consume_all (parser c) (made c) later else c
  end.

End Parser.

(** ** Reading the table and writing heads *)

(** The value of the first shown header field named [name], the null view
    when no shown field bears the name. *)
Definition field_value (slots : list Header) (name : list Z) : string_view :=
  match find (fun h => list_eqb (sv_bytes (key h)) name) (shown_headers (tl slots)) with
  | Some h => value h
  | None => None
  end.

(** Some header field of the head, shown or not, bears [name]. *)
Definition has_field (slots : list Header) (name : list Z) : Prop :=
  exists h, In h (tl slots) /\ key h = Some name.

(** Some shown header field bears [name]. *)
Definition shows_field (slots : list Header) (name : list Z) : Prop :=
  exists h, In h (shown_headers (tl slots)) /\ key h = Some name.

(** The offset of [?] in the target of slot 0 (lines 323-324). *)
Definition separator_of (slots : list Header) : nat :=
  query_separator (sv_bytes (value (hd (mkHeader None None) slots))).

(** A head as it is sent: the request line, the header fields as
    [name: value], and the blank line. *)
Definition field_bytes (f : list Z * list Z) : list Z :=
  fst f ++ [COLON; 32] ++ snd f ++ CRLF.

Definition head_bytes (method target : list Z) (fields : list (list Z * list Z))
  : list Z :=
  method ++ [32] ++ target ++ CRLF ++ concat (map field_bytes fields) ++ CRLF.

(** The table such a head is tokenized to. *)
Definition field_slot (f : list Z * list Z) : Header :=
  mkHeader (Some (map lower (fst f))) (Some (snd f)).

Definition head_slots (method target : list Z) (fields : list (list Z * list Z))
  : list Header :=
  mkHeader (Some (map lower method)) (Some target)
  :: map field_slot fields ++ [mkHeader None None].

(** A name the key scan passes whole, and a value that starts where the
    tokenizer takes it to start and holds no ['\r']. *)
Definition name_ok (name : list Z) : Prop :=
  Forall (fun c => c <> COLON /\ 32 < c) name.

Definition value_ok (v : list Z) : Prop :=
  ~ In CR v /\ match v with [] => True | c :: _ => c <> COLON /\ 33 <= c end.

Definition fields_ok (fields : list (list Z * list Z)) : Prop :=
  Forall (fun f => name_ok (fst f) /\ value_ok (snd f)) fields.

(** The bytes the tokenizer passes between a name and its value. *)
Definition skipped_ok (sp : list Z) : Prop :=
  Forall (fun c => (c = COLON \/ c < 33) /\ c <> CR) sp.

Definition lowered (fields : list (list Z * list Z)) : list (list Z * list Z) :=
  map (fun f => (map lower (fst f), snd f)) fields.

(** ** Joining data calls *)

(** Contiguous data chunks joined into one. *)
Fixpoint coalesce (tr : list event) : list event :=
  match tr with
  | [] => []
  | Data chunk is_end :: rest =>
      match coalesce rest with
      | Data chunk' is_end' :: rest' => Data (chunk ++ chunk') (is_end || is_end') :: rest'
      | rest' => Data chunk is_end :: rest'
      end
  | e :: rest => e :: coalesce rest
  end.

(** The parser between two calls: a body
    under way or an unfinished head in the fallback buffer, not both; the
    buffer below its capacity, holding bytes the tokenizer has been through
    without finding a head. *)
Definition settled (p : HttpParser) : Prop :=
  (remainingStreamingBytes p = 0 \/ fallback p = [])
  /\ 0 <= remainingStreamingBytes p < 1000000000
  /\ bytes_ok (fallback p)
  /\ Z.of_nat (List.length (fallback p)) < MAX_FALLBACK_SIZE
  /\ exists slots, getHeaders (fallback p) = (O, slots, fallback p).

(** The handlers always answer [user]. *)
Definition answers_user (handlers : Handlers) : Prop :=
  (forall tr user slots separator,
      requestHandler handlers tr user slots separator = user)
  /\ (forall tr user chunk is_end, dataHandler handlers tr user chunk is_end = user).

(** A fixed body length is not taken for a state of the chunked decoder. *)
Definition lengths_not_chunked `{ChunkedEncoding} : Prop :=
  forall n, 0 < n < 1000000000 -> isParsingChunkedEncoding n = false.

(** ** [isFieldNameByte] (lines 194-199) *)

(** The test is written with [|] and [&] on [bool]: all four parts are
    evaluated. *)
Definition isFieldNameByte (x : Z) : bool :=
  (x =? 45) || ((47 <? x) && (x <? 58)) || ((64 <? x) && (x <? 91))
  || ((96 <? x) && (x <? 123)).

(** ** The accessors of [HttpRequest] (lines 64-139) *)

(** [std::string_view(v.data() + from, count)] for a range inside [v]. *)
Definition subview (v : string_view) (from count : nat) : string_view :=
  option_map (fun bytes => firstn count (skipn from bytes)) v.

Section Accessors.

Context `{BF : BloomFilter}.

(** [headers], that is [headers[0]]: the request line. *)
Definition request_line (req : HttpRequest) : Header :=
  hd (mkHeader None None) (headers req).

Definition getUrl (req : HttpRequest) : string_view :=
  subview (value (request_line req)) 0 (querySeparator req).

Definition getFullUrl (req : HttpRequest) : string_view :=
  subview (value (request_line req)) 0 (sv_length (value (request_line req))).

Definition getCaseSensitiveMethod (req : HttpRequest) : string_view :=
  subview (key (request_line req)) 0 (sv_length (key (request_line req))).

(** [getMethod] or-s 32 into the bytes of the key of slot 0, in place, and
    returns the key: the view returned and the request as it is left. *)
Definition getMethod (req : HttpRequest) : string_view * HttpRequest :=
  let lowered_key := option_map (map lower) (key (request_line req)) in
  (subview lowered_key 0 (sv_length lowered_key),
   {| headers := mkHeader lowered_key (value (request_line req)) :: tl (headers req);
      ancientHttp := ancientHttp req;
      querySeparator := querySeparator req;
      bf := bf req |}).

(** [getQuery()], the overload without a key (lines 132-139). *)
Definition getQuery (req : HttpRequest) : string_view :=
  let target := value (request_line req) in
  if (querySeparator req <? sv_length target)%nat
  then subview target (querySeparator req + 1)
               (sv_length target - querySeparator req - 1)
  else None.

(** The request as the request handler is given it at line 329: the table
    of [getHeaders], the filter of lines 298-301 and the separator of lines
    323-324. *)
Definition handed_request (slots : list Header) : HttpRequest :=
  {| headers := slots;
     ancientHttp := false;
     querySeparator := separator_of slots;
     bf := bf (request_of slots) |}.

End Accessors.

(** [HeaderIterator] (lines 64-91).  [ptr] is a slot of the table, given by
    its index, or [nullptr]. *)
Definition HeaderIterator : Type := option nat.

Definition header_begin : HeaderIterator := Some 1%nat.
Definition header_end : HeaderIterator := None.

(** [operator!=]: against another pointer the answer is whether the other
    one is not null or the key under [ptr] has a length. *)
Definition header_differs (slots : list Header) (it other : HeaderIterator) : bool :=
  match it, other with
  | None, None => false
  | Some i, Some j =>
      if (i =? j)%nat then false else true
  | Some i, None => negb (sv_length (key (nth i slots (mkHeader None None))) =? 0)%nat
  | None, Some _ => true
  end.

Definition header_next (it : HeaderIterator) : HeaderIterator :=
  option_map S it.

Definition header_deref (slots : list Header) (it : HeaderIterator)
  : string_view * string_view :=
  match it with
  | Some i => let h := nth i slots (mkHeader None None) in (key h, value h)
  | None => (None, None)
  end.

(** [for (auto [key, value] : *req)]: from [begin()], while the iterator
    differs from [end()].  The table has [MAX_HEADERS] slots. *)
Fixpoint header_range (fuel : nat) (slots : list Header) (it : HeaderIterator)
  : list (string_view * string_view) :=
  match fuel with
  | O => []
  | S fuel' =>
      if header_differs slots it header_end
      then header_deref slots it :: header_range fuel' slots (header_next it)
      else []
  end.

Definition iterate_headers `{BloomFilter} (req : HttpRequest)
  : list (string_view * string_view) :=
  header_range MAX_HEADERS (headers req) header_begin.

(** ** The fallback buffer *)

(** [maxCopyDistance] of line 447: how much of a read goes into the
    fallback buffer, which holds [fallback0]. *)
Definition maxCopyDistance (fallback0 data : list Z) : nat :=
  Z.to_nat (Z.min (wrap64 (MAX_FALLBACK_SIZE - Z.of_nat (List.length fallback0)))
                  (Z.of_nat (List.length data))).

(** ** What a request shows *)

(** The part of the table that the accessors of [HttpRequest] read: the
    request line in slot 0 and the header fields after it up to the first
    key of length zero (lines 98-139 and the iterator of lines 64-91 stop
    there).  The slot that ends the table has its key reset and nothing
    else (line 254): its value is what the table of line 408 held there
    before, null in the first head of a call as in [getHeaders_loop], left
    over from an earlier head of the same call otherwise. *)
Definition shown_table (slots : list Header) : list Header :=
  match slots with
  | [] => []
  | request_line :: fields => request_line :: shown_headers fields
  end.

Definition shown_event (e : event) : event :=
  match e with
  | Request slots separator => Request (shown_table slots) separator
  | Data chunk is_end => Data chunk is_end
  | Failure => Failure
  end.

(** The calls as the application can tell them apart. *)
Definition shown_calls (tr : list event) : list event := map shown_event tr.

(** Two calls that the application cannot tell apart: the same answer, the
    same parser afterwards, the same calls as far as they are shown. *)
Definition alike (c c' : consumption) : Prop :=
  returned c = returned c'
  /\ parser c = parser c'
  /\ shown_calls (made c) = shown_calls (made c').

(** ** Streams of requests with a declared length or none *)

(** How the calls a stream asks for end: the parser goes on, with [rem]
    bytes of a body still to come and the bytes [pending] of an unfinished
    head left over (lower-cased as far as the tokenizer came), or a head is
    refused and the error sentinel returned. *)
Inductive verdict : Type :=
| Goes (rem : Z) (pending : list Z)
| Refused.

Definition add_events (ev : list event) (r : option (list event * verdict))
  : option (list event * verdict) :=
  match r with
  | Some (ev', v) => Some (ev ++ ev', v)
  | None => None
  end.

(** The stream read in one pass, as the loop of lines 289-399 reads it
    when it is not told to consume minimally: the calls that the bytes
    [data] ask for when [rem] bytes of a body are still to come, and how
    they end.  This is what deliveries in pieces are compared with;
    [fence_false_verdict] relates it to [fence_loop].  [None] when a request
    shows a [transfer-encoding] value, whose body is for the chunked
    decoder (or when [fuel] does not exceed the length of [data]). *)
Fixpoint stream_verdict (fuel : nat) (rem : Z) (data : list Z)
  : option (list event * verdict) :=
  match fuel with
  | O => None
  | S fuel' =>
    if negb (rem =? 0) then
      let length := Z.of_nat (List.length data) in
      if length <=? rem
      then Some ([Data data (rem =? length)], Goes (rem - length) [])
      else add_events [Data (firstn (Z.to_nat rem) data) true]
                      (stream_verdict fuel' 0 (skipn (Z.to_nat rem) data))
    else if (List.length data =? 0)%nat then Some ([], Goes 0 [])
    else
      let '(consumed, slots, buf) := getHeaders data in
      if (consumed =? 0)%nat then Some ([], Goes 0 buf)
      else if sv_is_null (field_value slots host_name) then Some ([], Refused)
      else
        let transferEncodingString := field_value slots transfer_encoding_name in
        let contentLengthString := field_value slots content_length_name in
        if negb (sv_length transferEncodingString =? 0)%nat
           && negb (sv_length contentLengthString =? 0)%nat
        then Some ([], Refused)
        else if negb (sv_length transferEncodingString =? 0)%nat then None
        else
          let data1 := skipn consumed buf in
          if negb (sv_length contentLengthString =? 0)%nat then
            let declared := toUnsignedInteger (sv_bytes contentLengthString) in
            if declared =? UINT_MAX
            then Some ([Request slots (separator_of slots)], Refused)
            else if declared =? 0
            then add_events [Request slots (separator_of slots); Data [] true]
                            (stream_verdict fuel' 0 data1)
            else add_events [Request slots (separator_of slots)]
                            (stream_verdict fuel' declared data1)
          else add_events [Request slots (separator_of slots); Data [] true]
                          (stream_verdict fuel' 0 data1)
  end.

Definition verdict_of (rem : Z) (data : list Z) : option (list event * verdict) :=
  stream_verdict (S (List.length data)) rem data.

(** A call that is neither the error handler nor a request that shows a
    [transfer-encoding] value. *)
Definition clean_event (e : event) : bool :=
  match e with
  | Request slots _ =>
      (sv_length (field_value slots transfer_encoding_name) =? 0)%nat
  | Data _ _ => true
  | Failure => false
  end.

Definition clean (tr : list event) : bool := forallb clean_event tr.

(** A call of [consumePostPadded] that completes in the fallback buffer
    (lines 447-454) the head of a request that declares a length of zero:
    the case of C4, in which line 381 skips the data call of line 383 and
    line 468 sees no body under way. *)
Definition slips (p : HttpParser) (data : list Z) : bool :=
  (remainingStreamingBytes p =? 0)
  && negb (List.length (fallback p) =? 0)%nat
  && let '(consumed, slots, _) :=
       getHeaders (fallback p ++ firstn (maxCopyDistance (fallback p) data) data) in
     negb (consumed =? 0)%nat
     && negb (sv_is_null (field_value slots host_name))
     && (sv_length (field_value slots transfer_encoding_name) =? 0)%nat
     && negb (sv_length (field_value slots content_length_name) =? 0)%nat
     && (toUnsignedInteger (sv_bytes (field_value slots content_length_name)) =? 0).

Section Slip.

Context `{BF : BloomFilter} `{CE : ChunkedEncoding}.
Variable handlers : Handlers.
Variable user : Z.

(** No call of the delivery of [chunks] slips. *)
Fixpoint no_slip (p : HttpParser) (tr : list event) (chunks : list (list Z)) : bool :=
  match chunks with
  | [] => true
  | data :: later =>
      negb (slips p data)
      && let c := consumePostPadded handlers user p tr data in
         if returned c =? user then no_slip (parser c) (made c) later else true
  end.

End Slip.

(** What a head asks for, once the request handler has been called. *)
Definition after_request (slots : list Header) (data1 : list Z)
  : option (list event * verdict) :=
  let contentLengthString := field_value slots content_length_name in
  if negb (sv_length contentLengthString =? 0)%nat then
    let declared := toUnsignedInteger (sv_bytes contentLengthString) in
    if declared =? UINT_MAX
    then Some ([Request slots (separator_of slots)], Refused)
    else if declared =? 0
    then add_events [Request slots (separator_of slots); Data [] true]
                    (verdict_of 0 data1)
    else add_events [Request slots (separator_of slots)] (verdict_of declared data1)
  else add_events [Request slots (separator_of slots); Data [] true]
                  (verdict_of 0 data1).

(** The call [c], made after the calls [tr], comes to what the stream asks
    for: the calls, and either the parser left for the next call or the
    refusal. *)
Definition outcome (user : Z) (tr : list event) (c : consumption)
           (r : option (list event * verdict)) : Prop :=
  match r with
  | Some (ev, Goes rem pending) =>
      c = mkConsumption user (mkParser pending rem) (tr ++ ev)
      /\ Z.of_nat (List.length pending) < MAX_FALLBACK_SIZE
  | Some (ev, Refused) => returned c = FULLPTR /\ made c = tr ++ ev
  | None => False
  end.

(** ** Instances to run the parser on examples *)

(** A stand-in for the chunked decoder, for requests that carry no
    [transfer-encoding]: nothing of it is reached on them. *)
#[export] Instance absent_chunked : ChunkedEncoding := {|
  STATE_IS_CHUNKED := 0x40000000;
  isParsingChunkedEncoding := fun state => 0x3FFFFFFF <? state;
  isParsingInvalidChunkedEncoding := fun state => state =? 0xFFFFFFFF;
  ChunkIterator := fun data state => ([], List.length data, state)
|}.

(** An application that always answers [user]. *)
Definition willing : Handlers :=
  {| requestHandler := fun _ user _ _ => user;
     dataHandler := fun _ user _ _ => user;
     errorHandler := fun _ user => user |}.

Definition idle : HttpParser := mkParser [] 0.

(** A [user] pointer for the examples. *)
Definition a_user : Z := 4096.

(** [name: value\r\n]. *)
Definition field (name value : string) : list Z :=
  bytes_of name ++ bytes_of ": " ++ bytes_of value ++ CRLF.

Definition line (text : string) : list Z := bytes_of text ++ CRLF.

(** An application that gives the connection up at the first request. *)
Definition declining : Handlers :=
  {| requestHandler := fun _ _ _ _ => 0;
     dataHandler := fun _ user _ _ => user;
     errorHandler := fun _ user => user |}.

(** * Properties *)

Lemma bytes_okb_ok l : bytes_okb l = true -> bytes_ok l.
Proof.
  unfold bytes_okb, bytes_ok. rewrite forallb_forall, Forall_forall.
  intros H c Hc. specialize (H c Hc). unfold byte_okb in H. unfold byte_ok. lia.
Qed.

(** ** The bounded decimal parser *)

Lemma is_digit_range c : is_digit c = true <-> 48 <= c <= 57.
Proof. unfold is_digit. rewrite andb_true_iff, !Z.leb_le. tauto. Qed.

Lemma is_digit_guard c : (c <? 48) || (c >? 57) = negb (is_digit c).
Proof.
  unfold is_digit.
  destruct (Z.ltb_spec c 48), (Z.leb_spec 48 c), (Z.leb_spec c 57);
    rewrite ?Z.gtb_ltb; try lia;
    destruct (Z.ltb_spec 57 c); simpl; try reflexivity; lia.
Qed.

Lemma toUnsignedInteger_loop_reject s :
  forall acc, forallb is_digit s = false -> toUnsignedInteger_loop s acc = UINT_MAX.
Proof.
  induction s as [|c s IH]; simpl; intros acc H; [discriminate|].
  rewrite is_digit_guard.
  destruct (is_digit c); simpl in *; [apply IH; assumption | reflexivity].
Qed.

(** With [k] digits read and [n] to go, [k + n <= 9], nothing wraps. *)
Lemma toUnsignedInteger_loop_digits s :
  forall (k : nat) acc,
    forallb is_digit s = true ->
    (k + List.length s <= 9)%nat ->
    0 <= acc < 10 ^ Z.of_nat k ->
    toUnsignedInteger_loop s acc = fold_left (fun a c => a * 10 + (c - 48)) s acc.
Proof.
  induction s as [|c s IH]; simpl; intros k acc Hd Hlen Hacc; [reflexivity|].
  apply andb_true_iff in Hd. destruct Hd as [Hc Hs].
  rewrite is_digit_guard, Hc. simpl.
  apply is_digit_range in Hc.
  assert (Hpow : 10 ^ Z.of_nat (S k) = 10 * 10 ^ Z.of_nat k).
  { rewrite Nat2Z.inj_succ, Z.pow_succ_r by lia. reflexivity. }
  assert (Hmax : 10 ^ Z.of_nat (S k) <= 10 ^ 9).
  { apply Z.pow_le_mono_r; lia. }
  assert (Hw : wrap32 (wrap32 (acc * 10) + wrap32 (c - 48)) = acc * 10 + (c - 48)).
  { unfold wrap32. rewrite !Z.mod_small; try lia.
    rewrite !Z.mod_small; lia. }
  rewrite Hw. apply (IH (S k)); [assumption | lia | lia].
Qed.

(** The cases of [toUnsignedInteger], for the proofs about the parser. *)
Lemma toUnsignedInteger_cases (s : list Z) :
  toUnsignedInteger s =
    if (List.length s <=? 9)%nat && forallb is_digit s
    then decimal_value s else UINT_MAX.
Proof.
  unfold toUnsignedInteger, decimal_value.
  destruct (Nat.ltb_spec 9 (List.length s)) as [Hlong|Hshort].
  - replace (List.length s <=? 9)%nat with false
      by (symmetry; apply Nat.leb_gt; assumption).
    reflexivity.
  - replace (List.length s <=? 9)%nat with true
      by (symmetry; apply Nat.leb_le; assumption).
    cbn [andb negb]. destruct (forallb is_digit s) eqn:Hd.
    + apply (toUnsignedInteger_loop_digits s 0); simpl; [assumption | lia | lia].
    + apply toUnsignedInteger_loop_reject. assumption.
Qed.

(** C6. For every byte string [s]: when [s] has at most nine bytes, all of
    them ASCII digits, [toUnsignedInteger s] is the decimal value of [s];
    for every other [s] it is the sentinel [UINT_MAX]. *)
Theorem toUnsignedInteger_correct (s : list Z) :
  toUnsignedInteger s =
    if (List.length s <=? 9)%nat && forallb is_digit s
    then decimal_value s else UINT_MAX.
Proof.
  unfold toUnsignedInteger, decimal_value.
  destruct (Nat.ltb_spec 9 (List.length s)) as [Hlong|Hshort].
  - replace (List.length s <=? 9)%nat with false; [reflexivity|].
    symmetry. apply Nat.leb_gt. assumption.
  - replace (List.length s <=? 9)%nat with true
      by (symmetry; apply Nat.leb_le; assumption).
    simpl. destruct (forallb is_digit s) eqn:Hd.
    + apply (toUnsignedInteger_loop_digits s 0); simpl; [assumption | lia | lia].
    + apply toUnsignedInteger_loop_reject. assumption.
Qed.

(** ** The carriage-return scanner *)

Section WordScan.

Lemma byte_high_bits b n : byte_ok b -> 8 <= n -> Z.testbit b n = false.
Proof.
  intros [Hlo Hhi] Hn.
  destruct (Z.eq_dec b 0) as [->|Hnz]; [apply Z.bits_0|].
  apply Z.bits_above_log2; [lia|].
  apply Z.lt_le_trans with 8; [|assumption].
  apply Z.log2_lt_pow2; lia.
Qed.

Lemma byte_cons_lor b x : byte_ok b -> b + 256 * x = Z.lor b (Z.shiftl x 8).
Proof.
  intros Hb.
  assert (Hland : Z.land b (Z.shiftl x 8) = 0).
  { apply Z.bits_inj'. intros n Hn. rewrite Z.land_spec, Z.bits_0.
    destruct (Z.lt_ge_cases n 8).
    - rewrite Z.shiftl_spec_low by assumption. apply andb_false_r.
    - rewrite byte_high_bits by assumption. reflexivity. }
  pose proof (Z.add_lor_land b (Z.shiftl x 8)) as H.
  rewrite Hland, Z.add_0_r in H. rewrite H, Z.shiftl_mul_pow2 by lia.
  change (2 ^ 8) with 256. ring.
Qed.

Lemma lxor_byte_ok b c : byte_ok b -> byte_ok c -> byte_ok (Z.lxor b c).
Proof.
  intros Hb Hc. unfold byte_ok.
  assert (Hnn : 0 <= Z.lxor b c) by (apply Z.lxor_nonneg; unfold byte_ok in *; lia).
  split; [assumption|].
  destruct (Z.eq_dec (Z.lxor b c) 0) as [->|Hnz]; [lia|].
  change 256 with (2 ^ 8). apply Z.log2_lt_pow2; [lia|].
  destruct (Z.lt_ge_cases (Z.log2 (Z.lxor b c)) 8) as [|Hge]; [assumption|].
  exfalso.
  assert (Hbit : Z.testbit (Z.lxor b c) (Z.log2 (Z.lxor b c)) = true)
    by (apply Z.bit_log2; lia).
  rewrite Z.lxor_spec, !byte_high_bits in Hbit by assumption. discriminate.
Qed.

Lemma lxor_byte_cons b c x y :
  byte_ok b -> byte_ok c ->
  Z.lxor (b + 256 * x) (c + 256 * y) = Z.lxor b c + 256 * Z.lxor x y.
Proof.
  intros Hb Hc.
  rewrite !byte_cons_lor by auto using lxor_byte_ok.
  apply Z.bits_inj'. intros n Hn.
  rewrite Z.lxor_spec, !Z.lor_spec, Z.lxor_spec.
  destruct (Z.lt_ge_cases n 8).
  - rewrite !Z.shiftl_spec_low by assumption. rewrite !orb_false_r. reflexivity.
  - rewrite !Z.shiftl_spec, Z.lxor_spec by lia.
    rewrite (byte_high_bits b), (byte_high_bits c) by assumption. reflexivity.
Qed.

Lemma le_combine_lxor_cr l :
  bytes_ok l ->
  Z.lxor (le_combine l) (le_combine (repeat CR (List.length l)))
  = le_combine (map (fun b => Z.lxor b CR) l).
Proof.
  induction 1 as [|b l Hb Hl IH]; [reflexivity|].
  cbn [List.length repeat map le_combine].
  rewrite lxor_byte_cons, IH; [reflexivity | assumption | unfold byte_ok, CR; lia].
Qed.

Lemma le_combine_app l m :
  le_combine (l ++ m) = le_combine l + 256 ^ Z.of_nat (List.length l) * le_combine m.
Proof.
  induction l as [|b l IH].
  - cbn [app le_combine List.length]. change (256 ^ Z.of_nat 0) with 1. lia.
  - cbn [app le_combine List.length].
    rewrite IH, Nat2Z.inj_succ, Z.pow_succ_r by lia. ring.
Qed.

Lemma le_combine_range l :
  bytes_ok l -> 0 <= le_combine l < 256 ^ Z.of_nat (List.length l).
Proof.
  induction 1 as [|b l Hb Hl IH]; [cbn; lia|].
  cbn [le_combine List.length]. rewrite Nat2Z.inj_succ, Z.pow_succ_r by lia.
  unfold byte_ok in Hb. nia.
Qed.

(** Bytes that are all nonzero dominate the word of ones: subtracting
    [0x01...01] borrows nothing out of them. *)
Lemma le_combine_ge_ones l :
  Forall (fun v => 1 <= v < 256) l ->
  le_combine (repeat 1 (List.length l)) <= le_combine l.
Proof.
  induction 1 as [|b l Hb Hl IH]; [cbn; lia|].
  cbn [le_combine List.length repeat]. lia.
Qed.

Lemma first_zero_split l :
  bytes_ok l -> In 0 l ->
  exists pre post, l = pre ++ 0 :: post /\ Forall (fun v => 1 <= v < 256) pre
                   /\ bytes_ok post.
Proof.
  induction 1 as [|b l Hb Hl IH]; intros Hin; [destruct Hin|].
  destruct (Z.eq_dec b 0) as [->|Hnz].
  - exists [], l. repeat split; [constructor | assumption].
  - destruct Hin as [Heq|Hin]; [congruence|].
    destruct (IH Hin) as (pre & post & -> & Hpre & Hpost).
    exists (b :: pre), post. repeat split; [|assumption].
    constructor; [unfold byte_ok in Hb; lia | assumption].
Qed.

(** The borrow argument of the word test at a fixed position [n = 8k + 7]:
    [a] is the value of the [k] nonzero bytes below the zero byte, [hi] the
    value of the bytes above it. *)
Lemma zero_byte_flagged (k : nat) (a hi : Z) :
  (k < 8)%nat ->
  le_combine (repeat 1 k) <= a < 256 ^ Z.of_nat k ->
  0 <= hi ->
  let val := a + 256 ^ Z.of_nat k * (0 + 256 * hi) in
  let n := 8 * Z.of_nat k + 7 in
  Z.testbit (wrap64 (val + 0xfefefefefefefeff)) n = true
  /\ Z.testbit val n = false
  /\ Z.testbit 0x8080808080808080 n = true.
Proof.
  intros Hk Ha Hhi.
  do 8 (destruct k as [|k]; [
    cbn [repeat le_combine] in Ha; cbn zeta;
    split; [|split];
    [ apply Z.testbit_true; [lia|]; unfold wrap64
    | apply Z.testbit_false; [lia|]
    | reflexivity ];
    repeat match goal with
    | H : context [256 ^ ?e] |- _ =>
        let v := eval vm_compute in (256 ^ e) in change (256 ^ e) with v in H
    | |- context [?b ^ ?e] =>
        let v := eval vm_compute in (b ^ e) in change (b ^ e) with v
    end;
    Z.div_mod_to_equations; lia |]).
  lia.
Qed.

Lemma word_has_cr_sound bs :
  bytes_ok bs -> List.length bs = 8%nat -> In CR bs ->
  word_has_cr (le_combine bs) = true.
Proof.
  intros Hbs Hlen Hin. unfold word_has_cr.
  change cr_mask with (le_combine (repeat CR 8)). rewrite <- Hlen.
  rewrite le_combine_lxor_cr by assumption.
  set (vs := map (fun b => Z.lxor b CR) bs).
  assert (Hvs : bytes_ok vs).
  { unfold vs, bytes_ok. rewrite Forall_map. eapply Forall_impl; [|exact Hbs].
    intros b Hb. apply lxor_byte_ok; [assumption | unfold byte_ok, CR; lia]. }
  assert (Hzero : In 0 vs).
  { unfold vs. apply in_map_iff. exists CR. split; [apply Z.lxor_nilpotent | assumption]. }
  destruct (first_zero_split vs Hvs Hzero) as (pre & post & Heq & Hpre & Hpost).
  assert (Hk : (List.length pre < 8)%nat).
  { assert (Hl : List.length vs = 8%nat) by (unfold vs; rewrite length_map; assumption).
    rewrite Heq, length_app in Hl. cbn in Hl. lia. }
  rewrite Heq, le_combine_app. cbn [le_combine].
  assert (Hpre' : bytes_ok pre).
  { eapply Forall_impl; [|exact Hpre]. unfold byte_ok. intros; lia. }
  destruct (zero_byte_flagged (List.length pre) (le_combine pre) (le_combine post) Hk)
    as (H1 & H2 & H3).
  - split; [apply le_combine_ge_ones; assumption | apply le_combine_range; assumption].
  - apply le_combine_range; assumption.
  - cbn zeta in H1, H2, H3.
    apply negb_true_iff, Z.eqb_neq. intros Hz.
    apply (f_equal (fun z => Z.testbit z (8 * Z.of_nat (List.length pre) + 7))) in Hz.
    rewrite !Z.land_spec, Z.lnot_spec, H1, H2, H3, Z.bits_0 in Hz by lia.
    discriminate.
Qed.

End WordScan.

Lemma memchr_r_bytes_first_cr l : memchr_r_bytes l = first_cr l.
Proof. induction l as [|c l IH]; simpl; [|rewrite IH]; reflexivity. Qed.

Lemma first_cr_spec l i :
  first_cr l = Some i <->
  (nth_error l i = Some CR /\ forall j, (j < i)%nat -> nth_error l j <> Some CR).
Proof.
  revert i. induction l as [|c l IH]; intros i; simpl.
  - split; [discriminate|]. intros [H _]. destruct i; discriminate.
  - destruct (Z.eqb_spec c CR) as [->|Hc].
    + split.
      * intros [= <-]. split; [reflexivity|]. intros j Hj. lia.
      * intros [_ H]. destruct i; [reflexivity|].
        exfalso. apply (H O); [lia | reflexivity].
    + destruct i as [|i].
      * split; [destruct (first_cr l); discriminate|].
        intros [[= H] _]. congruence.
      * specialize (IH i). split.
        -- destruct (first_cr l) as [k|]; [|discriminate].
           intros [= ->]. destruct IH as [IH _]. destruct (IH eq_refl) as [H1 H2].
           split; [assumption|]. intros [|j] Hj; simpl; [congruence|].
           apply H2. lia.
        -- intros [H1 H2]. destruct IH as [_ IH]. rewrite IH; [reflexivity|].
           split; [assumption|]. intros j Hj. apply (H2 (S j)). lia.
Qed.

Lemma first_cr_none l : first_cr l = None <-> ~ In CR l.
Proof.
  induction l as [|c l IH]; simpl; [tauto|].
  destruct (Z.eqb_spec c CR) as [->|Hc].
  - split; [discriminate | intros H; exfalso; apply H; left; reflexivity].
  - destruct (first_cr l) as [k|]; simpl.
    + split; [discriminate|]. intros H. exfalso. apply H. right.
      destruct IH as [IH1 IH2]. destruct (in_dec Z.eq_dec CR l) as [Hin|Hout]; [assumption|].
      specialize (IH2 Hout). discriminate.
    + split; [|reflexivity]. intros _ [H|H]; [congruence | tauto].
Qed.

(** Skipping eight bytes that hold no ['\r'] moves the first occurrence by
    eight. *)
Lemma first_cr_skip_word pre rest :
  ~ In CR pre ->
  first_cr (pre ++ rest) = option_map (Nat.add (List.length pre)) (first_cr rest).
Proof.
  induction pre as [|c pre IH]; intros Hnot; simpl.
  - destruct (first_cr rest); reflexivity.
  - destruct (Z.eqb_spec c CR) as [->|Hc]; [exfalso; apply Hnot; left; reflexivity|].
    rewrite IH by (intros H; apply Hnot; right; assumption).
    destruct (first_cr rest); reflexivity.
Qed.

(** The word loop never steps over a ['\r']. *)
Lemma memchr_r_words_stops (n : nat) :
  forall l i, (List.length l <= n)%nat -> bytes_ok l ->
    first_cr l = Some i -> (memchr_r_words l <= i)%nat.
Proof.
  induction n as [|n IH]; intros l i Hlen Hok Hfirst.
  - destruct l; [discriminate | simpl in Hlen; lia].
  - destruct l as [|b0 [|b1 [|b2 [|b3 [|b4 [|b5 [|b6 [|b7 rest]]]]]]]];
      try (cbn [memchr_r_words]; lia).
    cbn [memchr_r_words].
    set (w := [b0; b1; b2; b3; b4; b5; b6; b7]) in *.
    destruct (word_has_cr (le_combine w)) eqn:Htest; [lia|].
    assert (Hw : bytes_ok w /\ bytes_ok rest).
    { unfold bytes_ok in *. change (b0 :: b1 :: b2 :: b3 :: b4 :: b5 :: b6 :: b7 :: rest)
        with (w ++ rest) in Hok. apply Forall_app in Hok. exact Hok. }
    destruct Hw as [Hw Hrest].
    assert (Hnot : ~ In CR w).
    { intros Hin. rewrite (word_has_cr_sound w Hw eq_refl Hin) in Htest. discriminate. }
    change (b0 :: b1 :: b2 :: b3 :: b4 :: b5 :: b6 :: b7 :: rest) with (w ++ rest) in Hfirst.
    rewrite (first_cr_skip_word w rest Hnot) in Hfirst.
    destruct (first_cr rest) as [j|] eqn:Hj; [|discriminate].
    injection Hfirst as <-. 
    assert (memchr_r_words rest <= j)%nat.
    { apply IH; [simpl in Hlen; lia | assumption | assumption]. }
    change (List.length w) with 8%nat. lia.
Qed.

Lemma first_cr_skipn (k : nat) :
  forall l, (forall i, first_cr l = Some i -> (k <= i)%nat) ->
    option_map (Nat.add k) (first_cr (skipn k l)) = first_cr l.
Proof.
  induction k as [|k IH]; intros l Hk.
  - simpl. destruct (first_cr l); reflexivity.
  - destruct l as [|c l]; [reflexivity|].
    cbn [skipn first_cr] in *.
    destruct (Z.eqb_spec c CR) as [->|Hc].
    + specialize (Hk O eq_refl). lia.
    + rewrite <- (IH l).
      * destruct (first_cr (skipn k l)); reflexivity.
      * intros i Hi. rewrite Hi in Hk. specialize (Hk (S i) eq_refl). lia.
Qed.

(** The word loop never steps over a ['\r']: the scanner is the byte-wise
    scan, for the proofs about the tokenizer. *)
Lemma memchr_r_scan (l : list Z) : bytes_ok l -> memchr_r l = first_cr l.
Proof.
  intros Hok. unfold memchr_r. rewrite memchr_r_bytes_first_cr.
  apply first_cr_skipn. intros i Hi.
  apply (memchr_r_words_stops (List.length l)); auto.
Qed.

(** C9. For every byte range, the word-parallel scanner [memchr_r] returns
    what the byte-wise scan [first_cr] returns: the position of the first
    ['\r'] of the range, or none when the range holds no ['\r']. *)
Theorem memchr_r_first_cr (l : list Z) :
  bytes_ok l ->
  memchr_r l = first_cr l
  /\ (forall i, memchr_r l = Some i ->
        nth_error l i = Some CR /\ forall j, (j < i)%nat -> nth_error l j <> Some CR)
  /\ (memchr_r l = None -> ~ In CR l).
Proof.
  intros Hok.
  assert (Heq : memchr_r l = first_cr l).
  { unfold memchr_r. rewrite memchr_r_bytes_first_cr.
    apply first_cr_skipn. intros i Hi.
    apply (memchr_r_words_stops (List.length l)); auto. }
  rewrite Heq. split; [reflexivity|]. split.
  - intros i Hi. apply first_cr_spec. assumption.
  - apply first_cr_none.
Qed.

Lemma memchr_r_first_cr_witness :
  let l := bytes_of "Host: example.org" ++ CRLF in
  bytes_ok l /\ memchr_r l = Some 17%nat /\ first_cr l = Some 17%nat.
Proof.
  cbv zeta.
  assert (Hok : bytes_ok (bytes_of "Host: example.org" ++ CRLF)).
  { apply bytes_okb_ok. reflexivity. }
  split; [exact Hok|].
  destruct (memchr_r_first_cr _ Hok) as [Heq _].
  split; [rewrite Heq|]; reflexivity.
Defined.

(** ** Looking a header up *)

Lemma list_eqb_eq a b : list_eqb a b = true <-> a = b.
Proof.
  unfold list_eqb. destruct (list_eq_dec Z.eq_dec a b); split; congruence.
Qed.

Lemma strncmp_eq_iff name :
  Forall (fun c => c <> 0) name ->
  forall a, List.length a = List.length name -> (strncmp_eq a name = true <-> a = name).
Proof.
  induction 1 as [|y name Hy Hname IH]; intros a Hlen.
  - destruct a; [simpl; tauto | discriminate].
  - destruct a as [|x a]; [discriminate|]. simpl in *.
    destruct (Z.eqb_spec x y) as [->|Hxy].
    + destruct (Z.eqb_spec y 0) as [|_]; [contradiction|].
      rewrite IH by lia. split; congruence.
    + split; [discriminate | congruence].
Qed.

Lemma name_test name a :
  Forall (fun c => c <> 0) name ->
  (List.length a =? List.length name)%nat && strncmp_eq a name = list_eqb a name.
Proof.
  intros Hname.
  destruct (Nat.eqb_spec (List.length a) (List.length name)) as [Hlen|Hlen]; simpl.
  - destruct (list_eqb a name) eqn:E.
    + apply strncmp_eq_iff; [assumption | assumption | apply list_eqb_eq; assumption].
    + destruct (strncmp_eq a name) eqn:S; [|reflexivity].
      apply strncmp_eq_iff in S; [|assumption|assumption].
      apply list_eqb_eq in S. congruence.
  - destruct (list_eqb a name) eqn:E; [|reflexivity].
    apply list_eqb_eq in E. subst. contradiction.
Qed.

Lemma getHeader_scan_find name slots :
  Forall (fun c => c <> 0) name ->
  getHeader_scan slots name =
    match find (fun h => list_eqb (sv_bytes (key h)) name) (shown_headers slots) with
    | Some h => value h
    | None => None
    end.
Proof.
  intros Hname. induction slots as [|h slots IH]; simpl; [reflexivity|].
  destruct (sv_length (key h) =? 0)%nat eqn:Hzero; [reflexivity|].
  simpl. replace (sv_length (key h)) with (List.length (sv_bytes (key h)))
    by (destruct (key h); reflexivity).
  rewrite name_test by assumption.
  destruct (list_eqb (sv_bytes (key h)) name); [reflexivity | exact IH].
Qed.

Section Lookup.

Context `{BF : BloomFilter}.

(** With a filter that has no false negative, [getHeader] is the scan of the
    shown header fields. *)
Lemma getHeader_field_value slots name :
  Forall (fun c => c <> 0) name ->
  getHeader (request_of slots) name = field_value slots name.
Proof.
  intros Hname. unfold getHeader, field_value. cbn [bf headers request_of].
  rewrite getHeader_scan_find by assumption.
  destruct (bf_mightHave _ name) eqn:Hbf; [reflexivity|].
  destruct (find _ (shown_headers (tl slots))) as [h|] eqn:Hfind; [|reflexivity].
  apply find_some in Hfind. destruct Hfind as [Hin Heq]. apply list_eqb_eq in Heq.
  rewrite bf_no_false_negative in Hbf; [discriminate|].
  rewrite <- Heq. apply in_map_iff. exists h. split; [reflexivity | assumption].
Qed.

End Lookup.

Lemma shown_headers_incl slots h : In h (shown_headers slots) -> In h slots.
Proof.
  induction slots as [|x slots IH]; simpl; [tauto|].
  destruct (sv_length (key x) =? 0)%nat; simpl; [tauto|]. intros [H|H]; auto.
Qed.

Lemma field_value_absent slots name :
  ~ has_field slots name -> field_value slots name = None.
Proof.
  intros Hno. unfold field_value.
  destruct (find _ _) as [h|] eqn:Hfind; [|reflexivity].
  apply find_some in Hfind. destruct Hfind as [Hin Heq]. apply list_eqb_eq in Heq.
  pose proof Hin as Hshown. apply shown_headers_incl in Hin.
  exfalso. apply Hno. exists h. split; [assumption|].
  destruct (key h) as [k|] eqn:Hk; simpl in Heq; [congruence|].
  (* a shown header has a key of positive length *)
  clear - Hshown Hk. induction (tl slots) as [|x l IH]; simpl in Hshown; [tauto|].
  destruct (sv_length (key x) =? 0)%nat eqn:Hx; [destruct Hshown|].
  destruct Hshown as [->|H]; [rewrite Hk in Hx; discriminate | auto].
Qed.

Lemma host_name_nonzero : Forall (fun c => c <> 0) host_name.
Proof. cbv [host_name bytes_of map list_ascii_of_string nat_of_ascii]. repeat constructor; discriminate. Qed.

Lemma transfer_encoding_name_nonzero : Forall (fun c => c <> 0) transfer_encoding_name.
Proof. apply Forall_forall. intros c Hc. vm_compute in Hc. intuition (subst; discriminate). Qed.

Lemma content_length_name_nonzero : Forall (fun c => c <> 0) content_length_name.
Proof. apply Forall_forall. intros c Hc. vm_compute in Hc. intuition (subst; discriminate). Qed.

(** ** One turn of the loop of [fenceAndConsumePostPadded] *)

Lemma getHeaders_nil : getHeaders [] = (O, [], []).
Proof. reflexivity. Qed.

Section FenceTurn.

Context `{BF : BloomFilter} `{CE : ChunkedEncoding}.
Variable handlers : Handlers.
Variable user : Z.

Variables (data : list Z) (consumed : nat) (slots : list Header) (buf : list Z).
Hypothesis Htokenized : getHeaders data = (consumed, slots, buf).
Hypothesis Hhead : consumed <> O.

Lemma tokenized_nonempty : (List.length data =? 0)%nat = false.
Proof.
  destruct data; [|reflexivity].
  rewrite getHeaders_nil in Htokenized. injection Htokenized as <- _ _. contradiction.
Qed.

Lemma consumed_nonzero : (consumed =? 0)%nat = false.
Proof. apply Nat.eqb_neq. assumption. Qed.

(** The head has no shown [host]: line 305. *)
Lemma fence_loop_no_host fuel minimal ct rem tr :
  field_value slots host_name = None ->
  fence_loop handlers user (S fuel) minimal data ct rem tr
  = mkFenced 0 FULLPTR buf rem tr.
Proof.
  intros Hhost. cbn [fence_loop].
  rewrite tokenized_nonempty, Htokenized, consumed_nonzero.
  rewrite (getHeader_field_value slots host_name host_name_nonzero), Hhost.
  reflexivity.
Qed.

(** Both lengths are nonzero: line 319. *)
Lemma fence_loop_conflict fuel minimal ct rem tr :
  sv_length (field_value slots transfer_encoding_name) <> O ->
  sv_length (field_value slots content_length_name) <> O ->
  fence_loop handlers user (S fuel) minimal data ct rem tr
  = mkFenced 0 FULLPTR buf rem tr.
Proof.
  intros Hte Hcl. cbn [fence_loop].
  rewrite tokenized_nonempty, Htokenized, consumed_nonzero.
  rewrite (getHeader_field_value slots host_name host_name_nonzero).
  destruct (sv_is_null (field_value slots host_name)); [reflexivity|].
  rewrite (getHeader_field_value slots _ transfer_encoding_name_nonzero).
  rewrite (getHeader_field_value slots _ content_length_name_nonzero).
  apply Nat.eqb_neq in Hte, Hcl. rewrite Hte, Hcl. reflexivity.
Qed.

End FenceTurn.

(** ** Heads that are refused *)

Section Refusal.

Context `{BF : BloomFilter} `{CE : ChunkedEncoding}.
Variable handlers : Handlers.
Variable user : Z.
Hypothesis Huser : user <> FULLPTR.

Lemma fullptr_is_not_user : negb (FULLPTR =? user) = true.
Proof. apply negb_true_iff, Z.eqb_neq. congruence. Qed.

(** When the first turn of the loop refuses the head of [data] without a
    call, so does [consumePostPadded] on an idle parser. *)
Lemma refused_when_idle data buf tr :
  (forall fuel minimal ct rem tr',
     fence_loop handlers user (S fuel) minimal data ct rem tr'
     = mkFenced 0 FULLPTR buf rem tr') ->
  returned (consumePostPadded handlers user idle tr data) = FULLPTR
  /\ made (consumePostPadded handlers user idle tr data) = tr.
Proof.
  intros Hturn. unfold consumePostPadded, idle. cbn [remainingStreamingBytes fallback].
  cbn [Z.eqb negb List.length Nat.eqb]. unfold consume_heads, fenceAndConsumePostPadded.
  rewrite Hturn. cbn [consumed_second calls]. rewrite fullptr_is_not_user.
  split; reflexivity.
Qed.

(** The same when the head is completed in the fallback buffer. *)
Lemma refused_in_fallback p chunk data buf tr :
  remainingStreamingBytes p = 0 ->
  fallback p <> [] ->
  fallback p ++ chunk = data ->
  Z.of_nat (List.length data) <= MAX_FALLBACK_SIZE ->
  (forall fuel minimal ct rem tr',
     fence_loop handlers user (S fuel) minimal data ct rem tr'
     = mkFenced 0 FULLPTR buf rem tr') ->
  returned (consumePostPadded handlers user p tr chunk) = FULLPTR
  /\ made (consumePostPadded handlers user p tr chunk) = tr.
Proof.
  intros Hrem Hfb Hdata Hlen Hturn. unfold consumePostPadded.
  rewrite Hrem. cbn [Z.eqb negb].
  destruct (List.length (fallback p) =? 0)%nat eqn:Hz.
  { apply Nat.eqb_eq, length_zero_iff_nil in Hz. contradiction. }
  cbn [negb].
  assert (Hcopy : Z.to_nat (Z.min (wrap64 (MAX_FALLBACK_SIZE - Z.of_nat (List.length (fallback p))))
                                  (Z.of_nat (List.length chunk))) = List.length chunk).
  { rewrite <- Hdata, length_app in Hlen. unfold wrap64, MAX_FALLBACK_SIZE in *.
    rewrite Z.mod_small by lia. lia. }
  rewrite Hcopy, firstn_all, Hdata. unfold fenceAndConsumePostPadded.
  rewrite Hturn. cbn [consumed_second calls]. rewrite fullptr_is_not_user.
  split; reflexivity.
Qed.

End Refusal.

(** C2. A successfully tokenized head that holds no [host] header is
    refused: the turn of the loop that meets it returns the error sentinel
    without a call to a handler, whatever came before it in the call; and
    [consumePostPadded] returns the sentinel without a call when the head
    opens the data of an idle parser or is completed in the fallback
    buffer. *)
Theorem missing_host_rejected `{BF : BloomFilter} `{CE : ChunkedEncoding}
        (handlers : Handlers) (user : Z)
        (data : list Z) (consumed : nat) (slots : list Header) (buf : list Z) :
  user <> FULLPTR ->
  getHeaders data = (consumed, slots, buf) ->
  consumed <> O ->
  ~ has_field slots host_name ->
  (forall fuel minimal ct rem tr,
     fence_loop handlers user (S fuel) minimal data ct rem tr
     = mkFenced 0 FULLPTR buf rem tr)
  /\ (forall tr,
        returned (consumePostPadded handlers user idle tr data) = FULLPTR
        /\ made (consumePostPadded handlers user idle tr data) = tr)
  /\ (forall p chunk tr,
        remainingStreamingBytes p = 0 -> fallback p <> [] ->
        fallback p ++ chunk = data ->
        Z.of_nat (List.length data) <= MAX_FALLBACK_SIZE ->
        returned (consumePostPadded handlers user p tr chunk) = FULLPTR
        /\ made (consumePostPadded handlers user p tr chunk) = tr).
Proof.
  intros Huser Htok Hhead Hno.
  assert (Hturn : forall fuel minimal ct rem tr,
             fence_loop handlers user (S fuel) minimal data ct rem tr
             = mkFenced 0 FULLPTR buf rem tr).
  { intros. eapply fence_loop_no_host; eauto using field_value_absent. }
  split; [exact Hturn|]. split.
  - intros tr. eapply refused_when_idle; eassumption.
  - intros p chunk tr H1 H2 H3 H4. eapply refused_in_fallback; eassumption.
Qed.

Definition hostless_head : list Z :=
  line "GET /a HTTP/1.1" ++ field "Accept" "text/html" ++ CRLF.

Lemma missing_host_rejected_witness :
  returned (consumePostPadded willing a_user idle [] hostless_head) = FULLPTR
  /\ made (consumePostPadded willing a_user idle [] hostless_head) = [].
Proof.
  refine (proj1 (proj2 (missing_host_rejected willing a_user hostless_head
                          _ _ _ _ eq_refl _ _)) []).
  - unfold a_user, FULLPTR. lia.
  - discriminate.
  - intros (h & Hin & Hkey). simpl in Hin.
    destruct Hin as [<-|[<-|[]]]; discriminate.
Defined.

(** C1, as the code has it. A successfully tokenized head whose shown
    [transfer-encoding] and [content-length] fields both have a value of
    nonzero length is refused: the turn of the loop that meets it returns
    the error sentinel without a call to a handler, so that no handler is
    called for this request or for a later one of the same call; and
    [consumePostPadded] returns the sentinel without a call when the head
    opens the data of an idle parser or is completed in the fallback
    buffer. *)
Theorem conflicting_lengths_rejected `{BF : BloomFilter} `{CE : ChunkedEncoding}
        (handlers : Handlers) (user : Z)
        (data : list Z) (consumed : nat) (slots : list Header) (buf : list Z) :
  user <> FULLPTR ->
  getHeaders data = (consumed, slots, buf) ->
  consumed <> O ->
  sv_length (field_value slots transfer_encoding_name) <> O ->
  sv_length (field_value slots content_length_name) <> O ->
  (forall fuel minimal ct rem tr,
     fence_loop handlers user (S fuel) minimal data ct rem tr
     = mkFenced 0 FULLPTR buf rem tr)
  /\ (forall tr,
        returned (consumePostPadded handlers user idle tr data) = FULLPTR
        /\ made (consumePostPadded handlers user idle tr data) = tr)
  /\ (forall p chunk tr,
        remainingStreamingBytes p = 0 -> fallback p <> [] ->
        fallback p ++ chunk = data ->
        Z.of_nat (List.length data) <= MAX_FALLBACK_SIZE ->
        returned (consumePostPadded handlers user p tr chunk) = FULLPTR
        /\ made (consumePostPadded handlers user p tr chunk) = tr).
Proof.
  intros Huser Htok Hhead Hte Hcl.
  assert (Hturn : forall fuel minimal ct rem tr,
             fence_loop handlers user (S fuel) minimal data ct rem tr
             = mkFenced 0 FULLPTR buf rem tr).
  { intros. eapply fence_loop_conflict; eauto. }
  split; [exact Hturn|]. split.
  - intros tr. eapply refused_when_idle; eassumption.
  - intros p chunk tr H1 H2 H3 H4. eapply refused_in_fallback; eassumption.
Qed.

(** Scenario S4 of the specification. *)
Definition smuggling_head : list Z :=
  line "GET / HTTP/1.1" ++ field "Host" "h" ++ field "Content-Length" "3"
  ++ field "Transfer-Encoding" "chunked" ++ CRLF ++ bytes_of "abc".

Lemma conflicting_lengths_rejected_witness :
  returned (consumePostPadded willing a_user idle [] smuggling_head) = FULLPTR
  /\ made (consumePostPadded willing a_user idle [] smuggling_head) = [].
Proof.
  refine (proj1 (proj2 (conflicting_lengths_rejected willing a_user smuggling_head
                          _ _ _ _ eq_refl _ _ _)) []).
  - unfold a_user, FULLPTR. lia.
  - discriminate.
  - discriminate.
  - discriminate.
Defined.

(** A head with both headers, the [content-length] one without a value:
    line 315 tests the lengths of the two values, and the request handler is
    called. *)
Definition valueless_length_head : list Z :=
  line "POST /u HTTP/1.1" ++ field "Host" "h" ++ field "Transfer-Encoding" "chunked"
  ++ line "Content-Length:" ++ CRLF.

Lemma valueless_content_length_accepted :
  let slots := snd (fst (getHeaders valueless_length_head)) in
  let c := consumePostPadded willing a_user idle [] valueless_length_head in
  fst (fst (getHeaders valueless_length_head)) = List.length valueless_length_head
  /\ has_field slots transfer_encoding_name
  /\ has_field slots content_length_name
  /\ returned c = a_user
  /\ a_user <> FULLPTR
  /\ made c = [Request slots 11].
Proof.
  cbv zeta. split; [reflexivity|]. split.
  { exists (mkHeader (Some transfer_encoding_name) (Some (bytes_of "chunked"))).
    split; [|reflexivity]. vm_compute. tauto. }
  split.
  { exists (mkHeader (Some content_length_name) (Some [])).
    split; [|reflexivity]. vm_compute. tauto. }
  split; [reflexivity|]. split; [discriminate|]. reflexivity.
Qed.

(** ** What [getHeaders] leaves *)

Lemma key_scan_le l : (key_scan l <= List.length l)%nat.
Proof.
  induction l as [|c l IH]; simpl; [lia|].
  destruct (negb (c =? COLON) && (32 <? c)); simpl; lia.
Qed.

Lemma value_skip_le l : (value_skip l <= List.length l)%nat.
Proof.
  induction l as [|c l IH]; simpl; [lia|].
  destruct (((c =? COLON) || (c <? 33)) && negb (c =? CR)); simpl; lia.
Qed.

Lemma memchr_r_bytes_lt l r : memchr_r_bytes l = Some r -> (r < List.length l)%nat.
Proof.
  revert r. induction l as [|c l IH]; simpl; intros r H; [discriminate|].
  destruct (c =? CR); [injection H as <-; lia|].
  destruct (memchr_r_bytes l) as [k|]; [|discriminate].
  injection H as <-. specialize (IH k eq_refl). lia.
Qed.

Lemma memchr_r_words_le l : (memchr_r_words l <= List.length l)%nat.
Proof.
  assert (H : forall n l, (List.length l <= n)%nat -> (memchr_r_words l <= List.length l)%nat).
  { induction n as [|n IH]; intros l' Hlen.
    - destruct l'; simpl in *; lia.
    - destruct l' as [|b0 [|b1 [|b2 [|b3 [|b4 [|b5 [|b6 [|b7 rest]]]]]]]];
        try (cbn [memchr_r_words]; lia).
      cbn [memchr_r_words].
      destruct (word_has_cr _); [lia|].
      specialize (IH rest). cbn [List.length] in *. lia. }
  apply (H (List.length l)). lia.
Qed.

Lemma memchr_r_lt l r : memchr_r l = Some r -> (r < List.length l)%nat.
Proof.
  unfold memchr_r. intros H.
  destruct (memchr_r_bytes (skipn (memchr_r_words l) l)) as [k|] eqn:Hk; [|discriminate].
  injection H as <-. apply memchr_r_bytes_lt in Hk. rewrite length_skipn in Hk.
  pose proof (memchr_r_words_le l). lia.
Qed.

Lemma firstn_skipn_length {A} (k : nat) (l : list A) (f : A -> A) :
  List.length (map f (firstn k l) ++ skipn k l) = List.length l.
Proof.
  rewrite length_app, length_map, <- length_app, firstn_skipn. reflexivity.
Qed.

(** The buffer keeps its length; a tokenized head lies inside it and reaches
    past [off]. *)
Lemma getHeaders_loop_extent n :
  forall i off l ret slots buf,
    getHeaders_loop n i off l = (ret, slots, buf) ->
    List.length buf = List.length l
    /\ (ret = O \/ (off + 2 <= ret <= off + List.length l)%nat).
Proof.
  induction n as [|n IH]; intros i off l ret slots buf H.
  - injection H as <- _ <-. auto.
  - cbn [getHeaders_loop] in H.
    pose proof (firstn_skipn_length (key_scan l) l lower) as Hlen.
    pose proof (length_skipn (key_scan l) l) as Hsplit.
    destruct (skipn (key_scan l) l) as [|c after] eqn:Hat.
    { injection H as <- _ <-. rewrite app_nil_r in Hlen. auto. }
    destruct (c =? CR).
    { destruct (nth O after CR =? LF) eqn:Hlf; cbn [andb] in H.
      - destruct (0 <? i)%nat; injection H as <- _ <-; split; auto.
        right. destruct after as [|d after]; [discriminate|].
        cbn [List.length] in Hsplit.
        pose proof (key_scan_le l) as Hk. clear - Hsplit Hk. lia.
      - injection H as <- _ <-. auto. }
    destruct (memchr_r (skipn (value_skip after) after)) as [r|] eqn:Hr;
      [|injection H as <- _ <-; auto].
    destruct (nth (S r) (skipn (value_skip after) after) CR =? LF) eqn:Hlf;
      [|injection H as <- _ <-; auto].
    destruct (getHeaders_loop n (S i) _ _) as [[ret' slots'] rest] eqn:Hrec.
    injection H as <- _ <-.
    apply IH in Hrec. destruct Hrec as [Hrest Hret].
    pose proof (memchr_r_lt _ _ Hr) as Hrlt.
    pose proof (value_skip_le after) as Hs.
    assert (Hr2 : (r + 2 <= List.length (skipn (value_skip after) after))%nat).
    { destruct (Nat.eq_dec (S r) (List.length (skipn (value_skip after) after))) as [E|E]; [|lia].
      rewrite nth_overflow in Hlf by lia. discriminate. }
    rewrite !length_skipn in Hrest, Hret, Hr2.
    cbn [List.length] in Hsplit.
    pose proof (key_scan_le l) as Hk.
    pose proof (length_skipn (value_skip after) after) as Hsk.
    split.
    + rewrite length_app, length_map, length_firstn. cbn [List.length].
      rewrite !length_app, !length_firstn, Hrest, !length_skipn. lia.
    + destruct Hret as [->|Hret]; [auto|]. right. lia.
Qed.

Lemma getHeaders_extent l ret slots buf :
  getHeaders l = (ret, slots, buf) ->
  List.length buf = List.length l /\ (ret <= List.length l)%nat.
Proof.
  intros H. apply getHeaders_loop_extent in H. destruct H as [H1 [->|H2]]; split; lia.
Qed.

(** A slot that has a key has a value. *)
Lemma getHeaders_loop_values n :
  forall i off l ret slots buf,
    getHeaders_loop n i off l = (ret, slots, buf) ->
    forall h, In h slots -> key h <> None -> value h <> None.
Proof.
  induction n as [|n IH]; intros i off l ret slots buf H h Hin Hkey.
  - injection H as _ <- _. destruct Hin.
  - cbn [getHeaders_loop] in H.
    destruct (skipn (key_scan l) l) as [|c after].
    { injection H as _ <- _. destruct Hin. }
    destruct (c =? CR).
    { destruct ((nth O after CR =? LF) && (0 <? i)%nat); injection H as _ <- _.
      - destruct Hin as [<-|[]]. contradiction.
      - destruct Hin. }
    destruct (memchr_r _) as [r|]; [|injection H as _ <- _; destruct Hin].
    destruct (nth (S r) _ CR =? LF); [|injection H as _ <- _; destruct Hin].
    destruct (getHeaders_loop n (S i) _ _) as [[ret' slots'] rest] eqn:Hrec.
    injection H as _ <- _. destruct Hin as [<-|Hin]; [discriminate|].
    eapply IH; eassumption.
Qed.

Lemma shown_headers_keyed slots h : In h (shown_headers slots) -> key h <> None.
Proof.
  induction slots as [|x slots IH]; simpl; [tauto|].
  destruct (sv_length (key x) =? 0)%nat eqn:Hx; [tauto|].
  intros [<-|H]; [|auto]. intros Hk. rewrite Hk in Hx. discriminate.
Qed.

Lemma field_value_shown slots name :
  (forall h, In h slots -> key h <> None -> value h <> None) ->
  shows_field slots name -> field_value slots name <> None.
Proof.
  intros Hvalues (h & Hin & Hkey). unfold field_value.
  destruct (find _ _) as [h'|] eqn:Hfind.
  - apply find_some in Hfind. destruct Hfind as [Hin' _].
    apply Hvalues; [|eapply shown_headers_keyed; eassumption].
    apply shown_headers_incl in Hin'. destruct slots; [destruct Hin'|right; assumption].
  - eapply find_none in Hfind; [|exact Hin]. cbn beta in Hfind.
    rewrite Hkey in Hfind. cbn [sv_bytes] in Hfind.
    assert (list_eqb name name = true) by (apply list_eqb_eq; reflexivity). congruence.
Qed.

Section AcceptedTurn.

Context `{BF : BloomFilter} `{CE : ChunkedEncoding}.
Variable handlers : Handlers.
Variable user : Z.

Variables (data : list Z) (consumed : nat) (slots : list Header) (buf : list Z).
Hypothesis Htokenized : getHeaders data = (consumed, slots, buf).
Hypothesis Hhead : consumed <> O.

(** The turn of a head that passes both checks, up to the answer of the
    request handler. *)
Lemma fence_loop_called fuel minimal ct rem tr :
  field_value slots host_name <> None ->
  sv_length (field_value slots transfer_encoding_name) = O
  \/ sv_length (field_value slots content_length_name) = O ->
  requestHandler handlers tr user slots (separator_of slots) <> user ->
  fence_loop handlers user (S fuel) minimal data ct rem tr
  = mkFenced (wrap32 (ct + Z.of_nat consumed))
             (requestHandler handlers tr user slots (separator_of slots))
             buf rem (tr ++ [Request slots (separator_of slots)]).
Proof.
  intros Hhost Hone Hanswer. cbn [fence_loop].
  rewrite (tokenized_nonempty data consumed slots buf Htokenized Hhead), Htokenized,
    (consumed_nonzero consumed Hhead).
  rewrite (getHeader_field_value slots host_name host_name_nonzero).
  destruct (field_value slots host_name) as [hv|]; [|contradiction]. cbn [sv_is_null].
  rewrite (getHeader_field_value slots _ transfer_encoding_name_nonzero).
  rewrite (getHeader_field_value slots _ content_length_name_nonzero).
  replace (negb (sv_length (field_value slots transfer_encoding_name) =? 0)%nat
           && negb (sv_length (field_value slots content_length_name) =? 0)%nat)
    with false
    by (destruct Hone as [-> | ->]; cbn; rewrite ?andb_false_r; reflexivity).
  fold (separator_of slots).
  apply Z.eqb_neq in Hanswer. rewrite Hanswer. reflexivity.
Qed.

(** The turn of a head without a body: lines 390-393. *)
Lemma fence_loop_no_body fuel minimal ct rem tr :
  field_value slots host_name <> None ->
  sv_length (field_value slots transfer_encoding_name) = O ->
  sv_length (field_value slots content_length_name) = O ->
  requestHandler handlers tr user slots (separator_of slots) = user ->
  fence_loop handlers user (S fuel) minimal data ct rem tr
  = let tr2 := tr ++ [Request slots (separator_of slots); Data [] true] in
    if minimal
    then mkFenced (wrap32 (ct + Z.of_nat consumed)) user buf rem tr2
    else prepend (firstn consumed buf)
           (fence_loop handlers user fuel minimal (skipn consumed buf)
                       (wrap32 (ct + Z.of_nat consumed)) rem tr2).
Proof.
  intros Hhost Hte Hcl Hanswer. cbn [fence_loop].
  rewrite (tokenized_nonempty data consumed slots buf Htokenized Hhead), Htokenized,
    (consumed_nonzero consumed Hhead).
  rewrite (getHeader_field_value slots host_name host_name_nonzero).
  destruct (field_value slots host_name) as [hv|]; [|contradiction]. cbn [sv_is_null].
  rewrite (getHeader_field_value slots _ transfer_encoding_name_nonzero).
  rewrite (getHeader_field_value slots _ content_length_name_nonzero).
  rewrite Hte, Hcl. cbn [Nat.eqb negb andb].
  fold (separator_of slots). rewrite Hanswer, Z.eqb_refl. cbn [negb].
  rewrite <- app_assoc. cbn [app]. destruct minimal; reflexivity.
Qed.

End AcceptedTurn.

(** ** Requests without a body *)

Lemma fence_loop_nil `{BF : BloomFilter} `{CE : ChunkedEncoding}
      handlers user fuel minimal ct rem tr :
  fence_loop handlers user fuel minimal [] ct rem tr = mkFenced ct user [] rem tr.
Proof. destruct fuel; reflexivity. Qed.

(** C8. For a tokenized head that shows a [host] header and holds neither a
    [transfer-encoding] nor a [content-length] header, once the request
    handler has answered [user] the data handler is called exactly once,
    with the empty chunk and [is_end = true], before the next head is
    looked at: the turn of the loop adds just these two calls, then ends
    (from the fallback buffer) or goes on with the bytes after the head; a
    call of [consumePostPadded] on an idle parser with this head alone makes
    the two calls and leaves the parser idle. *)
Theorem bodyless_request_ends_at_once `{BF : BloomFilter} `{CE : ChunkedEncoding}
        (handlers : Handlers) (user : Z)
        (data : list Z) (consumed : nat) (slots : list Header) (buf : list Z)
        (tr : list event) :
  getHeaders data = (consumed, slots, buf) ->
  consumed <> O ->
  shows_field slots host_name ->
  ~ has_field slots transfer_encoding_name ->
  ~ has_field slots content_length_name ->
  requestHandler handlers tr user slots (separator_of slots) = user ->
  let tr2 := tr ++ [Request slots (separator_of slots); Data [] true] in
  (forall fuel ct rem,
     fence_loop handlers user (S fuel) true data ct rem tr
     = mkFenced (wrap32 (ct + Z.of_nat consumed)) user buf rem tr2)
  /\ (forall fuel ct rem,
        fence_loop handlers user (S fuel) false data ct rem tr
        = prepend (firstn consumed buf)
            (fence_loop handlers user fuel false (skipn consumed buf)
                        (wrap32 (ct + Z.of_nat consumed)) rem tr2))
  /\ (consumed = List.length data ->
      Z.of_nat (List.length data) < 2 ^ 32 ->
      consumePostPadded handlers user idle tr data = mkConsumption user idle tr2).
Proof.
  intros Htok Hhead Hhost Hte Hcl Hanswer tr2.
  assert (Hhost' : field_value slots host_name <> None).
  { apply field_value_shown; [|assumption].
    intros h. eapply getHeaders_loop_values. exact Htok. }
  assert (Hte' : sv_length (field_value slots transfer_encoding_name) = O)
    by (rewrite field_value_absent by assumption; reflexivity).
  assert (Hcl' : sv_length (field_value slots content_length_name) = O)
    by (rewrite field_value_absent by assumption; reflexivity).
  assert (Hturn : forall fuel minimal ct rem,
             fence_loop handlers user (S fuel) minimal data ct rem tr
             = if minimal
               then mkFenced (wrap32 (ct + Z.of_nat consumed)) user buf rem tr2
               else prepend (firstn consumed buf)
                      (fence_loop handlers user fuel minimal (skipn consumed buf)
                                  (wrap32 (ct + Z.of_nat consumed)) rem tr2)).
  { intros. eapply fence_loop_no_body; eassumption. }
  split; [intros; apply (Hturn fuel true)|].
  split; [intros; apply (Hturn fuel false)|].
  intros Hall Hlen.
  destruct (getHeaders_extent _ _ _ _ Htok) as [Hbuf _].
  unfold consumePostPadded, idle. cbn [remainingStreamingBytes fallback].
  cbn [Z.eqb negb List.length Nat.eqb]. unfold consume_heads, fenceAndConsumePostPadded.
  rewrite (Hturn _ false).
  assert (Hskip : skipn consumed buf = []) by (apply skipn_all2; lia).
  rewrite Hskip, fence_loop_nil. unfold prepend.
  cbn [consumed_second consumed_first buffer remaining calls].
  rewrite Z.eqb_refl. cbn [negb]. rewrite app_nil_r.
  replace (Z.to_nat (wrap32 (0 + Z.of_nat consumed))) with consumed
    by (unfold wrap32; rewrite Z.mod_small by lia; lia).
  rewrite skipn_firstn_comm, Nat.sub_diag. cbn [firstn List.length Nat.eqb negb].
  reflexivity.
Qed.

(** Scenario S1 of the specification. *)
Definition simple_get : list Z :=
  line "GET /a?x=1 HTTP/1.1" ++ field "Host" "h" ++ CRLF.

Lemma bodyless_request_ends_at_once_witness :
  consumePostPadded willing a_user idle [] simple_get
  = mkConsumption a_user idle
      [Request (snd (fst (getHeaders simple_get))) 2; Data [] true].
Proof.
  refine (proj2 (proj2 (bodyless_request_ends_at_once willing a_user simple_get
                          _ _ _ [] eq_refl _ _ _ _ eq_refl)) eq_refl _).
  - discriminate.
  - exists (mkHeader (Some host_name) (Some [104])). split; [|reflexivity].
    cbn. left. reflexivity.
  - intros (h & Hin & Hkey). simpl in Hin.
    destruct Hin as [<-|[<-|[]]]; discriminate.
  - intros (h & Hin & Hkey). simpl in Hin.
    destruct Hin as [<-|[<-|[]]]; discriminate.
  - reflexivity.
Defined.

(** ** The calls made only grow *)

Section Calls.

Context `{BF : BloomFilter} `{CE : ChunkedEncoding}.
Variable handlers : Handlers.
Variable user : Z.

Lemma fence_loop_calls_extend fuel :
  forall minimal data ct rem tr,
    exists more, calls (fence_loop handlers user fuel minimal data ct rem tr) = tr ++ more.
Proof.
  induction fuel as [|fuel IH]; intros minimal data ct rem tr.
  - exists []. cbn. rewrite app_nil_r. reflexivity.
  - cbn [fence_loop].
    repeat match goal with
    | |- context [let '(_, _) := ?x in _] => destruct x
    | |- context [if ?b then _ else _] => destruct b
    end;
    cbn [calls prepend];
    try (exists []; rewrite app_nil_r; reflexivity);
    try (eexists; reflexivity);
    try (eexists; rewrite <- app_assoc; reflexivity);
    match goal with
    | |- context [fence_loop handlers user fuel ?m ?d ?c ?r ?t] =>
        destruct (IH m d c r t) as [more Hmore]; rewrite Hmore;
        eexists; rewrite <- !app_assoc; reflexivity
    end.
Qed.

End Calls.

(** ** A [host] header without a value *)

(** C10, as the code has it. For a tokenized head whose first shown [host]
    header has the empty value, [getHeader] returns for ["host"] a view that
    is not null and has length zero, so the head is not refused for a
    missing host; and unless the head is refused for bearing both a
    [transfer-encoding] and a [content-length] value, the request handler is
    called. *)
Theorem empty_host_accepted `{BF : BloomFilter} `{CE : ChunkedEncoding}
        (handlers : Handlers) (user : Z)
        (data : list Z) (consumed : nat) (slots : list Header) (buf : list Z)
        (h : Header) :
  getHeaders data = (consumed, slots, buf) ->
  consumed <> O ->
  find (fun x => list_eqb (sv_bytes (key x)) host_name) (shown_headers (tl slots)) = Some h ->
  sv_length (value h) = O ->
  getHeader (request_of slots) host_name = Some []
  /\ sv_is_null (getHeader (request_of slots) host_name) = false
  /\ (sv_length (field_value slots transfer_encoding_name) = O
      \/ sv_length (field_value slots content_length_name) = O ->
      forall fuel minimal ct rem tr,
      exists more,
        calls (fence_loop handlers user (S fuel) minimal data ct rem tr)
        = tr ++ Request slots (separator_of slots) :: more).
Proof.
  intros Htok Hhead Hfind Hempty.
  assert (Hvalue : field_value slots host_name = Some []).
  { unfold field_value. rewrite Hfind.
    pose proof Hfind as Hin. apply find_some in Hin. destruct Hin as [Hin _].
    assert (Hnn : value h <> None).
    { eapply getHeaders_loop_values; [exact Htok | |].
      - apply shown_headers_incl in Hin. destruct slots; [destruct Hin|right; assumption].
      - eapply shown_headers_keyed; eassumption. }
    destruct (value h) as [[|c v]|]; [reflexivity | discriminate | contradiction]. }
  rewrite (getHeader_field_value slots host_name host_name_nonzero), Hvalue.
  split; [reflexivity|]. split; [reflexivity|].
  intros Hone fuel minimal ct rem tr. cbn [fence_loop].
  rewrite (tokenized_nonempty data consumed slots buf Htok Hhead), Htok,
    (consumed_nonzero consumed Hhead).
  rewrite (getHeader_field_value slots host_name host_name_nonzero), Hvalue.
  cbn [sv_is_null].
  rewrite (getHeader_field_value slots _ transfer_encoding_name_nonzero).
  rewrite (getHeader_field_value slots _ content_length_name_nonzero).
  replace (negb (sv_length (field_value slots transfer_encoding_name) =? 0)%nat
           && negb (sv_length (field_value slots content_length_name) =? 0)%nat)
    with false
    by (destruct Hone as [-> | ->]; cbn; rewrite ?andb_false_r; reflexivity).
  fold (separator_of slots).
  repeat match goal with
  | |- context [let '(_, _) := ?x in _] => destruct x
  | |- context [if ?b then _ else _] => destruct b
  end;
  cbn [calls prepend];
  try (eexists; cbn [app]; rewrite <- ?app_assoc; reflexivity);
  match goal with
  | |- context [fence_loop handlers user fuel ?m ?d ?c ?r ?t] =>
      destruct (fence_loop_calls_extend handlers user fuel m d c r t) as [more Hmore];
      rewrite Hmore; eexists; rewrite <- !app_assoc; reflexivity
  end.
Qed.

Definition empty_host_head : list Z :=
  line "GET /a HTTP/1.1" ++ line "Host:" ++ CRLF.

Lemma empty_host_accepted_witness :
  getHeader (request_of (snd (fst (getHeaders empty_host_head)))) host_name = Some []
  /\ made (consumePostPadded willing a_user idle [] empty_host_head)
     = [Request (snd (fst (getHeaders empty_host_head))) 11; Data [] true].
Proof.
  split.
  - refine (proj1 (empty_host_accepted willing a_user empty_host_head
                     _ _ _ _ eq_refl _ eq_refl eq_refl)).
    discriminate.
  - reflexivity.
Defined.

(** A head with an empty [host] value that bears both lengths is refused
    without a call; and after [Host: a] a second, empty [host] header is not
    the one [getHeader] returns. *)
Definition empty_host_conflict : list Z :=
  line "POST /u HTTP/1.1" ++ line "Host:" ++ field "Content-Length" "3"
  ++ field "Transfer-Encoding" "chunked" ++ CRLF.

Definition second_host_empty : list Z :=
  line "GET /a HTTP/1.1" ++ field "Host" "a" ++ line "Host:" ++ CRLF.

Lemma empty_host_not_always_served :
  (fst (fst (getHeaders empty_host_conflict)) = List.length empty_host_conflict
   /\ In (mkHeader (Some host_name) (Some []))
         (tl (snd (fst (getHeaders empty_host_conflict))))
   /\ returned (consumePostPadded willing a_user idle [] empty_host_conflict) = FULLPTR
   /\ made (consumePostPadded willing a_user idle [] empty_host_conflict) = [])
  /\ (fst (fst (getHeaders second_host_empty)) = List.length second_host_empty
      /\ In (mkHeader (Some host_name) (Some []))
            (tl (snd (fst (getHeaders second_host_empty))))
      /\ getHeader (request_of (snd (fst (getHeaders second_host_empty)))) host_name
         = Some [97]).
Proof.
  split.
  - split; [reflexivity|]. split; [vm_compute; tauto|]. split; reflexivity.
  - split; [reflexivity|]. split; [vm_compute; tauto|]. reflexivity.
Qed.

(** ** Tokenizing a head as it is sent *)

Lemma firstn_length_app {A} (a b : list A) : firstn (List.length a) (a ++ b) = a.
Proof. induction a as [|x a IH]; simpl; [destruct b|rewrite IH]; reflexivity. Qed.

Lemma skipn_length_app {A} (a b : list A) : skipn (List.length a) (a ++ b) = b.
Proof. induction a as [|x a IH]; simpl; auto. Qed.

Lemma key_scan_name name c t :
  name_ok name -> c = COLON \/ c <= 32 ->
  key_scan (name ++ c :: t) = List.length name.
Proof.
  intros Hname Hc. induction Hname as [|x name [Hx1 Hx2] _ IH]; simpl.
  - destruct Hc as [->|Hc]; [reflexivity|].
    destruct (Z.ltb_spec 32 c); [lia|]. rewrite andb_false_r. reflexivity.
  - destruct (Z.eqb_spec x COLON); [contradiction|].
    destruct (Z.ltb_spec 32 x); [|lia]. simpl. rewrite IH. reflexivity.
Qed.

Lemma value_skip_skipped sp v t :
  skipped_ok sp -> value_ok v ->
  value_skip (sp ++ v ++ CR :: t) = List.length sp.
Proof.
  intros Hsp [_ Hv]. induction Hsp as [|x sp [Hx1 Hx2] _ IH]; simpl.
  - destruct v as [|c v]; simpl.
    + reflexivity.
    + destruct Hv as [Hc1 Hc2].
      destruct (Z.eqb_spec c COLON); [contradiction|].
      destruct (Z.ltb_spec c 33); [lia|]. reflexivity.
  - destruct (Z.eqb_spec x CR); [contradiction|].
    replace ((x =? COLON) || (x <? 33)) with true.
    + simpl. rewrite IH. reflexivity.
    + symmetry. apply orb_true_iff.
      destruct Hx1 as [->|Hx1]; [left; reflexivity | right; apply Z.ltb_lt; assumption].
Qed.

Lemma first_cr_value v t : ~ In CR v -> first_cr (v ++ CR :: t) = Some (List.length v).
Proof.
  intros Hv. rewrite first_cr_skip_word by assumption. simpl.
  rewrite Nat.add_0_r. reflexivity.
Qed.

(** One request line or header field: a name, the byte that ends it, the
    bytes passed before the value, the value, and the line end. *)
Lemma getHeaders_loop_entry n i off name c sp v tail :
  name_ok name -> c = COLON \/ c <= 32 -> c <> CR ->
  skipped_ok sp -> value_ok v -> bytes_ok (v ++ CRLF ++ tail) ->
  getHeaders_loop (S n) i off (name ++ c :: sp ++ v ++ CRLF ++ tail)
  = let '(ret, slots, rest) :=
      getHeaders_loop n (S i)
        (off + List.length name + 1 + List.length sp + List.length v + 2)%nat tail in
    (ret, mkHeader (Some (map lower name)) (Some v) :: slots,
     map lower name ++ c :: sp ++ v ++ CRLF ++ rest).
Proof.
  intros Hname Hc Hcr Hsp Hv Hok. cbn [getHeaders_loop].
  rewrite key_scan_name, firstn_length_app, skipn_length_app by assumption.
  destruct (Z.eqb_spec c CR); [contradiction|].
  change (CRLF ++ tail) with (CR :: LF :: tail) in *.
  rewrite value_skip_skipped, firstn_length_app, skipn_length_app by assumption.
  rewrite (memchr_r_scan _ Hok).
  rewrite first_cr_value by (destruct Hv; assumption).
  replace (nth (S (List.length v)) (v ++ CR :: LF :: tail) CR) with LF.
  2:{ rewrite app_nth2 by lia.
      replace (S (List.length v) - List.length v)%nat with 1%nat by lia. reflexivity. }
  cbn [Z.eqb LF Pos.eqb].
  replace (skipn (List.length v + 2) (v ++ CR :: LF :: tail)) with tail.
  2:{ rewrite skipn_app, skipn_all2 by lia.
      replace (List.length v + 2 - List.length v)%nat with 2%nat by lia. reflexivity. }
  replace (firstn (List.length v + 2) (v ++ CR :: LF :: tail)) with (v ++ [CR; LF]).
  2:{ rewrite firstn_app, firstn_all2 by lia.
      replace (List.length v + 2 - List.length v)%nat with 2%nat by lia. reflexivity. }
  rewrite (firstn_length_app v).
  destruct (getHeaders_loop n (S i) _ tail) as [[ret slots] rest].
  rewrite <- app_assoc. reflexivity.
Qed.

(** The blank line after at least one entry. *)
Lemma getHeaders_loop_end n i off tail :
  (0 < i)%nat ->
  getHeaders_loop (S n) i off (CRLF ++ tail)
  = ((off + 2)%nat, [mkHeader None None], CRLF ++ tail).
Proof.
  intros Hi. cbn. destruct i; [lia|]. rewrite Nat.add_0_r. reflexivity.
Qed.

Lemma field_bytes_app f tail :
  field_bytes f ++ tail = fst f ++ COLON :: [32] ++ snd f ++ CRLF ++ tail.
Proof.
  unfold field_bytes. repeat (first [rewrite <- app_assoc | progress cbn [app]]).
  reflexivity.
Qed.

Lemma bytes_ok_tail a b : bytes_ok (a ++ b) -> bytes_ok b.
Proof. intros H. apply Forall_app in H. tauto. Qed.

Lemma getHeaders_loop_fields fields :
  forall n i off rest,
    fields_ok fields ->
    bytes_ok (concat (map field_bytes fields) ++ CRLF ++ rest) ->
    (0 < i)%nat ->
    ((List.length fields < n)%nat ->
     getHeaders_loop n i off (concat (map field_bytes fields) ++ CRLF ++ rest)
     = ((off + List.length (concat (map field_bytes fields)) + 2)%nat,
        map field_slot fields ++ [mkHeader None None],
        concat (map field_bytes (lowered fields)) ++ CRLF ++ rest))
    /\ ((n <= List.length fields)%nat ->
        fst (fst (getHeaders_loop n i off
                    (concat (map field_bytes fields) ++ CRLF ++ rest))) = O).
Proof.
  induction fields as [|f fields IH]; intros n i off rest Hfields Hok Hi.
  - cbn [map concat List.length app]. split; intros Hn.
    + destruct n as [|n]; [lia|]. change (CR :: LF :: rest) with (CRLF ++ rest).
      rewrite getHeaders_loop_end by assumption. rewrite Nat.add_0_r. reflexivity.
    + destruct n; [reflexivity | lia].
  - destruct n as [|n]; [split; [cbn [List.length]; lia | reflexivity]|].
    inversion Hfields as [|? ? [Hname Hvalue] Hrest]; subst.
    cbn [map concat lowered]. fold (lowered fields).
    rewrite <- !app_assoc, !field_bytes_app. cbn [fst snd].
    cbn [map concat] in Hok. rewrite <- app_assoc, field_bytes_app in Hok.
    assert (Hok' : bytes_ok (snd f ++ CRLF ++ concat (map field_bytes fields) ++ CRLF ++ rest)).
    { apply bytes_ok_tail in Hok. inversion Hok as [|? ? _ Hok1]; subst.
      apply (bytes_ok_tail [32]) in Hok1. exact Hok1. }
    assert (Hok'' : bytes_ok (concat (map field_bytes fields) ++ CRLF ++ rest)).
    { apply bytes_ok_tail in Hok'. apply (bytes_ok_tail CRLF) in Hok'. exact Hok'. }
    rewrite (getHeaders_loop_entry n i off (fst f) COLON [32] (snd f)
               (concat (map field_bytes fields) ++ CRLF ++ rest));
      [ | assumption | left; reflexivity | discriminate
        | constructor; [split; [right; lia | discriminate] | constructor]
        | assumption | assumption ].
    destruct (IH n (S i)
                (off + List.length (fst f) + 1 + List.length [32%Z] + List.length (snd f) + 2)%nat
                rest Hrest Hok'' ltac:(lia)) as [IH1 IH2].
    split; intros Hn; cbn [List.length] in Hn.
    + rewrite IH1 by lia. f_equal. f_equal.
      unfold CRLF. repeat (first [rewrite length_app | progress cbn [List.length]]). lia.
    + specialize (IH2 ltac:(lia)).
      destruct (getHeaders_loop n (S i) _ _) as [[ret slots] rest'].
      exact IH2.
Qed.

(** C7, as the code has it. A head as it is sent, request line and [n]
    header fields, is tokenized when [n <= 48], that is with up to 49
    header-table entries, the request line in slot 0 counted among them (the
    fiftieth slot takes the empty key that ends the table): [getHeaders]
    returns its length and writes the expected table.  For every such head
    with more header fields, [getHeaders] returns zero. *)
Theorem header_table_capacity (method target : list Z)
        (fields : list (list Z * list Z)) (rest : list Z) :
  name_ok method -> value_ok target -> fields_ok fields ->
  bytes_ok (head_bytes method target fields ++ rest) ->
  ((List.length fields <= 48)%nat ->
   getHeaders (head_bytes method target fields ++ rest)
   = (List.length (head_bytes method target fields),
      head_slots method target fields,
      head_bytes (map lower method) target (lowered fields) ++ rest))
  /\ ((49 <= List.length fields)%nat ->
      fst (fst (getHeaders (head_bytes method target fields ++ rest))) = O).
Proof.
  intros Hmethod Htarget Hfields Hok.
  unfold getHeaders, MAX_HEADERS, head_bytes in *.
  rewrite <- !app_assoc in *. cbn [app] in *.
  assert (Hok' : bytes_ok (target ++ CRLF ++ concat (map field_bytes fields) ++ CRLF ++ rest)).
  { apply Forall_app in Hok. destruct Hok as [_ Hok]. inversion Hok; subst. assumption. }
  assert (Hok'' : bytes_ok (concat (map field_bytes fields) ++ CRLF ++ rest)).
  { apply Forall_app in Hok'. destruct Hok' as [_ Hok'].
    cbn [app CRLF] in Hok'. inversion Hok' as [|? ? _ Hok1]; subst.
    inversion Hok1; subst. assumption. }
  pose proof (getHeaders_loop_entry 49 0 0 method 32 [] target
                (concat (map field_bytes fields) ++ CRLF ++ rest)) as Hentry.
  cbn [app] in Hentry. rewrite Hentry; clear Hentry; try assumption.
  2:{ right; lia. }
  2:{ discriminate. }
  2:{ constructor. }
  set (off' := (0 + List.length method + 1 + List.length (@nil Z) + List.length target + 2)%nat).
  destruct (getHeaders_loop_fields fields 49 1 off' rest Hfields Hok'' ltac:(lia))
    as [H1 H2].
  split; intros Hn.
  - subst off'. rewrite H1 by lia. unfold head_slots. f_equal. f_equal.
    unfold CRLF. repeat (first [rewrite length_app | progress cbn [List.length]]). lia.
  - specialize (H2 Hn). subst off'.
    destruct (getHeaders_loop 49 1 _ _) as [[ret slots] rest'].
    exact H2.
Qed.

Ltac each_byte :=
  apply Forall_forall;
  let c := fresh "c" in
  let Hc := fresh "Hc" in
  intros c Hc; vm_compute in Hc;
  repeat (destruct Hc as [Hc|Hc]; [subst c; vm_compute; intuition (discriminate || congruence)|]);
  destruct Hc.

Lemma header_table_capacity_witness :
  let method := bytes_of "GET" in
  let target := bytes_of "/a HTTP/1.1" in
  let fields := [(bytes_of "Host", bytes_of "h")] in
  getHeaders (head_bytes method target fields ++ [])
  = (List.length (head_bytes method target fields),
     head_slots method target fields,
     head_bytes (map lower method) target (lowered fields) ++ []).
Proof.
  cbv zeta.
  refine (proj1 (header_table_capacity (bytes_of "GET") (bytes_of "/a HTTP/1.1")
                   [(bytes_of "Host", bytes_of "h")] [] _ _ _ _) _).
  - each_byte.
  - split; [vm_compute; intuition discriminate | vm_compute; intuition discriminate].
  - constructor; [|constructor]. split; [each_byte|].
    split; [vm_compute; intuition discriminate | vm_compute; intuition discriminate].
  - apply bytes_okb_ok. reflexivity.
  - cbn. lia.
Defined.

(** A request line and 49 header fields make 50 entries: the blank line
    would be the 51st turn of the loop, and [getHeaders] returns zero.  With
    48 header fields the head is tokenized. *)
Definition crowded_head (n : nat) : list Z :=
  head_bytes (bytes_of "GET") (bytes_of "/ HTTP/1.1")
             (repeat (bytes_of "a", bytes_of "b") n).

Lemma fifty_entries_refused :
  (1 + List.length (repeat (bytes_of "a", bytes_of "b") 49) = 50)%nat
  /\ fst (fst (getHeaders (crowded_head 49))) = O
  /\ fst (fst (getHeaders (crowded_head 48))) = List.length (crowded_head 48).
Proof. split; [reflexivity|]. split; vm_compute; reflexivity. Qed.

(** ** Body under way or head buffered, never both *)

Lemma decimal_value_nonneg s acc :
  forallb is_digit s = true -> 0 <= acc ->
  0 <= fold_left (fun a c => a * 10 + (c - 48)) s acc.
Proof.
  revert acc. induction s as [|c s IH]; simpl; intros acc Hd Hacc; [assumption|].
  apply andb_true_iff in Hd. destruct Hd as [Hc Hs]. apply is_digit_range in Hc.
  apply IH; [assumption | lia].
Qed.

Lemma toUnsignedInteger_nonneg s : 0 <= toUnsignedInteger s.
Proof.
  rewrite toUnsignedInteger_cases.
  destruct ((List.length s <=? 9)%nat && forallb is_digit s) eqn:H;
    [|unfold UINT_MAX; lia].
  apply andb_true_iff in H. destruct H as [_ H].
  apply decimal_value_nonneg; [assumption | lia].
Qed.

Section Exclusion.

Context `{BF : BloomFilter} `{CE : ChunkedEncoding}.
Variable handlers : Handlers.
Variable user : Z.
Hypothesis Huser : user <> FULLPTR.
Hypothesis Hdrains : decoder_drains.

(** The loop of [fenceAndConsumePostPadded<false>] returns [user] with all
    it was given consumed whenever it leaves a body under way. *)
Lemma fence_false_shape fuel :
  forall data ct rem tr,
    (List.length data < fuel)%nat ->
    rem = 0 \/ data = [] ->
    0 <= ct -> ct + Z.of_nat (List.length data) < 2 ^ 32 ->
    let r := fence_loop handlers user fuel false data ct rem tr in
    List.length (buffer r) = List.length data
    /\ (consumed_second r = user ->
        exists k, (k <= List.length data)%nat
                  /\ consumed_first r = ct + Z.of_nat k
                  /\ (remaining r <> 0 -> k = List.length data)).
Proof.
  induction fuel as [|fuel IH]; intros data ct rem tr Hfuel Hrem Hct Hbound; [lia|].
  cbn [fence_loop].
  destruct (List.length data =? 0)%nat eqn:Hnil.
  { cbn. split; [reflexivity|]. intros _. exists O. apply Nat.eqb_eq in Hnil.
    repeat split; [lia | lia | intros; lia]. }
  apply Nat.eqb_neq in Hnil.
  assert (Hrem0 : rem = 0).
  { destruct Hrem as [H0|H0]; [assumption | subst data; cbn in Hnil; contradiction]. }
  destruct (getHeaders data) as [[consumed slots] buf] eqn:Htok.
  destruct (getHeaders_extent _ _ _ _ Htok) as [Hbuf Hcons].
  destruct (consumed =? 0)%nat eqn:Hzero.
  { cbn. split; [assumption|]. intros _. exists O.
    repeat split; [lia | lia | intros; contradiction]. }
  apply Nat.eqb_neq in Hzero.
  destruct (sv_is_null _).
  { cbn. split; [assumption|]. intros Heq. symmetry in Heq. contradiction. }
  destruct (negb _ && negb _).
  { cbn. split; [assumption|]. intros Heq. symmetry in Heq. contradiction. }
  destruct (negb (requestHandler _ _ _ _ _ =? user)) eqn:Hanswer.
  { cbn. split; [assumption|]. intros Heq.
    apply negb_true_iff, Z.eqb_neq in Hanswer. contradiction. }
  assert (Hhead : List.length (firstn consumed buf) = consumed)
    by (rewrite length_firstn; lia).
  assert (Hdata1 : List.length (skipn consumed buf) = (List.length data - consumed)%nat)
    by (rewrite length_skipn; lia).
  assert (Hct1 : wrap32 (ct + Z.of_nat consumed) = ct + Z.of_nat consumed)
    by (unfold wrap32; rewrite Z.mod_small; lia).
  rewrite Hct1.
  set (data1 := skipn consumed buf) in *.
  destruct (negb (sv_length (getHeader _ transfer_encoding_name) =? 0)%nat).
  { (* chunked *)
    pose proof (Hdrains data1 STATE_IS_CHUNKED) as Hd.
    destruct (ChunkIterator data1 STATE_IS_CHUNKED) as [[chunks taken] state].
    destruct Hd as [Htaken Hall].
    destruct (isParsingInvalidChunkedEncoding state) eqn:Hinvalid.
    { cbn. split; [assumption|]. intros Heq. symmetry in Heq. contradiction. }
    assert (Hrest : List.length (skipn taken data1) = (List.length data1 - taken)%nat)
      by apply length_skipn.
    assert (Hc' : wrap32 (Z.of_nat (List.length data1) - Z.of_nat (List.length (skipn taken data1)))
                  = Z.of_nat taken)
      by (unfold wrap32; rewrite Z.mod_small; lia).
    rewrite Hc'.
    assert (Hct2 : wrap32 (ct + Z.of_nat consumed + Z.of_nat taken)
                   = ct + Z.of_nat consumed + Z.of_nat taken)
      by (unfold wrap32; rewrite Z.mod_small; lia).
    rewrite Hct2.
    edestruct (IH (skipn taken data1) (ct + Z.of_nat consumed + Z.of_nat taken) state
                  (tr ++ [Request slots (query_separator (sv_bytes (value (hd (mkHeader None None) slots))))]
                      ++ chunk_events chunks)) as [IHlen IHk].
    - lia.
    - destruct (Z.eq_dec state 0) as [|Hs]; [left; assumption|].
      right. apply length_zero_iff_nil. rewrite Hrest, (Hall Hs eq_refl). lia.
    - lia.
    - lia.
    - rewrite app_assoc in IHlen, IHk. cbn [prepend buffer consumed_second consumed_first remaining].
      split.
      + rewrite !length_app, IHlen, Hhead, length_firstn. lia.
      + intros Heq. destruct (IHk Heq) as (k & Hk1 & Hk2 & Hk3).
        exists (consumed + taken + k)%nat. repeat split; [lia | lia |].
        intros Hr. specialize (Hk3 Hr). lia. }
  destruct (negb (sv_length (getHeader _ content_length_name) =? 0)%nat).
  { (* fixed length *)
    set (declared := toUnsignedInteger _).
    assert (Hdecl : 0 <= declared) by apply toUnsignedInteger_nonneg.
    destruct (declared =? UINT_MAX).
    { cbn. split; [assumption|]. intros Heq. symmetry in Heq. contradiction. }
    set (emittable := Z.min declared (Z.of_nat (List.length data1))).
    assert (Hem : 0 <= emittable <= Z.of_nat (List.length data1)) by (unfold emittable; lia).
    assert (Hrest : List.length (skipn (Z.to_nat emittable) data1)
                    = (List.length data1 - Z.to_nat emittable)%nat)
      by apply length_skipn.
    assert (Hct2 : wrap32 (ct + Z.of_nat consumed + emittable)
                   = ct + Z.of_nat consumed + emittable)
      by (unfold wrap32; rewrite Z.mod_small; lia).
    rewrite Hct2.
    edestruct (IH (skipn (Z.to_nat emittable) data1) (ct + Z.of_nat consumed + emittable)
                  (wrap32 (declared - emittable))) as [IHlen IHk].
    - lia.
    - destruct (Z.le_gt_cases declared (Z.of_nat (List.length data1))) as [Hle|Hgt].
      + left. unfold emittable. rewrite Z.min_l by assumption.
        rewrite Z.sub_diag. reflexivity.
      + right. apply length_zero_iff_nil. rewrite Hrest. unfold emittable.
        rewrite Z.min_r by lia. lia.
    - lia.
    - lia.
    - cbn [prepend buffer consumed_second consumed_first remaining].
      split.
      + rewrite !length_app, IHlen, Hhead, length_firstn. lia.
      + intros Heq. destruct (IHk Heq) as (k & Hk1 & Hk2 & Hk3).
        exists (consumed + Z.to_nat emittable + k)%nat. repeat split; [lia | lia |].
        intros Hr. specialize (Hk3 Hr). lia. }
  (* no body *)
  edestruct (IH data1 (ct + Z.of_nat consumed) rem) as [IHlen IHk].
  - lia.
  - left. assumption.
  - lia.
  - lia.
  - cbn [prepend buffer consumed_second consumed_first remaining].
    split.
    + rewrite !length_app, IHlen, Hhead. lia.
    + intros Heq. destruct (IHk Heq) as (k & Hk1 & Hk2 & Hk3).
      exists (consumed + k)%nat. repeat split; [lia | lia |].
      intros Hr. specialize (Hk3 Hr). lia.
Qed.

(** One head from the fallback buffer: a failure, no body left under way, or
    a head consumed. *)
Lemma fence_true_shape fuel data tr :
  Z.of_nat (List.length data) < 2 ^ 32 ->
  let r := fence_loop handlers user (S fuel) true data 0 0 tr in
  List.length (buffer r) = List.length data
  /\ (consumed_second r = FULLPTR
      \/ remaining r = 0
      \/ (consumed_second r = user /\ consumed_first r <> 0)).
Proof.
  intros Hbound. cbn [fence_loop].
  destruct (List.length data =? 0)%nat; [cbn; auto|].
  destruct (getHeaders data) as [[consumed slots] buf] eqn:Htok.
  destruct (getHeaders_extent _ _ _ _ Htok) as [Hbuf Hcons].
  destruct (consumed =? 0)%nat eqn:Hzero; [cbn; auto|].
  apply Nat.eqb_neq in Hzero.
  assert (Hct1 : wrap32 (0 + Z.of_nat consumed) <> 0)
    by (unfold wrap32; rewrite Z.mod_small; lia).
  destruct (sv_is_null _); [cbn; auto|].
  destruct (negb _ && negb _); [cbn; auto|].
  destruct (negb (requestHandler _ _ _ _ _ =? user)); [cbn; auto|].
  destruct (negb (sv_length (getHeader _ transfer_encoding_name) =? 0)%nat); [cbn; auto|].
  destruct (negb (sv_length (getHeader _ content_length_name) =? 0)%nat); [|cbn; auto].
  destruct (toUnsignedInteger _ =? UINT_MAX); cbn; auto.
Qed.

Lemma nothing_buffered ret rem tr :
  (remainingStreamingBytes (parser (mkConsumption ret (mkParser [] rem) tr)) = 0
   \/ fallback (parser (mkConsumption ret (mkParser [] rem) tr)) = [])
  /\ Z.of_nat (List.length (fallback (parser (mkConsumption ret (mkParser [] rem) tr))))
     <= MAX_FALLBACK_SIZE.
Proof. split; [right; reflexivity | cbn; unfold MAX_FALLBACK_SIZE; lia]. Qed.

Lemma consume_heads_exclusive data rem tr :
  rem = 0 \/ data = [] ->
  Z.of_nat (List.length data) < 2 ^ 32 ->
  let c := consume_heads handlers user [] data rem tr in
  returned c <> FULLPTR ->
  (remainingStreamingBytes (parser c) = 0 \/ fallback (parser c) = [])
  /\ Z.of_nat (List.length (fallback (parser c))) <= MAX_FALLBACK_SIZE.
Proof.
  intros Hrem Hbound. unfold consume_heads, fenceAndConsumePostPadded.
  destruct (fence_false_shape (S (List.length data)) data 0 rem tr
              ltac:(lia) Hrem ltac:(lia) ltac:(lia)) as [Hlen Hk].
  set (r := fence_loop handlers user (S (List.length data)) false data 0 rem tr) in *.
  destruct (negb (consumed_second r =? user)) eqn:Hsecond.
  { intros _. apply nothing_buffered. }
  apply negb_false_iff, Z.eqb_eq in Hsecond.
  destruct (Hk Hsecond) as (k & Hk1 & Hk2 & Hk3).
  rewrite Hk2. replace (Z.to_nat (0 + Z.of_nat k)) with k by lia.
  destruct (negb (List.length (skipn k (buffer r)) =? 0)%nat) eqn:Hrest.
  - apply negb_true_iff, Nat.eqb_neq in Hrest.
    destruct (Z.of_nat (List.length (skipn k (buffer r))) <? MAX_FALLBACK_SIZE) eqn:Hfits.
    + cbn [returned parser fallback remainingStreamingBytes app]. intros _.
      apply Z.ltb_lt in Hfits. split; [|lia].
      left. destruct (Z.eq_dec (remaining r) 0) as [|Hnz]; [assumption|].
      specialize (Hk3 Hnz). rewrite length_skipn in Hrest. lia.
    + intros _. apply nothing_buffered.
  - intros _. apply nothing_buffered.
Qed.

Lemma consume_body_exclusive data rem tr :
  Z.of_nat (List.length data) < 2 ^ 32 ->
  let c := consume_body handlers user [] data rem tr in
  returned c <> FULLPTR ->
  (remainingStreamingBytes (parser c) = 0 \/ fallback (parser c) = [])
  /\ Z.of_nat (List.length (fallback (parser c))) <= MAX_FALLBACK_SIZE.
Proof.
  intros Hbound. unfold consume_body.
  destruct (isParsingChunkedEncoding rem).
  - pose proof (Hdrains data rem) as Hd.
    destruct (ChunkIterator data rem) as [[chunks taken] state].
    destruct Hd as [Htaken Hall].
    destruct (isParsingInvalidChunkedEncoding state) eqn:Hinvalid.
    { cbn [returned]. intros H. contradiction. }
    apply consume_heads_exclusive.
    + destruct (Z.eq_dec state 0) as [|Hs]; [left; assumption|].
      right. apply length_zero_iff_nil. rewrite length_skipn, (Hall Hs eq_refl). lia.
    + rewrite length_skipn. lia.
  - destruct (Z.of_nat (List.length data) <=? rem).
    { intros _. apply nothing_buffered. }
    destruct (negb (dataHandler _ _ _ _ _ =? user)).
    { intros _. apply nothing_buffered. }
    apply consume_heads_exclusive; [left; reflexivity|].
    rewrite length_skipn. lia.
Qed.

End Exclusion.

(** C5, as the code has it. Let the parser hold a body under way or a
    buffered partial head, not both, the fallback buffer within its
    capacity; let [user] not be the error sentinel and the chunked decoder
    take all of its input while a chunked body is under way.  Then after
    every call of [consumePostPadded] that does not return the error
    sentinel the same holds again. *)
Theorem body_or_fallback_exclusive `{BF : BloomFilter} `{CE : ChunkedEncoding}
        (handlers : Handlers) (user : Z) (p : HttpParser) (tr : list event)
        (data : list Z) :
  user <> FULLPTR ->
  decoder_drains ->
  Z.of_nat (List.length data) < 2 ^ 32 ->
  remainingStreamingBytes p = 0 \/ fallback p = [] ->
  Z.of_nat (List.length (fallback p)) <= MAX_FALLBACK_SIZE ->
  let c := consumePostPadded handlers user p tr data in
  returned c <> FULLPTR ->
  (remainingStreamingBytes (parser c) = 0 \/ fallback (parser c) = [])
  /\ Z.of_nat (List.length (fallback (parser c))) <= MAX_FALLBACK_SIZE.
Proof.
  intros Huser Hdrains Hbound Hexcl Hcap. unfold consumePostPadded. cbv zeta.
  destruct (negb (remainingStreamingBytes p =? 0)) eqn:Hrem.
  { apply negb_true_iff, Z.eqb_neq in Hrem.
    destruct Hexcl as [|Hfb]; [contradiction|]. rewrite Hfb.
    apply consume_body_exclusive; assumption. }
  apply negb_false_iff, Z.eqb_eq in Hrem. rewrite Hrem.
  destruct (negb (List.length (fallback p) =? 0)%nat) eqn:Hfb.
  2:{ apply negb_false_iff, Nat.eqb_eq, length_zero_iff_nil in Hfb. rewrite Hfb.
      exact (consume_heads_exclusive handlers user Huser Hdrains data 0 tr
               (or_introl eq_refl) Hbound). }
  set (had := Z.of_nat (List.length (fallback p))) in *.
  set (maxCopyDistance := Z.min (wrap64 (MAX_FALLBACK_SIZE - had))
                                (Z.of_nat (List.length data))).
  set (fallback1 := fallback p ++ firstn (Z.to_nat maxCopyDistance) data).
  assert (Hlen1 : Z.of_nat (List.length fallback1) <= MAX_FALLBACK_SIZE).
  { unfold fallback1. rewrite length_app, length_firstn.
    unfold maxCopyDistance, wrap64, MAX_FALLBACK_SIZE in *.
    rewrite Z.mod_small by lia. fold had. lia. }
  unfold fenceAndConsumePostPadded.
  destruct (fence_true_shape handlers user (List.length fallback1) fallback1 tr)
    as [Hbuf Hshape].
  { unfold MAX_FALLBACK_SIZE in Hlen1. lia. }
  set (r := fence_loop handlers user (S (List.length fallback1)) true fallback1 0 0 tr) in *.
  destruct (negb (consumed_second r =? user)) eqn:Hsecond.
  { apply negb_true_iff, Z.eqb_neq in Hsecond.
    cbn [returned parser fallback remainingStreamingBytes]. intros Hret. 
    split; [|rewrite Hbuf; assumption].
    left. destruct Hshape as [H|[H|[H _]]]; [contradiction | assumption | contradiction]. }
  apply negb_false_iff, Z.eqb_eq in Hsecond.
  destruct (negb (consumed_first r =? 0)) eqn:Hfirst.
  - assert (Hdata1 : Z.of_nat (List.length (skipn (Z.to_nat (wrap32 (consumed_first r - had))) data))
                     < 2 ^ 32) by (rewrite length_skipn; lia).
    destruct (negb (remaining r =? 0)) eqn:Hremaining.
    + apply consume_body_exclusive; assumption.
    + apply negb_false_iff, Z.eqb_eq in Hremaining. rewrite Hremaining.
      exact (consume_heads_exclusive handlers user Huser Hdrains _ 0 _
               (or_introl eq_refl) Hdata1).
  - apply negb_false_iff, Z.eqb_eq in Hfirst.
    assert (Hzero : remaining r = 0).
    { destruct Hshape as [H|[H|[_ H]]]; [congruence | assumption | contradiction]. }
    destruct (Z.of_nat (List.length (buffer r)) =? MAX_FALLBACK_SIZE);
      cbn [returned parser fallback remainingStreamingBytes]; intros _;
      (split; [left; assumption | rewrite Hbuf; assumption]).
Qed.

Lemma absent_chunked_drains : @decoder_drains absent_chunked.
Proof. intros data state. cbn. split; [lia | reflexivity]. Defined.

(** Scenario S2 of the specification, cut after ten bytes. *)
Definition upload_request : list Z :=
  line "POST /u HTTP/1.1" ++ field "Host" "h" ++ field "Content-Length" "5" ++ CRLF
  ++ bytes_of "hello".

Lemma body_or_fallback_exclusive_witness :
  let c := consumePostPadded willing a_user idle [] (firstn 10 upload_request) in
  (remainingStreamingBytes (parser c) = 0 \/ fallback (parser c) = [])
  /\ Z.of_nat (List.length (fallback (parser c))) <= MAX_FALLBACK_SIZE.
Proof.
  refine (body_or_fallback_exclusive willing a_user idle [] (firstn 10 upload_request)
            _ absent_chunked_drains _ _ _ _).
  - discriminate.
  - reflexivity.
  - left. reflexivity.
  - discriminate.
  - discriminate.
Defined.

(** A head with a [content-length] that is no number, completed in the
    fallback buffer: line 375 stores [UINT_MAX] in
    [remainingStreamingBytes], line 378 returns the error sentinel, and the
    fallback buffer keeps the head. *)
Definition unreadable_length : list Z :=
  line "POST /u HTTP/1.1" ++ field "Host" "h" ++ field "Content-Length" "x" ++ CRLF.

Lemma refused_head_leaves_both :
  let p := parser (consumePostPadded willing a_user idle [] (firstn 10 unreadable_length)) in
  let c := consumePostPadded willing a_user p [] (skipn 10 unreadable_length) in
  (remainingStreamingBytes p = 0 /\ List.length (fallback p) = 10%nat)
  /\ returned c = FULLPTR
  /\ remainingStreamingBytes (parser c) = UINT_MAX
  /\ List.length (fallback (parser c)) = 48%nat.
Proof. vm_compute. repeat split; reflexivity. Qed.

(** ** A declared length of zero *)

Definition empty_upload : list Z :=
  line "POST /u HTTP/1.1" ++ field "Host" "h" ++ field "Content-Length" "0" ++ CRLF.

(** C4 at a head that declares [content-length: 0].  Handed over whole, the
    request gets its one data call, empty and with [is_end = true] (line
    383).  Cut after ten bytes, the head is completed in the fallback
    buffer: line 381 skips the data call, line 468 finds no body under way,
    and the request never gets a call with [is_end = true]. *)
Theorem content_length_zero_split :
  let slots := snd (fst (getHeaders empty_upload)) in
  consume_all willing a_user idle [] [empty_upload]
  = mkConsumption a_user idle [Request slots 11; Data [] true]
  /\ consume_all willing a_user idle [] [firstn 10 empty_upload; skipn 10 empty_upload]
     = mkConsumption a_user idle [Request slots 11].
Proof. split; vm_compute; reflexivity. Qed.

(** ** The tokenizer on a head that arrives in pieces *)

Lemma lower_idempotent c : lower (lower c) = lower c.
Proof. unfold lower. rewrite <- Z.lor_assoc, Z.lor_diag. reflexivity. Qed.

Lemma map_lower_idempotent l : map lower (map lower l) = map lower l.
Proof. rewrite map_map. apply map_ext. intros. apply lower_idempotent. Qed.

(** A property of bytes that holds of each of the 256 of them. *)
Lemma each_byte_value (P : Z -> bool) :
  forallb P (map Z.of_nat (seq 0 256)) = true -> forall c, byte_ok c -> P c = true.
Proof.
  intros H c [Hlo Hhi]. rewrite forallb_forall in H. apply H.
  apply in_map_iff. exists (Z.to_nat c). split; [lia|]. apply in_seq. lia.
Qed.

(** Lower-casing a byte of a key leaves a byte of a key: it is not taken
    to [':'] (only 26 is) nor below 33. *)
Lemma key_byte_lower c : byte_ok c -> key_byte c = true -> key_byte (lower c) = true.
Proof.
  intros Hc Hk.
  pose proof (each_byte_value (fun c => implb (key_byte c) (key_byte (lower c)))
                eq_refl c Hc) as H.
  cbn beta in H. rewrite Hk in H. exact H.
Qed.

Lemma name_ok_key_bytes name : name_ok name <-> forallb key_byte name = true.
Proof.
  unfold name_ok. rewrite forallb_forall, Forall_forall.
  split; intros H c Hc; specialize (H c Hc); unfold key_byte in *.
  - destruct H as [H1 H2]. apply andb_true_iff. split.
    + apply negb_true_iff, Z.eqb_neq. assumption.
    + apply Z.ltb_lt. assumption.
  - apply andb_true_iff in H. destruct H as [H1 H2].
    apply negb_true_iff, Z.eqb_neq in H1. apply Z.ltb_lt in H2. tauto.
Qed.

Lemma name_ok_lower name : bytes_ok name -> name_ok name -> name_ok (map lower name).
Proof.
  intros Hb Hn. apply name_ok_key_bytes. apply name_ok_key_bytes in Hn.
  rewrite forallb_forall in *. intros c Hc. apply in_map_iff in Hc.
  destruct Hc as (x & <- & Hx). apply key_byte_lower; [|auto].
  unfold bytes_ok in Hb. rewrite Forall_forall in Hb. auto.
Qed.

Lemma key_scan_app_name name rest :
  name_ok name -> key_scan (name ++ rest) = (List.length name + key_scan rest)%nat.
Proof.
  intros Hn. apply name_ok_key_bytes in Hn.
  induction name as [|c name IH]; [reflexivity|].
  cbn [forallb] in Hn. apply andb_true_iff in Hn. destruct Hn as [Hc Hn].
  cbn [app key_scan List.length]. fold (key_byte c). rewrite Hc, IH by assumption.
  reflexivity.
Qed.

(** What the key scan passes is a name; what stops it ends a name. *)
Lemma key_scan_name_ok l : name_ok (firstn (key_scan l) l).
Proof.
  apply name_ok_key_bytes.
  induction l as [|c l IH]; [reflexivity|].
  cbn [key_scan]. fold (key_byte c). destruct (key_byte c) eqn:Hc; [|reflexivity].
  cbn [firstn forallb]. rewrite Hc. exact IH.
Qed.

Lemma key_scan_stop l c after :
  skipn (key_scan l) l = c :: after -> key_byte c = false.
Proof.
  induction l as [|x l IH]; [discriminate|].
  cbn [key_scan]. fold (key_byte x). destruct (key_byte x) eqn:Hx.
  - cbn [skipn]. exact IH.
  - cbn [skipn]. intros [= -> _]. exact Hx.
Qed.

Lemma key_byte_stop c : key_byte c = false -> c = COLON \/ c <= 32.
Proof.
  unfold key_byte. intros H. apply andb_false_iff in H. destruct H as [H|H].
  - left. apply negb_false_iff, Z.eqb_eq in H. assumption.
  - right. apply Z.ltb_ge in H. assumption.
Qed.

Lemma skipn_app_plus {A} (a b : list A) k :
  skipn (List.length a + k) (a ++ b) = skipn k b.
Proof. induction a as [|x a IH]; simpl; auto. Qed.

Lemma firstn_app_plus {A} (a b : list A) k :
  firstn (List.length a + k) (a ++ b) = a ++ firstn k b.
Proof. induction a as [|x a IH]; simpl; [|rewrite IH]; reflexivity. Qed.

(** A turn of the loop does not see whether the name it starts with was
    lower-cased by an earlier, unfinished attempt. *)
Lemma getHeaders_loop_lowered n i off name rest :
  bytes_ok name -> name_ok name ->
  getHeaders_loop (S n) i off (map lower name ++ rest)
  = getHeaders_loop (S n) i off (name ++ rest).
Proof.
  intros Hb Hn. cbn [getHeaders_loop].
  rewrite (key_scan_app_name name rest Hn).
  rewrite (key_scan_app_name (map lower name) rest (name_ok_lower name Hb Hn)).
  rewrite !firstn_app_plus, !skipn_app_plus.
  rewrite !map_app, map_lower_idempotent, length_map. reflexivity.
Qed.

Lemma value_skip_skipped_ok l : skipped_ok (firstn (value_skip l) l).
Proof.
  unfold skipped_ok. induction l as [|c l IH]; [constructor|].
  cbn [value_skip]. fold (skippable c). destruct (skippable c) eqn:Hc; [|constructor].
  cbn [firstn]. constructor; [|exact IH].
  unfold skippable in Hc. apply andb_true_iff in Hc. destruct Hc as [H1 H2].
  apply negb_true_iff, Z.eqb_neq in H2. split; [|assumption].
  apply orb_true_iff in H1. destruct H1 as [H1|H1];
    [left; apply Z.eqb_eq; assumption | right; apply Z.ltb_lt; assumption].
Qed.

Lemma value_skip_stop l b rest :
  skipn (value_skip l) l = b :: rest -> skippable b = false.
Proof.
  induction l as [|x l IH]; [discriminate|].
  cbn [value_skip]. fold (skippable x). destruct (skippable x) eqn:Hx.
  - cbn [skipn]. exact IH.
  - cbn [skipn]. intros [= -> _]. exact Hx.
Qed.

Lemma value_skip_app_stop l b rest more :
  skipn (value_skip l) l = b :: rest -> value_skip (l ++ more) = value_skip l.
Proof.
  induction l as [|x l IH]; [discriminate|].
  cbn [value_skip app]. fold (skippable x). destruct (skippable x) eqn:Hx.
  - cbn [skipn]. intros H. rewrite (IH H). reflexivity.
  - reflexivity.
Qed.

Lemma key_scan_app_stop l c after more :
  skipn (key_scan l) l = c :: after -> key_scan (l ++ more) = key_scan l.
Proof.
  induction l as [|x l IH]; [discriminate|].
  cbn [key_scan app]. fold (key_byte x). destruct (key_byte x) eqn:Hx.
  - cbn [skipn]. intros H. rewrite (IH H). reflexivity.
  - reflexivity.
Qed.

Lemma first_cr_split l r :
  first_cr l = Some r ->
  exists v t, l = v ++ CR :: t /\ ~ In CR v /\ List.length v = r.
Proof.
  revert r. induction l as [|c l IH]; intros r H; [discriminate|].
  cbn [first_cr] in H. destruct (Z.eqb_spec c CR) as [->|Hc].
  - injection H as <-. exists [], l. repeat split. intros [].
  - destruct (first_cr l) as [k|]; [|discriminate]. injection H as <-.
    destruct (IH k eq_refl) as (v & t & -> & Hv & Hlen).
    exists (c :: v), t. repeat split; [|cbn; lia].
    intros [H|H]; [congruence | contradiction].
Qed.

Lemma first_cr_app_found l r more : first_cr l = Some r -> first_cr (l ++ more) = Some r.
Proof.
  intros H. destruct (first_cr_split l r H) as (v & t & -> & Hv & <-).
  rewrite <- app_assoc. cbn [app]. apply first_cr_value. assumption.
Qed.

(** The turn that stores a header reads [name], the byte that ends it, the
    bytes passed, the value and the line end. *)
Lemma entry_inversion X c after r :
  bytes_ok X ->
  skipn (key_scan X) X = c :: after ->
  (c =? CR) = false ->
  memchr_r (skipn (value_skip after) after) = Some r ->
  (nth (S r) (skipn (value_skip after) after) CR =? LF) = true ->
  exists name sp v tail,
    X = name ++ c :: sp ++ v ++ CRLF ++ tail
    /\ name_ok name /\ bytes_ok name /\ (c = COLON \/ c <= 32) /\ c <> CR
    /\ skipped_ok sp /\ value_ok v
    /\ List.length name = key_scan X /\ List.length sp = value_skip after
    /\ List.length v = r
    /\ tail = skipn (r + 2) (skipn (value_skip after) after)
    /\ bytes_ok (v ++ CRLF ++ tail)
    /\ name = firstn (key_scan X) X
    /\ sp = firstn (value_skip after) after
    /\ v = firstn r (skipn (value_skip after) after)
    /\ v ++ CRLF = firstn (r + 2) (skipn (value_skip after) after).
Proof.
  intros Hok Hat Hc Hr Hlf.
  pose proof (firstn_skipn (key_scan X) X) as HX. rewrite Hat in HX.
  pose proof (firstn_skipn (value_skip after) after) as Hafter.
  set (from_value := skipn (value_skip after) after) in *.
  assert (Hok_fv : bytes_ok from_value).
  { rewrite <- HX in Hok. apply bytes_ok_tail in Hok.
    inversion Hok as [|? ? _ Hok1]; subst. rewrite <- Hafter in Hok1.
    apply bytes_ok_tail in Hok1. exact Hok1. }
  rewrite (memchr_r_scan _ Hok_fv) in Hr.
  destruct (first_cr_split _ _ Hr) as (v & t & Hfv & Hv & Hlen).
  assert (Ht : exists tail, t = LF :: tail).
  { rewrite Hfv in Hlf. rewrite app_nth2 in Hlf by lia.
    replace (S r - List.length v)%nat with 1%nat in Hlf by lia.
    destruct t as [|d tail]; [discriminate|]. cbn in Hlf.
    apply Z.eqb_eq in Hlf. subst d. eauto. }
  destruct Ht as [tail ->].
  exists (firstn (key_scan X) X), (firstn (value_skip after) after), v, tail.
  assert (Hname_len : List.length (firstn (key_scan X) X) = key_scan X)
    by (rewrite length_firstn; pose proof (key_scan_le X); lia).
  assert (Hsp_len : List.length (firstn (value_skip after) after) = value_skip after)
    by (rewrite length_firstn; pose proof (value_skip_le after); lia).
  split.
  { rewrite <- HX at 1. f_equal. f_equal. rewrite <- Hafter at 1. f_equal.
    rewrite Hfv. reflexivity. }
  split; [apply key_scan_name_ok|].
  split.
  { rewrite <- HX in Hok. apply Forall_app in Hok. tauto. }
  split; [apply key_byte_stop; eapply key_scan_stop; eassumption|].
  split; [apply Z.eqb_neq; assumption|].
  split; [apply value_skip_skipped_ok|].
  split.
  { split; [assumption|]. destruct v as [|b v']; [exact I|].
    assert (Hstop : skippable b = false).
    { apply (value_skip_stop after b (v' ++ CR :: LF :: tail)).
      fold from_value. rewrite Hfv. reflexivity. }
    assert (Hb : b <> CR) by (intros ->; apply Hv; left; reflexivity).
    unfold skippable in Hstop. apply andb_false_iff in Hstop.
    destruct Hstop as [Hs|Hs].
    - apply orb_false_iff in Hs. destruct Hs as [H1 H2].
      apply Z.eqb_neq in H1. apply Z.ltb_ge in H2. split; assumption.
    - apply negb_false_iff, Z.eqb_eq in Hs. contradiction. }
  split; [assumption|]. split; [assumption|]. split; [assumption|].
  split.
  { rewrite Hfv, skipn_app, skipn_all2 by lia.
    replace (r + 2 - List.length v)%nat with 2%nat by lia. reflexivity. }
  split; [rewrite Hfv in Hok_fv; exact Hok_fv|].
  split; [reflexivity|]. split; [reflexivity|].
  split.
  { rewrite Hfv, <- Hlen, firstn_length_app. reflexivity. }
  rewrite Hfv, firstn_app, firstn_all2 by lia.
  replace (r + 2 - List.length v)%nat with 2%nat by lia. reflexivity.
Qed.

Lemma firstn_app_le {A} k (a b : list A) :
  (k <= List.length a)%nat -> firstn k (a ++ b) = firstn k a.
Proof.
  intros H. rewrite firstn_app. replace (k - List.length a)%nat with O by lia.
  cbn [firstn]. apply app_nil_r.
Qed.

Lemma skipn_app_le {A} k (a b : list A) :
  (k <= List.length a)%nat -> skipn k (a ++ b) = skipn k a ++ b.
Proof.
  intros H. rewrite skipn_app. replace (k - List.length a)%nat with O by lia.
  reflexivity.
Qed.

(** A head that is tokenized is tokenized the same way whatever follows
    it. *)
Lemma getHeaders_loop_extend n :
  forall i off X more ret slots buf,
    bytes_ok (X ++ more) ->
    getHeaders_loop n i off X = (ret, slots, buf) ->
    ret <> O ->
    getHeaders_loop n i off (X ++ more) = (ret, slots, buf ++ more).
Proof.
  induction n as [|n IH]; intros i off X more ret slots buf Hok H Hret.
  { injection H as <- _ _. contradiction. }
  pose proof H as Hstep. cbn [getHeaders_loop] in Hstep.
  destruct (skipn (key_scan X) X) as [|c after] eqn:Hat.
  { injection Hstep as <- _ _. contradiction. }
  assert (HokX : bytes_ok X) by (apply Forall_app in Hok; tauto).
  destruct (c =? CR) eqn:Hc.
  - destruct ((nth O after CR =? LF) && (0 <? i)%nat) eqn:Hcond;
      [|injection Hstep as <- _ _; contradiction].
    injection Hstep as <- <- <-.
    cbn [getHeaders_loop]. rewrite (key_scan_app_stop X c after more Hat).
    rewrite firstn_app_le, skipn_app_le by apply key_scan_le.
    rewrite Hat. cbn [app]. rewrite Hc.
    replace (nth O (after ++ more) CR) with (nth O after CR).
    + rewrite Hcond, <- app_assoc. reflexivity.
    + destruct after; [|reflexivity]. discriminate.
  - destruct (memchr_r (skipn (value_skip after) after)) as [r|] eqn:Hr;
      [|injection Hstep as <- _ _; contradiction].
    destruct (nth (S r) (skipn (value_skip after) after) CR =? LF) eqn:Hlf;
      [|injection Hstep as <- _ _; contradiction].
    destruct (entry_inversion X c after r HokX Hat Hc Hr Hlf)
      as (name & sp & v & tail & HX & Hname & Hbname & Hstop & Hcr & Hsp & Hv
          & Ln & Ls & Lv & Htail & Hokv & En & Es & Ev & Evl).
    rewrite <- Htail, <- En, <- Es, <- Evl, <- Ev, <- Ln, <- Ls, <- Lv in Hstep.
    destruct (getHeaders_loop n (S i) _ tail) as [[ret' slots'] rest'] eqn:Hrec.
    injection Hstep as <- <- <-.
    assert (Hok' : bytes_ok (v ++ CRLF ++ tail ++ more)).
    { rewrite HX in Hok. rewrite <- !app_assoc in Hok. cbn [app] in Hok.
      apply bytes_ok_tail in Hok. inversion Hok as [|? ? _ Hok1]; subst.
      rewrite <- !app_assoc in Hok1. apply bytes_ok_tail in Hok1.
      exact Hok1. }
    rewrite HX at 1.
    replace ((name ++ c :: sp ++ v ++ CRLF ++ tail) ++ more)
      with (name ++ c :: sp ++ v ++ CRLF ++ tail ++ more)
      by (repeat (first [rewrite <- app_assoc | progress cbn [app]]); reflexivity).
    rewrite getHeaders_loop_entry by assumption.
    rewrite (IH _ _ _ more _ _ _ ltac:(do 2 apply bytes_ok_tail in Hok'; exact Hok') Hrec Hret).
    f_equal. repeat (first [rewrite <- app_assoc | progress cbn [app]]). reflexivity.
Qed.

Lemma lower_byte_ok c : byte_ok c -> byte_ok (lower c).
Proof.
  intros Hc.
  pose proof (each_byte_value (fun c => byte_okb (lower c)) eq_refl c Hc) as H.
  cbn beta in H. unfold byte_okb in H. unfold byte_ok. lia.
Qed.

Lemma map_lower_bytes_ok l : bytes_ok l -> bytes_ok (map lower l).
Proof.
  unfold bytes_ok. rewrite Forall_map. intros H. eapply Forall_impl; [|exact H].
  intros c Hc. apply lower_byte_ok. assumption.
Qed.

Lemma bytes_ok_app a b : bytes_ok a -> bytes_ok b -> bytes_ok (a ++ b).
Proof. intros Ha Hb. apply Forall_app. tauto. Qed.

Lemma bytes_ok_firstn k l : bytes_ok l -> bytes_ok (firstn k l).
Proof. intros H. rewrite <- (firstn_skipn k l) in H. apply Forall_app in H. tauto. Qed.

Lemma bytes_ok_skipn k l : bytes_ok l -> bytes_ok (skipn k l).
Proof. intros H. rewrite <- (firstn_skipn k l) in H. apply Forall_app in H. tauto. Qed.

(** The tokenizer leaves bytes in the buffer. *)
Lemma getHeaders_loop_bytes_ok n :
  forall i off l ret slots buf,
    bytes_ok l -> getHeaders_loop n i off l = (ret, slots, buf) -> bytes_ok buf.
Proof.
  induction n as [|n IH]; intros i off l ret slots buf Hok H.
  { injection H as _ _ <-. assumption. }
  cbn [getHeaders_loop] in H.
  pose proof (firstn_skipn (key_scan l) l) as Hl.
  assert (Hkey : bytes_ok (map lower (firstn (key_scan l) l)))
    by (apply map_lower_bytes_ok, bytes_ok_firstn; assumption).
  assert (Hrest : bytes_ok (skipn (key_scan l) l)) by (apply bytes_ok_skipn; assumption).
  destruct (skipn (key_scan l) l) as [|c after] eqn:Hat.
  { injection H as _ _ <-. assumption. }
  assert (Hwhole : bytes_ok (map lower (firstn (key_scan l) l) ++ c :: after))
    by (apply bytes_ok_app; assumption).
  destruct (c =? CR).
  { destruct ((nth O after CR =? LF) && (0 <? i)%nat); injection H as _ _ <-; assumption. }
  destruct (memchr_r _) as [r|]; [|injection H as _ _ <-; assumption].
  destruct (nth (S r) _ CR =? LF); [|injection H as _ _ <-; assumption].
  destruct (getHeaders_loop n (S i) _ _) as [[ret' slots'] rest'] eqn:Hrec.
  injection H as _ _ <-.
  inversion Hrest as [|? ? Hc Hafter]; subst.
  apply bytes_ok_app; [assumption|]. constructor; [assumption|].
  apply bytes_ok_app; [apply bytes_ok_firstn; assumption|].
  apply bytes_ok_app; [apply bytes_ok_firstn, bytes_ok_skipn; assumption|].
  eapply IH; [|exact Hrec]. do 2 apply bytes_ok_skipn. assumption.
Qed.

(** An attempt that fails lower-cases some names; the next attempt, on the
    buffer it left and what has arrived since, is the attempt on the bytes
    as they arrived. *)
Lemma getHeaders_loop_retry n :
  forall i off X more slots X',
    bytes_ok (X ++ more) ->
    getHeaders_loop n i off X = (O, slots, X') ->
    getHeaders_loop n i off (X' ++ more) = getHeaders_loop n i off (X ++ more).
Proof.
  induction n as [|n IH]; intros i off X more slots X' Hok H.
  { injection H as _ <-. reflexivity. }
  pose proof H as Hstep. cbn [getHeaders_loop] in Hstep.
  assert (HokX : bytes_ok X) by (apply Forall_app in Hok; tauto).
  assert (Hokm : bytes_ok more) by (apply bytes_ok_tail in Hok; assumption).
  pose proof (firstn_skipn (key_scan X) X) as HX.
  pose proof (key_scan_name_ok X) as Hname.
  assert (Hbname : bytes_ok (firstn (key_scan X) X)) by (apply bytes_ok_firstn; assumption).
  assert (Hlow : forall rest,
             skipn (key_scan X) X = rest ->
             getHeaders_loop (S n) i off
               ((map lower (firstn (key_scan X) X) ++ rest) ++ more)
             = getHeaders_loop (S n) i off (X ++ more)).
  { intros rest Hrest. rewrite <- HX at 3. rewrite Hrest, <- !app_assoc.
    apply getHeaders_loop_lowered; assumption. }
  destruct (skipn (key_scan X) X) as [|c after] eqn:Hat.
  { injection Hstep as _ <-. rewrite <- (Hlow [] eq_refl), app_nil_r. reflexivity. }
  destruct (c =? CR) eqn:Hc.
  { destruct ((nth O after CR =? LF) && (0 <? i)%nat);
      [injection Hstep as Hz _ _; lia|].
    injection Hstep as _ <-. apply Hlow. reflexivity. }
  destruct (memchr_r (skipn (value_skip after) after)) as [r|] eqn:Hr;
    [|injection Hstep as _ <-; apply Hlow; reflexivity].
  destruct (nth (S r) (skipn (value_skip after) after) CR =? LF) eqn:Hlf;
    [|injection Hstep as _ <-; apply Hlow; reflexivity].
  destruct (entry_inversion X c after r HokX Hat Hc Hr Hlf)
    as (name & sp & v & tail & HX' & Hname' & Hbname' & Hstop & Hcr & Hsp & Hv
        & Ln & Ls & Lv & Htail & Hokv & En & Es & Ev & Evl).
  rewrite <- Htail, <- En, <- Es, <- Evl, <- Ev, <- Ln, <- Ls, <- Lv in Hstep.
  destruct (getHeaders_loop n (S i) _ tail) as [[ret' slots'] rest'] eqn:Hrec.
  injection Hstep as -> _ <-.
  assert (Hokt : bytes_ok tail) by (do 2 apply bytes_ok_tail in Hokv; exact Hokv).
  assert (Hokr : bytes_ok rest') by (eapply getHeaders_loop_bytes_ok; eassumption).
  assert (Hokv' : bytes_ok (v ++ CRLF)).
  { rewrite app_assoc in Hokv. apply Forall_app in Hokv. tauto. }
  replace ((map lower name ++ c :: sp ++ (v ++ CRLF) ++ rest') ++ more)
    with (map lower name ++ c :: sp ++ v ++ CRLF ++ rest' ++ more)
    by (repeat (first [rewrite <- app_assoc | progress cbn [app]]); reflexivity).
  rewrite getHeaders_loop_lowered by assumption.
  rewrite HX' at 1.
  replace ((name ++ c :: sp ++ v ++ CRLF ++ tail) ++ more)
    with (name ++ c :: sp ++ v ++ CRLF ++ tail ++ more)
    by (repeat (first [rewrite <- app_assoc | progress cbn [app]]); reflexivity).
  rewrite !getHeaders_loop_entry; try assumption.
  - rewrite (IH _ _ tail more slots' rest' ltac:(apply bytes_ok_app; assumption) Hrec).
    reflexivity.
  - rewrite app_assoc. apply bytes_ok_app; [assumption|]. apply bytes_ok_app; assumption.
  - rewrite app_assoc. apply bytes_ok_app; [assumption|]. apply bytes_ok_app; assumption.
Qed.

(** A tokenized head is tokenized on its own. *)
Lemma getHeaders_loop_restrict n :
  forall i off X ret slots buf,
    bytes_ok X ->
    getHeaders_loop n i off X = (ret, slots, buf) ->
    ret <> O ->
    getHeaders_loop n i off (firstn (ret - off) X) = (ret, slots, firstn (ret - off) buf).
Proof.
  induction n as [|n IH]; intros i off X ret slots buf HokX H Hret.
  { injection H as <- _ _. contradiction. }
  pose proof H as Hstep. cbn [getHeaders_loop] in Hstep.
  destruct (skipn (key_scan X) X) as [|c after] eqn:Hat.
  { injection Hstep as <- _ _. contradiction. }
  pose proof (firstn_skipn (key_scan X) X) as HX. rewrite Hat in HX.
  pose proof (key_scan_name_ok X) as Hname.
  assert (Hklen : List.length (firstn (key_scan X) X) = key_scan X)
    by (rewrite length_firstn; pose proof (key_scan_le X); lia).
  destruct (c =? CR) eqn:Hc.
  - destruct ((nth O after CR =? LF) && (0 <? i)%nat) eqn:Hcond;
      [|injection Hstep as <- _ _; contradiction].
    injection Hstep as <- <- <-.
    apply andb_true_iff in Hcond. destruct Hcond as [Hlf Hi].
    destruct after as [|d after]; [discriminate|]. cbn in Hlf.
    apply Z.eqb_eq in Hlf. subst d. apply Z.eqb_eq in Hc. subst c.
    replace (off + key_scan X + 2 - off)%nat with (key_scan X + 2)%nat by lia.
    remember (firstn (key_scan X) X) as name eqn:En.
    remember (key_scan X) as k eqn:Ek.
    subst k. rewrite <- Hklen in *. clear Hklen.
    assert (F1 : firstn (List.length name + 2) X = name ++ [CR; LF]).
    { rewrite <- HX. rewrite firstn_app_plus. reflexivity. }
    assert (F2 : firstn (List.length name + 2) (map lower name ++ CR :: LF :: after)
                 = map lower name ++ [CR; LF]).
    { rewrite <- (length_map lower name). rewrite firstn_app_plus. reflexivity. }
    rewrite F1, F2. cbn [getHeaders_loop].
    rewrite (key_scan_name name CR [LF] Hname) by (right; unfold CR; lia).
    rewrite firstn_length_app, skipn_length_app. cbn [Z.eqb CR LF Pos.eqb nth andb].
    rewrite Hi. reflexivity.
  - destruct (memchr_r (skipn (value_skip after) after)) as [r|] eqn:Hr;
      [|injection Hstep as <- _ _; contradiction].
    destruct (nth (S r) (skipn (value_skip after) after) CR =? LF) eqn:Hlf;
      [|injection Hstep as <- _ _; contradiction].
    destruct (entry_inversion X c after r HokX Hat Hc Hr Hlf)
      as (name & sp & v & tail & HX' & Hname' & Hbname' & Hstop & Hcr & Hsp & Hv
          & Ln & Ls & Lv & Htail & Hokv & En & Es & Ev & Evl).
    rewrite <- Htail, <- En, <- Es, <- Evl, <- Ev, <- Ln, <- Ls, <- Lv in Hstep.
    set (off' := (off + List.length name + 1 + List.length sp + List.length v + 2)%nat) in *.
    destruct (getHeaders_loop n (S i) off' tail) as [[ret' slots'] rest'] eqn:Hrec.
    injection Hstep as <- <- <-.
    assert (Hokt : bytes_ok tail) by (do 2 apply bytes_ok_tail in Hokv; exact Hokv).
    destruct (getHeaders_loop_extent _ _ _ _ _ _ _ Hrec) as [_ [Hz|Hext]]; [contradiction|].
    set (E := name ++ c :: sp ++ v ++ CRLF) in *.
    set (E' := map lower name ++ c :: sp ++ v ++ CRLF).
    assert (HE : List.length E = (off' - off)%nat).
    { unfold E, off', CRLF. repeat (first [rewrite length_app | progress cbn [List.length]]). lia. }
    assert (HE' : List.length E' = (off' - off)%nat).
    { unfold E', off', CRLF.
      repeat (first [rewrite length_app | rewrite length_map | progress cbn [List.length]]). lia. }
    assert (HXE : X = E ++ tail).
    { rewrite HX'. unfold E. repeat (first [rewrite <- app_assoc | progress cbn [app]]).
      reflexivity. }
    replace (map lower name ++ c :: sp ++ (v ++ CRLF) ++ rest') with (E' ++ rest')
      by (unfold E'; repeat (first [rewrite <- app_assoc | progress cbn [app]]); reflexivity).
    replace (ret' - off)%nat with (List.length E + (ret' - off'))%nat at 1 by lia.
    replace (ret' - off)%nat with (List.length E' + (ret' - off'))%nat by lia.
    rewrite HXE, !firstn_app_plus.
    unfold E at 1.
    replace ((name ++ c :: sp ++ v ++ CRLF) ++ firstn (ret' - off') tail)
      with (name ++ c :: sp ++ v ++ CRLF ++ firstn (ret' - off') tail)
      by (repeat (first [rewrite <- app_assoc | progress cbn [app]]); reflexivity).
    rewrite getHeaders_loop_entry; try assumption.
    + fold off'. rewrite (IH _ _ _ _ _ _ Hokt Hrec Hret).
      f_equal. unfold E'. repeat (first [rewrite <- app_assoc | progress cbn [app]]).
      reflexivity.
    + rewrite app_assoc. apply bytes_ok_app.
      * rewrite app_assoc in Hokv. apply Forall_app in Hokv. tauto.
      * apply bytes_ok_firstn. assumption.
Qed.

(** After an attempt that failed, a head that is tokenized once more bytes
    have arrived reaches into these bytes. *)
Lemma getHeaders_pending X more slots X' ret slots' buf :
  bytes_ok (X ++ more) ->
  getHeaders X = (O, slots, X') ->
  getHeaders (X ++ more) = (ret, slots', buf) ->
  ret <> O ->
  (List.length X < ret)%nat.
Proof.
  intros Hok Hfail Hdone Hret. unfold getHeaders in *.
  destruct (Nat.lt_ge_cases (List.length X) ret) as [|Hle]; [assumption|].
  exfalso.
  pose proof (getHeaders_loop_restrict _ _ _ _ _ _ _ Hok Hdone Hret) as Hhead.
  rewrite Nat.sub_0_r, firstn_app_le in Hhead by assumption.
  assert (HokX : bytes_ok X) by (apply Forall_app in Hok; tauto).
  pose proof (getHeaders_loop_extend _ _ _ _ (skipn ret X) _ _ _
                ltac:(rewrite firstn_skipn; exact HokX) Hhead Hret) as Hwhole.
  rewrite firstn_skipn in Hwhole. rewrite Hwhole in Hfail.
  injection Hfail as Hz _ _. contradiction.
Qed.

(** ** The calls a stream asks for *)

Lemma getHeaders_rest_shorter data consumed slots buf :
  getHeaders data = (consumed, slots, buf) -> consumed <> O ->
  (List.length (skipn consumed buf) < List.length data)%nat.
Proof.
  intros H Hc. destruct (getHeaders_extent _ _ _ _ H) as [Hlen Hle].
  rewrite length_skipn. lia.
Qed.

(** * equations *)

Lemma stream_verdict_fuel fuel :
  forall fuel' rem data,
    0 <= rem ->
    (List.length data < fuel)%nat -> (List.length data < fuel')%nat ->
    stream_verdict fuel rem data = stream_verdict fuel' rem data.
Proof.
  induction fuel as [|fuel IH]; intros fuel' rem data Hrem H1 H2; [lia|].
  destruct fuel' as [|fuel']; [lia|].
  cbn [stream_verdict].
  destruct (negb (rem =? 0)) eqn:Hbody.
  - destruct (Z.of_nat (List.length data) <=? rem) eqn:Hfits; [reflexivity|].
    apply Z.leb_gt in Hfits. apply negb_true_iff, Z.eqb_neq in Hbody.
    rewrite (IH fuel'); [reflexivity | lia | |]; rewrite length_skipn; lia.
  - destruct (List.length data =? 0)%nat; [reflexivity|].
    destruct (getHeaders data) as [[consumed slots] buf] eqn:Htok.
    destruct (consumed =? 0)%nat eqn:Hzero; [reflexivity|].
    apply Nat.eqb_neq in Hzero.
    pose proof (getHeaders_rest_shorter _ _ _ _ Htok Hzero) as Hshort.
    destruct (sv_is_null _); [reflexivity|]. cbv zeta.
    destruct (negb _ && negb _); [reflexivity|].
    destruct (negb (sv_length (field_value slots transfer_encoding_name) =? 0)%nat);
      [reflexivity|].
    destruct (negb (sv_length (field_value slots content_length_name) =? 0)%nat).
    + destruct (toUnsignedInteger _ =? UINT_MAX); [reflexivity|].
      destruct (toUnsignedInteger _ =? 0).
      * rewrite (IH fuel'); [reflexivity | lia | lia | lia].
      * rewrite (IH fuel'); [reflexivity | apply toUnsignedInteger_nonneg | lia | lia].
    + rewrite (IH fuel'); [reflexivity | lia | lia | lia].
Qed.

Lemma verdict_of_fuel fuel rem data :
  0 <= rem -> (List.length data < fuel)%nat ->
  stream_verdict fuel rem data = verdict_of rem data.
Proof. intros. apply stream_verdict_fuel; [assumption | assumption | lia]. Qed.

(** [verdict_of] while a body is under way. *)
Lemma verdict_of_body rem data :
  0 < rem ->
  verdict_of rem data =
    if Z.of_nat (List.length data) <=? rem
    then Some ([Data data (rem =? Z.of_nat (List.length data))],
               Goes (rem - Z.of_nat (List.length data)) [])
    else add_events [Data (firstn (Z.to_nat rem) data) true]
                    (verdict_of 0 (skipn (Z.to_nat rem) data)).
Proof.
  intros Hrem. unfold verdict_of at 1. cbn [stream_verdict].
  replace (negb (rem =? 0)) with true by (symmetry; apply negb_true_iff, Z.eqb_neq; lia).
  destruct (Z.of_nat (List.length data) <=? rem) eqn:Hfits; [reflexivity|].
  apply Z.leb_gt in Hfits.
  rewrite verdict_of_fuel; [reflexivity | lia | rewrite length_skipn; lia].
Qed.

(** [verdict_of] at a head. *)
Lemma verdict_of_heads data :
  verdict_of 0 data =
    if (List.length data =? 0)%nat then Some ([], Goes 0 [])
    else
      let '(consumed, slots, buf) := getHeaders data in
      if (consumed =? 0)%nat then Some ([], Goes 0 buf)
      else if sv_is_null (field_value slots host_name) then Some ([], Refused)
      else if negb (sv_length (field_value slots transfer_encoding_name) =? 0)%nat
              && negb (sv_length (field_value slots content_length_name) =? 0)%nat
      then Some ([], Refused)
      else if negb (sv_length (field_value slots transfer_encoding_name) =? 0)%nat
      then None
      else after_request slots (skipn consumed buf).
Proof.
  unfold verdict_of at 1. cbn [stream_verdict Z.eqb negb].
  destruct (List.length data =? 0)%nat; [reflexivity|].
  destruct (getHeaders data) as [[consumed slots] buf] eqn:Htok.
  destruct (consumed =? 0)%nat eqn:Hzero; [reflexivity|].
  apply Nat.eqb_neq in Hzero.
  pose proof (getHeaders_rest_shorter _ _ _ _ Htok Hzero) as Hshort.
  destruct (sv_is_null _); [reflexivity|]. cbv zeta.
  destruct (negb _ && negb _); [reflexivity|].
  destruct (negb (sv_length (field_value slots transfer_encoding_name) =? 0)%nat);
    [reflexivity|].
  unfold after_request. cbv zeta.
  destruct (negb (sv_length (field_value slots content_length_name) =? 0)%nat).
  - destruct (toUnsignedInteger _ =? UINT_MAX); [reflexivity|].
    destruct (toUnsignedInteger _ =? 0).
    + rewrite verdict_of_fuel; [reflexivity | lia | lia].
    + rewrite verdict_of_fuel; [reflexivity | apply toUnsignedInteger_nonneg | lia].
  - rewrite verdict_of_fuel; [reflexivity | lia | lia].
Qed.

Section Fuel.

Context `{BF : BloomFilter} `{CE : ChunkedEncoding}.
Variable handlers : Handlers.
Variable user : Z.

(** Fuel above the length of the data is never used up. *)
Lemma fence_loop_fuel fuel :
  forall fuel' minimal data ct rem tr,
    (List.length data < fuel)%nat -> (List.length data < fuel')%nat ->
    fence_loop handlers user fuel minimal data ct rem tr
    = fence_loop handlers user fuel' minimal data ct rem tr.
Proof.
  induction fuel as [|fuel IH]; intros fuel' minimal data ct rem tr H1 H2; [lia|].
  destruct fuel' as [|fuel']; [lia|].
  cbn [fence_loop].
  destruct (List.length data =? 0)%nat; [reflexivity|].
  destruct (getHeaders data) as [[consumed slots] buf] eqn:Htok.
  destruct (consumed =? 0)%nat eqn:Hzero; [reflexivity|].
  apply Nat.eqb_neq in Hzero.
  pose proof (getHeaders_rest_shorter _ _ _ _ Htok Hzero) as Hshort.
  destruct (sv_is_null _); [reflexivity|].
  destruct (negb _ && negb _); [reflexivity|].
  destruct (negb (requestHandler _ _ _ _ _ =? user)); [reflexivity|].
  destruct (negb (sv_length (getHeader _ transfer_encoding_name) =? 0)%nat).
  { destruct minimal; [reflexivity|].
    destruct (ChunkIterator _ _) as [[chunks taken] state].
    destruct (isParsingInvalidChunkedEncoding state); [reflexivity|].
    rewrite (IH fuel'); [reflexivity | |]; rewrite length_skipn; lia. }
  destruct (negb (sv_length (getHeader _ content_length_name) =? 0)%nat).
  { destruct (_ =? UINT_MAX); [reflexivity|].
    destruct minimal; [reflexivity|].
    rewrite (IH fuel'); [reflexivity | |]; rewrite length_skipn; lia. }
  destruct minimal; [reflexivity|].
  rewrite (IH fuel'); [reflexivity | lia | lia].
Qed.

End Fuel.

Lemma toUnsignedInteger_bound s :
  toUnsignedInteger s <> UINT_MAX -> 0 <= toUnsignedInteger s < 1000000000.
Proof.
  rewrite toUnsignedInteger_cases.
  destruct ((List.length s <=? 9)%nat && forallb is_digit s) eqn:H; [|congruence].
  intros _. apply andb_true_iff in H. destruct H as [Hlen Hd]. apply Nat.leb_le in Hlen.
  unfold decimal_value.
  assert (Hgen : forall (l : list Z) (k : nat) acc,
             forallb is_digit l = true -> 0 <= acc < 10 ^ Z.of_nat k ->
             0 <= fold_left (fun a c => a * 10 + (c - 48)) l acc
             < 10 ^ Z.of_nat (k + List.length l)).
  { induction l as [|c l IH]; intros k acc Hl Hacc; cbn [fold_left List.length].
    - rewrite Nat.add_0_r. assumption.
    - cbn [forallb] in Hl. apply andb_true_iff in Hl. destruct Hl as [Hc Hl].
      apply is_digit_range in Hc.
      replace (k + S (List.length l))%nat with (S k + List.length l)%nat by lia.
      apply IH; [assumption|].
      rewrite Nat2Z.inj_succ, Z.pow_succ_r by lia. lia. }
  specialize (Hgen s O 0 Hd ltac:(cbn; lia)). cbn [Nat.add] in Hgen.
  assert (10 ^ Z.of_nat (List.length s) <= 10 ^ 9) by (apply Z.pow_le_mono_r; lia).
  lia.
Qed.

Lemma clean_app tr more : clean (tr ++ more) = clean tr && clean more.
Proof. apply forallb_app. Qed.

Lemma clean_in e tr : In e tr -> clean_event e = false -> clean tr = false.
Proof.
  intros Hin He. destruct (clean tr) eqn:Hc; [|reflexivity].
  unfold clean in Hc. rewrite forallb_forall in Hc.
  rewrite (Hc e Hin) in He. discriminate.
Qed.

Lemma clean_failure tr : clean (tr ++ [Failure]) = false.
Proof. apply (clean_in Failure); [rewrite in_app_iff; cbn; tauto | reflexivity]. Qed.

Lemma clean_prefix tr more : clean (tr ++ more) = true -> clean tr = true.
Proof. rewrite clean_app. intros H. apply andb_true_iff in H. tauto. Qed.

Section OneCall.

Context `{BF : BloomFilter} `{CE : ChunkedEncoding}.
Variable handlers : Handlers.
Variable user : Z.
Hypothesis Hanswers : answers_user handlers.
Hypothesis Huser : user <> FULLPTR.

Lemma request_answer tr slots separator :
  negb (requestHandler handlers tr user slots separator =? user) = false.
Proof. destruct Hanswers as [H _]. rewrite H, Z.eqb_refl. reflexivity. Qed.

(** [fenceAndConsumePostPadded<false>] makes the calls the stream asks
    for and comes to the stream's verdict; where the stream has none, a
    request with a transfer-encoding has been handed over. *)
Lemma fence_false_verdict (n : nat) :
  forall data ct tr,
    (List.length data <= n)%nat ->
    0 <= ct -> ct + Z.of_nat (List.length data) < 2 ^ 32 ->
    let r := fence_loop handlers user (S (List.length data)) false data ct 0 tr in
    match verdict_of 0 data with
    | Some (ev, Goes rem' pending) =>
        exists done,
          r = mkFenced (ct + Z.of_nat (List.length done)) user (done ++ pending) rem'
                       (tr ++ ev)
          /\ (List.length done + List.length pending = List.length data)%nat
    | Some (ev, Refused) => consumed_second r = FULLPTR /\ calls r = tr ++ ev
    | None => clean (calls r) = false
    end.
Proof.
  induction n as [|n IH]; intros data ct tr Hn Hct Hbound.
  { destruct data; [|cbn in Hn; lia]. exists []. cbn.
    rewrite app_nil_r, Z.add_0_r. split; reflexivity. }
  cbv zeta. rewrite verdict_of_heads. cbn [fence_loop].
  destruct (List.length data =? 0)%nat eqn:Hnil.
  { apply Nat.eqb_eq, length_zero_iff_nil in Hnil. subst data.
    exists []. cbn. rewrite app_nil_r, Z.add_0_r. split; reflexivity. }
  destruct (getHeaders data) as [[consumed slots] buf] eqn:Htok.
  destruct (getHeaders_extent _ _ _ _ Htok) as [Hbuf Hcons].
  destruct (consumed =? 0)%nat eqn:Hzero.
  { exists []. cbn. rewrite app_nil_r, Z.add_0_r. split; [reflexivity | lia]. }
  apply Nat.eqb_neq in Hzero.
  rewrite !(getHeader_field_value slots host_name host_name_nonzero).
  destruct (sv_is_null (field_value slots host_name)).
  { cbn. rewrite app_nil_r. split; reflexivity. }
  rewrite (getHeader_field_value slots _ transfer_encoding_name_nonzero).
  rewrite (getHeader_field_value slots _ content_length_name_nonzero).
  fold (separator_of slots).
  assert (Hct1 : wrap32 (ct + Z.of_nat consumed) = ct + Z.of_nat consumed)
    by (unfold wrap32; rewrite Z.mod_small; lia).
  assert (Hhead : List.length (firstn consumed buf) = consumed)
    by (rewrite length_firstn; lia).
  assert (Hdata1 : List.length (skipn consumed buf) = (List.length data - consumed)%nat)
    by (rewrite length_skipn; lia).
  set (data1 := skipn consumed buf) in *.
  set (tr1 := tr ++ [Request slots (separator_of slots)]).
  destruct (negb (sv_length (field_value slots transfer_encoding_name) =? 0)%nat) eqn:Hte.
  { (* a transfer-encoding *)
    cbn [andb].
    destruct (negb (sv_length (field_value slots content_length_name) =? 0)%nat).
    { cbn. rewrite app_nil_r. split; reflexivity. }
    rewrite request_answer.
    apply (clean_in (Request slots (separator_of slots)));
      [|cbn [clean_event]; apply negb_true_iff; exact Hte].
    destruct (ChunkIterator data1 STATE_IS_CHUNKED) as [[chunks taken] state].
    destruct (isParsingInvalidChunkedEncoding state).
    - cbn [calls]. unfold tr1. rewrite !in_app_iff. cbn. tauto.
    - cbn [calls prepend].
      destruct (fence_loop_calls_extend handlers user (List.length data) false
                  (skipn taken data1)
                  (wrap32 (wrap32 (ct + Z.of_nat consumed)
                           + wrap32 (Z.of_nat (List.length data1)
                                     - Z.of_nat (List.length (skipn taken data1)))))
                  state (tr1 ++ chunk_events chunks)) as [more ->].
      unfold tr1. rewrite !in_app_iff. cbn. tauto. }
  cbn [andb]. rewrite request_answer.
  unfold after_request. cbv zeta.
  destruct (negb (sv_length (field_value slots content_length_name) =? 0)%nat) eqn:Hcl.
  { (* a declared length *)
    set (declared := toUnsignedInteger (sv_bytes (field_value slots content_length_name))).
    destruct (declared =? UINT_MAX) eqn:Hmax.
    { cbn. split; reflexivity. }
    apply Z.eqb_neq in Hmax.
    pose proof (toUnsignedInteger_bound _ Hmax) as Hrange. fold declared in Hrange.
    cbn [orb].
    set (emittable := Z.min declared (Z.of_nat (List.length data1))).
    assert (Hct2 : wrap32 (ct + Z.of_nat consumed + emittable)
                   = ct + Z.of_nat consumed + emittable)
      by (unfold wrap32, emittable; rewrite Z.mod_small; lia).
    rewrite Hct1, Hct2.
    destruct (declared =? 0) eqn:Hnone.
    { (* a declared length of zero: an empty body, at once *)
      apply Z.eqb_eq in Hnone.
      assert (He : emittable = 0) by (unfold emittable; lia).
      rewrite He, Hnone. cbn [Z.to_nat firstn skipn Z.eqb].
      change (wrap32 (0 - 0)) with 0. rewrite Z.add_0_r, app_nil_r.
      rewrite (fence_loop_fuel handlers user (List.length data) (S (List.length data1)))
        by lia.
      specialize (IH data1 (ct + Z.of_nat consumed)
                     (tr1 ++ [Data [] true]) ltac:(lia) ltac:(lia) ltac:(lia)).
      cbv zeta in IH.
      destruct (verdict_of 0 data1) as [[ev [rem' pending|]]|].
      - destruct IH as (done & -> & Hlen). cbn [add_events].
        exists (firstn consumed buf ++ done). split.
        + unfold prepend. cbn [consumed_first consumed_second buffer remaining calls].
          f_equal;
            first [ reflexivity
                  | rewrite !length_app, Hhead; lia
                  | rewrite <- !app_assoc; reflexivity
                  | unfold tr1; rewrite <- !app_assoc; reflexivity ].
        + rewrite !length_app, Hhead. lia.
      - cbn [add_events prepend consumed_second calls].
        destruct IH as [-> ->]. split; [reflexivity|].
        unfold tr1. rewrite <- !app_assoc. reflexivity.
      - cbn [add_events prepend consumed_second calls]. exact IH. }
    apply Z.eqb_neq in Hnone.
    rewrite verdict_of_body by lia.
    destruct (Z.of_nat (List.length data1) <=? declared) eqn:Hfits.
    - (* the body is not complete *)
      apply Z.leb_le in Hfits.
      assert (He : emittable = Z.of_nat (List.length data1)) by (unfold emittable; lia).
      rewrite He, Nat2Z.id, skipn_all, firstn_all, fence_loop_nil.
      cbn [add_events].
      exists (firstn consumed buf ++ data1). split.
      + unfold prepend. cbn [consumed_first consumed_second buffer remaining calls].
        f_equal;
          first [ reflexivity
                | rewrite length_app, Hhead; lia
                | rewrite ?app_nil_r; reflexivity
                | unfold wrap32; rewrite Z.mod_small by lia; reflexivity
                | unfold tr1; rewrite <- app_assoc; cbn [app];
                  rewrite (Z.eqb_sym declared); reflexivity ].
      + rewrite length_app, Hhead. cbn [List.length]. lia.
    - (* the body is complete *)
      apply Z.leb_gt in Hfits.
      assert (He : emittable = declared) by (unfold emittable; lia).
      rewrite He, Z.sub_diag, Z.eqb_refl. change (wrap32 0) with 0.
      assert (Hrest : List.length (skipn (Z.to_nat declared) data1)
                      = (List.length data1 - Z.to_nat declared)%nat) by apply length_skipn.
      rewrite (fence_loop_fuel handlers user (List.length data)
                 (S (List.length (skipn (Z.to_nat declared) data1)))) by lia.
      specialize (IH (skipn (Z.to_nat declared) data1) (ct + Z.of_nat consumed + declared)
                     (tr1 ++ [Data (firstn (Z.to_nat declared) data1) true])
                     ltac:(lia) ltac:(lia) ltac:(lia)).
      cbv zeta in IH.
      destruct (verdict_of 0 (skipn (Z.to_nat declared) data1)) as [[ev [rem' pending|]]|].
      + destruct IH as (done & -> & Hlen). cbn [add_events].
        exists (firstn consumed buf ++ firstn (Z.to_nat declared) data1 ++ done). split.
        * unfold prepend. cbn [consumed_first consumed_second buffer remaining calls].
          f_equal;
            first [ reflexivity
                  | rewrite !length_app, Hhead, length_firstn; lia
                  | rewrite <- !app_assoc; reflexivity
                  | unfold tr1; rewrite <- !app_assoc; reflexivity ].
        * rewrite !length_app, Hhead, length_firstn. lia.
      + cbn [add_events prepend consumed_second calls].
        destruct IH as [-> ->]. split; [reflexivity|].
        unfold tr1. rewrite <- !app_assoc. reflexivity.
      + cbn [add_events prepend consumed_second calls]. exact IH. }
  (* no body *)
  rewrite Hct1.
  rewrite (fence_loop_fuel handlers user (List.length data) (S (List.length data1))) by lia.
  specialize (IH data1 (ct + Z.of_nat consumed)
                 (tr1 ++ [Data [] true]) ltac:(lia) ltac:(lia) ltac:(lia)).
  cbv zeta in IH.
  destruct (verdict_of 0 data1) as [[ev [rem' pending|]]|].
  - destruct IH as (done & -> & Hlen). cbn [add_events].
    exists (firstn consumed buf ++ done). split.
    + unfold prepend. cbn [consumed_first consumed_second buffer remaining calls].
      f_equal;
        first [ reflexivity
              | rewrite !length_app, Hhead; lia
              | rewrite <- !app_assoc; reflexivity
              | unfold tr1; rewrite <- !app_assoc; reflexivity ].
    + rewrite !length_app, Hhead. lia.
  - cbn [add_events prepend consumed_second calls].
    destruct IH as [-> ->]. split; [reflexivity|].
    unfold tr1. rewrite <- !app_assoc. reflexivity.
  - cbn [add_events prepend consumed_second calls]. exact IH.
Qed.

End OneCall.

Ltac nothing_pending :=
  split; [lia|]; split; [intros _; reflexivity|]; split; [constructor|];
  split; [cbn [List.length]; lia|]; exists []; reflexivity.

Lemma add_events_some e r ev v :
  add_events e r = Some (ev, v) -> exists ev1, r = Some (ev1, v) /\ ev = e ++ ev1.
Proof.
  destruct r as [[ev1 v1]|]; cbn [add_events]; [|discriminate].
  intros H. injection H as <- <-. exists ev1. split; reflexivity.
Qed.

(** What [verdict_of] leaves over is an unfinished head that the tokenizer
    has been through, and no body is under way with it. *)
Lemma verdict_of_result (n : nat) :
  forall rem data ev rem' pending,
    (List.length data <= n)%nat ->
    0 <= rem < 1000000000 ->
    bytes_ok data ->
    verdict_of rem data = Some (ev, Goes rem' pending) ->
    0 <= rem' < 1000000000
    /\ (rem' <> 0 -> pending = [])
    /\ bytes_ok pending
    /\ (List.length pending <= List.length data)%nat
    /\ exists slots, getHeaders pending = (O, slots, pending).
Proof.
  induction n as [|n IH]; intros rem data ev rem' pending Hn Hrem Hok H.
  all: try pose proof (Nat.le_0_l (List.length data)) as Hlen0.
  - destruct data; [|cbn in Hn; lia].
    destruct (Z.eq_dec rem 0) as [->|Hnz].
    + rewrite verdict_of_heads in H. cbn in H. injection H as <- <- <-.
      nothing_pending.
    + rewrite verdict_of_body in H by lia. cbn [List.length Z.of_nat] in H.
      replace (0 <=? rem) with true in H by (symmetry; apply Z.leb_le; lia).
      injection H as <- <- <-.
      nothing_pending.
  - destruct (Z.eq_dec rem 0) as [->|Hnz].
    + rewrite verdict_of_heads in H.
      destruct (List.length data =? 0)%nat.
      { injection H as <- <- <-.
        nothing_pending. }
      destruct (getHeaders data) as [[consumed slots] buf] eqn:Htok.
      destruct (getHeaders_extent _ _ _ _ Htok) as [Hbuf Hcons].
      assert (Hokbuf : bytes_ok buf) by (eapply getHeaders_loop_bytes_ok; eassumption).
      destruct (consumed =? 0)%nat eqn:Hzero.
      { apply Nat.eqb_eq in Hzero. subst consumed. injection H as <- <- <-.
        split; [lia|]. split; [intros Hnz; contradiction|]. split; [assumption|].
        split; [lia|]. exists slots.
        pose proof (getHeaders_loop_retry MAX_HEADERS O O data [] slots buf
                      ltac:(rewrite app_nil_r; assumption) Htok) as Hretry.
        rewrite !app_nil_r in Hretry. unfold getHeaders. rewrite Hretry. exact Htok. }
      apply Nat.eqb_neq in Hzero.
      destruct (sv_is_null _); [discriminate|].
      destruct (negb _ && negb _); [discriminate|].
      destruct (negb (sv_length (field_value slots transfer_encoding_name) =? 0)%nat);
        [discriminate|].
      unfold after_request in H. cbv zeta in H.
      assert (Hshort : (List.length (skipn consumed buf) <= n)%nat)
        by (rewrite length_skipn; lia).
      assert (Hok1 : bytes_ok (skipn consumed buf)) by (apply bytes_ok_skipn; assumption).
      destruct (negb (sv_length (field_value slots content_length_name) =? 0)%nat).
      * destruct (toUnsignedInteger _ =? UINT_MAX) eqn:Hmax; [discriminate|].
        apply Z.eqb_neq in Hmax.
        destruct (toUnsignedInteger _ =? 0).
        -- apply add_events_some in H. destruct H as (ev1 & Hrec & _).
           destruct (IH 0 _ _ _ _ Hshort ltac:(lia) Hok1 Hrec) as (H1 & H2 & H3 & H4 & H5).
           rewrite length_skipn in H4.
           split; [assumption|]. split; [assumption|]. split; [assumption|].
           split; [lia | assumption].
        -- apply add_events_some in H. destruct H as (ev1 & Hrec & _).
           destruct (IH _ _ _ _ _ Hshort (toUnsignedInteger_bound _ Hmax) Hok1 Hrec)
             as (H1 & H2 & H3 & H4 & H5).
           rewrite length_skipn in H4.
           split; [assumption|]. split; [assumption|]. split; [assumption|].
           split; [lia | assumption].
      * apply add_events_some in H. destruct H as (ev1 & Hrec & _).
        destruct (IH 0 _ _ _ _ Hshort ltac:(lia) Hok1 Hrec) as (H1 & H2 & H3 & H4 & H5).
        rewrite length_skipn in H4.
        split; [assumption|]. split; [assumption|]. split; [assumption|].
        split; [lia | assumption].
    + rewrite verdict_of_body in H by lia.
      destruct (Z.of_nat (List.length data) <=? rem) eqn:Hfits.
      * apply Z.leb_le in Hfits. injection H as <- <- <-.
        nothing_pending.
      * apply Z.leb_gt in Hfits.
        apply add_events_some in H. destruct H as (ev1 & Hrec & _).
        destruct (IH 0 (skipn (Z.to_nat rem) data) _ _ _
                     ltac:(rewrite length_skipn; lia) ltac:(lia)
                     ltac:(apply bytes_ok_skipn; assumption) Hrec)
          as (H1 & H2 & H3 & H4 & H5).
        rewrite length_skipn in H4.
        split; [assumption|]. split; [assumption|]. split; [assumption|].
        split; [lia | assumption].
Qed.

Section Calls1.

Context `{BF : BloomFilter} `{CE : ChunkedEncoding}.
Variable handlers : Handlers.
Variable user : Z.
Hypothesis Hanswers : answers_user handlers.
Hypothesis Huser : user <> FULLPTR.
Hypothesis Hlengths : lengths_not_chunked.

Lemma consume_heads_outcome data tr :
  Z.of_nat (List.length data) < 2 ^ 32 ->
  clean (made (consume_heads handlers user [] data 0 tr)) = true ->
  outcome user tr (consume_heads handlers user [] data 0 tr) (verdict_of 0 data).
Proof.
  intros Hbound. unfold consume_heads, fenceAndConsumePostPadded.
  pose proof (fence_false_verdict handlers user Hanswers (List.length data) data 0 tr
                ltac:(lia) ltac:(lia) ltac:(lia)) as Hfence.
  cbv zeta in Hfence.
  set (r := fence_loop handlers user (S (List.length data)) false data 0 0 tr) in *.
  destruct (verdict_of 0 data) as [[ev [rem' pending|]]|]; cbn [outcome].
  - destruct Hfence as (done & -> & Hlen).
    cbn [consumed_second consumed_first buffer remaining calls].
    rewrite Z.eqb_refl. cbn [negb].
    replace (Z.to_nat (0 + Z.of_nat (List.length done))) with (List.length done) by lia.
    rewrite skipn_length_app.
    destruct (negb (List.length pending =? 0)%nat) eqn:Hp.
    + destruct (Z.of_nat (List.length pending) <? MAX_FALLBACK_SIZE) eqn:Hfits.
      * intros _. split; [reflexivity | apply Z.ltb_lt; assumption].
      * cbn [made]. rewrite clean_failure. discriminate.
    + intros _. apply negb_false_iff, Nat.eqb_eq in Hp. pose proof Hp as Hnil.
      apply length_zero_iff_nil in Hnil. subst pending.
      split; [reflexivity | cbn; unfold MAX_FALLBACK_SIZE; lia].
  - destruct Hfence as [Hsecond Hcalls]. rewrite Hsecond.
    replace (negb (FULLPTR =? user)) with true
      by (symmetry; apply negb_true_iff, Z.eqb_neq; congruence).
    intros _. cbn [returned made]. split; [reflexivity | assumption].
  - intros Hclean.
    assert (Hc : clean (calls r) = true).
    { destruct (negb (consumed_second r =? user)); [exact Hclean|].
      destruct (negb (List.length _ =? 0)%nat); [|exact Hclean].
      destruct (_ <? MAX_FALLBACK_SIZE); [exact Hclean|].
      cbn [made] in Hclean. rewrite clean_failure in Hclean. discriminate. }
    rewrite Hfence in Hc. discriminate.
Qed.

(** A body under way with [rem] bytes to come. *)
Lemma consume_body_step data rem tr :
  0 < rem < 1000000000 ->
  consume_body handlers user [] data rem tr
  = if Z.of_nat (List.length data) <=? rem
    then mkConsumption user (mkParser [] (rem - Z.of_nat (List.length data)))
                       (tr ++ [Data data (rem =? Z.of_nat (List.length data))])
    else consume_heads handlers user [] (skipn (Z.to_nat rem) data) 0
                       (tr ++ [Data (firstn (Z.to_nat rem) data) true]).
Proof.
  intros Hrem. unfold consume_body. rewrite (Hlengths rem Hrem).
  destruct Hanswers as [_ Hdata]. rewrite !Hdata, Z.eqb_refl. cbn [negb].
  destruct (Z.of_nat (List.length data) <=? rem) eqn:Hfits; [|reflexivity].
  apply Z.leb_le in Hfits. unfold wrap32. rewrite Z.mod_small by lia. reflexivity.
Qed.

Lemma consume_body_outcome data rem tr :
  0 < rem < 1000000000 ->
  Z.of_nat (List.length data) < 2 ^ 32 ->
  clean (made (consume_body handlers user [] data rem tr)) = true ->
  outcome user tr (consume_body handlers user [] data rem tr) (verdict_of rem data).
Proof.
  intros Hrem Hbound.
  rewrite consume_body_step, verdict_of_body by lia.
  destruct (Z.of_nat (List.length data) <=? rem).
  - intros _. cbn [outcome]. split; [reflexivity | cbn; unfold MAX_FALLBACK_SIZE; lia].
  - intros Hclean.
    assert (Hb : Z.of_nat (List.length (skipn (Z.to_nat rem) data)) < 2 ^ 32)
      by (rewrite length_skipn; lia).
    pose proof (consume_heads_outcome _ _ Hb Hclean) as Hout.
    destruct (verdict_of 0 (skipn (Z.to_nat rem) data)) as [[ev [rem' pending|]]|];
      cbn [outcome add_events] in *.
    + destruct Hout as [-> Hfits]. split; [|assumption].
      rewrite <- app_assoc. reflexivity.
    + destruct Hout as [-> ->]. split; [reflexivity|].
      rewrite <- app_assoc. reflexivity.
    + exact Hout.
Qed.

End Calls1.

(** The bytes after a tokenized head are left as they were. *)
Lemma getHeaders_tail X consumed slots buf :
  bytes_ok X ->
  getHeaders X = (consumed, slots, buf) -> consumed <> O ->
  skipn consumed buf = skipn consumed X.
Proof.
  intros Hok Htok Hc. unfold getHeaders in *.
  pose proof (getHeaders_loop_restrict _ _ _ _ _ _ _ Hok Htok Hc) as Hhead.
  rewrite Nat.sub_0_r in Hhead.
  pose proof (getHeaders_loop_extend _ _ _ _ (skipn consumed X) _ _ _
                ltac:(rewrite firstn_skipn; exact Hok) Hhead Hc) as Hwhole.
  rewrite firstn_skipn, Htok in Hwhole. injection Hwhole as Hbuf.
  destruct (getHeaders_loop_extent _ _ _ _ _ _ _ Htok) as [Hlen [Hz|Hext]]; [contradiction|].
  assert (Hl : List.length (firstn consumed buf) = consumed).
  { rewrite length_firstn. apply Nat.min_l. rewrite Hlen. lia. }
  rewrite Hbuf at 1. rewrite <- Hl at 1. apply skipn_length_app.
Qed.

Lemma skipn_firstn_rest {A} (k m : nat) (l : list A) :
  (k <= m)%nat -> skipn k (firstn m l) ++ skipn m l = skipn k l.
Proof.
  intros H. rewrite <- (firstn_skipn m l) at 3.
  destruct (Nat.le_gt_cases m (List.length l)) as [Hm|Hm].
  - rewrite skipn_app_le by (rewrite length_firstn; apply Nat.min_glb; lia). reflexivity.
  - assert (Hf : firstn m l = l) by (apply firstn_all2; lia).
    assert (Hs : skipn m l = []) by (apply skipn_all2; lia).
    rewrite Hf, Hs, !app_nil_r. reflexivity.
Qed.

Section Extend.

Context `{BF : BloomFilter} `{CE : ChunkedEncoding}.
Variable handlers : Handlers.
Variable user : Z.

Lemma consume_heads_extend fallback0 data rem tr :
  exists more, made (consume_heads handlers user fallback0 data rem tr) = tr ++ more.
Proof.
  unfold consume_heads, fenceAndConsumePostPadded.
  destruct (fence_loop_calls_extend handlers user (S (List.length data)) false data 0 rem tr)
    as [more Hmore].
  repeat match goal with
  | |- context [if ?b then _ else _] => destruct b
  end; cbn [made]; rewrite Hmore; try (eexists; reflexivity).
  eexists. rewrite <- app_assoc. reflexivity.
Qed.

Lemma consume_body_extend fallback0 data rem tr :
  exists more, made (consume_body handlers user fallback0 data rem tr) = tr ++ more.
Proof.
  unfold consume_body.
  destruct (isParsingChunkedEncoding rem).
  - destruct (ChunkIterator data rem) as [[chunks taken] state].
    destruct (isParsingInvalidChunkedEncoding state); [eexists; reflexivity|].
    destruct (consume_heads_extend fallback0 (skipn taken data) state
                (tr ++ chunk_events chunks)) as [more ->].
    eexists. rewrite <- app_assoc. reflexivity.
  - destruct (_ <=? rem); [eexists; reflexivity|].
    destruct (negb _); [eexists; reflexivity|].
    destruct (consume_heads_extend fallback0 (skipn (Z.to_nat rem) data) 0
                (tr ++ [Data (firstn (Z.to_nat rem) data) true])) as [more ->].
    eexists. rewrite <- app_assoc. reflexivity.
Qed.

End Extend.

Section Calls2.

Context `{BF : BloomFilter} `{CE : ChunkedEncoding}.
Variable handlers : Handlers.
Variable user : Z.
Hypothesis Hanswers : answers_user handlers.
Hypothesis Huser : user <> FULLPTR.
Hypothesis Hlengths : lengths_not_chunked.

(** A call that completes, or goes on buffering, the head held in the
    fallback buffer comes to what the buffer and the new bytes ask for
    together, unless it slips. *)
Lemma fallback_call_outcome F A tr :
  F <> [] ->
  bytes_ok (F ++ A) ->
  Z.of_nat (List.length F) < MAX_FALLBACK_SIZE ->
  (exists slots, getHeaders F = (O, slots, F)) ->
  Z.of_nat (List.length A) < 2 ^ 32 ->
  slips (mkParser F 0) A = false ->
  clean (made (consumePostPadded handlers user (mkParser F 0) tr A)) = true ->
  outcome user tr (consumePostPadded handlers user (mkParser F 0) tr A)
          (verdict_of 0 (F ++ A)).
Proof.
  intros HF Hok Hcap [slotsF HpendF] Hbound Hslip.
  unfold slips, maxCopyDistance in Hslip.
  unfold consumePostPadded.
  cbn [remainingStreamingBytes fallback Z.eqb negb andb] in *.
  destruct (List.length F =? 0)%nat eqn:HF0.
  { apply Nat.eqb_eq, length_zero_iff_nil in HF0. contradiction. }
  apply Nat.eqb_neq in HF0. cbn [negb andb] in *.
  unfold MAX_FALLBACK_SIZE in Hcap.
  assert (Hw : wrap64 (MAX_FALLBACK_SIZE - Z.of_nat (List.length F))
               = 4096 - Z.of_nat (List.length F))
    by (unfold wrap64, MAX_FALLBACK_SIZE; rewrite Z.mod_small; lia).
  rewrite Hw in *. clear Hw.
  remember (Z.to_nat (Z.min (4096 - Z.of_nat (List.length F)) (Z.of_nat (List.length A))))
    as m eqn:Hm.
  assert (Hm1 : (m <= List.length A)%nat) by lia.
  assert (Hm2 : (List.length F + m <= 4096)%nat) by lia.
  assert (Hm3 : (List.length F + m < 4096)%nat -> m = List.length A) by lia.
  clear Hm.
  set (F1 := F ++ firstn m A) in *.
  assert (HA : F ++ A = F1 ++ skipn m A)
    by (unfold F1; rewrite <- app_assoc, firstn_skipn; reflexivity).
  assert (HokF1 : bytes_ok F1).
  { rewrite HA in Hok. apply Forall_app in Hok. tauto. }
  assert (HlenF1 : List.length F1 = (List.length F + m)%nat).
  { unfold F1. rewrite length_app, length_firstn. lia. }
  unfold fenceAndConsumePostPadded. cbn [fence_loop].
  destruct (List.length F1 =? 0)%nat eqn:HF10; [apply Nat.eqb_eq in HF10; lia|].
  destruct (getHeaders F1) as [[c slots] buf] eqn:Htok.
  destruct (getHeaders_extent _ _ _ _ Htok) as [Hbuf Hcons].
  destruct (c =? 0)%nat eqn:Hzero.
  { (* the head is still unfinished *)
    apply Nat.eqb_eq in Hzero. subst c.
    cbn [consumed_second consumed_first buffer remaining calls].
    rewrite Z.eqb_refl. cbn [negb Z.eqb].
    destruct (Z.of_nat (List.length buf) =? MAX_FALLBACK_SIZE) eqn:Hfull.
    { cbn [made]. rewrite clean_failure. discriminate. }
    intros _. apply Z.eqb_neq in Hfull. unfold MAX_FALLBACK_SIZE in Hfull.
    assert (HmA : m = List.length A) by (apply Hm3; lia).
    assert (HF1A : F1 = F ++ A) by (unfold F1; rewrite HmA, firstn_all; reflexivity).
    rewrite verdict_of_heads, <- HF1A, HF10, Htok. cbn [Nat.eqb outcome].
    split; [rewrite app_nil_r; reflexivity | unfold MAX_FALLBACK_SIZE; lia]. }
  cbn [negb andb] in Hslip.
  apply Nat.eqb_neq in Hzero.
  assert (Hreach : (List.length F < c)%nat).
  { eapply (getHeaders_pending F (firstn m A));
      [exact HokF1 | exact HpendF | exact Htok | exact Hzero]. }
  assert (Hwhole : getHeaders (F ++ A) = (c, slots, buf ++ skipn m A)).
  { rewrite HA. unfold getHeaders in *.
    apply getHeaders_loop_extend; [rewrite <- HA; exact Hok | exact Htok | exact Hzero]. }
  assert (Hdata1 : skipn c (buf ++ skipn m A) = skipn (c - List.length F) A).
  { rewrite skipn_app_le by lia.
    rewrite (getHeaders_tail F1 c slots buf HokF1 Htok Hzero).
    unfold F1. rewrite skipn_app, skipn_all2 by lia. cbn [app].
    apply skipn_firstn_rest. lia. }
  assert (Hwrap : Z.to_nat (wrap32 (wrap32 (0 + Z.of_nat c) - Z.of_nat (List.length F)))
                  = (c - List.length F)%nat).
  { unfold wrap32. rewrite (Z.mod_small (0 + Z.of_nat c)) by lia.
    rewrite Z.mod_small by lia. lia. }
  assert (Hfirst : (wrap32 (0 + Z.of_nat c) =? 0) = false).
  { apply Z.eqb_neq. unfold wrap32. rewrite Z.mod_small by lia. lia. }
  assert (Hrest : Z.of_nat (List.length (skipn (c - List.length F) A)) < 2 ^ 32)
    by (rewrite length_skipn; lia).
  assert (Hnonempty : (List.length (F ++ A) =? 0)%nat = false).
  { apply Nat.eqb_neq. rewrite length_app. lia. }
  rewrite verdict_of_heads, Hnonempty, Hwhole.
  replace (c =? 0)%nat with false by (symmetry; apply Nat.eqb_neq; assumption).
  cbv zeta. rewrite Hdata1.
  rewrite (getHeader_field_value slots host_name host_name_nonzero).
  destruct (sv_is_null (field_value slots host_name)).
  { cbn [consumed_second returned]. rewrite fullptr_is_not_user by assumption.
    intros _. cbn [outcome returned made calls]. rewrite app_nil_r.
    split; reflexivity. }
  cbn [negb andb] in Hslip.
  rewrite (getHeader_field_value slots _ transfer_encoding_name_nonzero).
  rewrite (getHeader_field_value slots _ content_length_name_nonzero).
  fold (separator_of slots).
  destruct (negb (sv_length (field_value slots transfer_encoding_name) =? 0)%nat) eqn:Hte.
  { (* a transfer-encoding: refused, or no verdict *)
    cbn [andb].
    destruct (negb (sv_length (field_value slots content_length_name) =? 0)%nat).
    { cbn [consumed_second returned]. rewrite fullptr_is_not_user by assumption.
      intros _. cbn [outcome returned made calls]. rewrite app_nil_r.
      split; reflexivity. }
    rewrite (request_answer handlers user Hanswers).
    cbn [consumed_second consumed_first buffer remaining calls].
    rewrite Z.eqb_refl, Hfirst. cbn [negb outcome].
    intros Hclean.
    assert (Hreq : clean (tr ++ [Request slots (separator_of slots)]) = true).
    { destruct (negb (STATE_IS_CHUNKED =? 0)).
      - destruct (consume_body_extend handlers user []
                    (skipn (Z.to_nat (wrap32 (wrap32 (0 + Z.of_nat c)
                                              - Z.of_nat (List.length F)))) A)
                    STATE_IS_CHUNKED (tr ++ [Request slots (separator_of slots)]))
          as [more Hmore].
        rewrite Hmore in Hclean. apply clean_prefix in Hclean. exact Hclean.
      - destruct (consume_heads_extend handlers user []
                    (skipn (Z.to_nat (wrap32 (wrap32 (0 + Z.of_nat c)
                                              - Z.of_nat (List.length F)))) A)
                    STATE_IS_CHUNKED (tr ++ [Request slots (separator_of slots)]))
          as [more Hmore].
        rewrite Hmore in Hclean. apply clean_prefix in Hclean. exact Hclean. }
    rewrite clean_app in Hreq. apply andb_true_iff in Hreq. destruct Hreq as [_ Hreq].
    cbn [clean forallb clean_event] in Hreq. rewrite andb_true_r in Hreq.
    rewrite Hreq in Hte. discriminate. }
  apply negb_false_iff in Hte. rewrite Hte in Hslip.
  cbn [andb negb]. rewrite (request_answer handlers user Hanswers).
  unfold after_request. cbv zeta.
  destruct (negb (sv_length (field_value slots content_length_name) =? 0)%nat) eqn:Hcl.
  { (* a declared length *)
    cbn [andb] in Hslip.
    set (declared := toUnsignedInteger (sv_bytes (field_value slots content_length_name)))
      in *.
    destruct (declared =? UINT_MAX) eqn:Hmax.
    { cbn [consumed_second returned]. rewrite fullptr_is_not_user by assumption.
      intros _. cbn [outcome returned made calls]. split; reflexivity. }
    apply Z.eqb_neq in Hmax.
    pose proof (toUnsignedInteger_bound _ Hmax) as Hrange. fold declared in Hrange.
    cbn [orb consumed_second consumed_first buffer remaining calls].
    rewrite Z.eqb_refl, Hfirst, Hwrap. cbn [negb].
    rewrite Hslip. cbn [negb].
    apply Z.eqb_neq in Hslip. intros Hclean.
    pose proof (consume_body_outcome handlers user Hanswers Huser Hlengths _ declared _
                  ltac:(lia) Hrest Hclean) as Hout.
    destruct (verdict_of declared (skipn (c - List.length F) A)) as [[ev [rem' pending|]]|];
      cbn [outcome add_events] in *.
    - destruct Hout as [-> Hfits]. split; [|assumption].
      rewrite <- app_assoc. reflexivity.
    - destruct Hout as [-> ->]. split; [reflexivity|].
      rewrite <- app_assoc. reflexivity.
    - exact Hout. }
  (* no body *)
  cbn [consumed_second consumed_first buffer remaining calls].
  rewrite Z.eqb_refl, Hfirst, Hwrap. cbn [negb Z.eqb]. intros Hclean.
  pose proof (consume_heads_outcome handlers user Hanswers Huser _ _ Hrest Hclean) as Hout.
  destruct (verdict_of 0 (skipn (c - List.length F) A)) as [[ev [rem' pending|]]|];
    cbn [outcome add_events] in *.
  - destruct Hout as [-> Hfits]. split; [|assumption].
    rewrite <- !app_assoc. reflexivity.
  - destruct Hout as [-> ->]. split; [reflexivity|].
    rewrite <- !app_assoc. reflexivity.
  - exact Hout.
Qed.

End Calls2.

(** ** Joining data chunks *)

Lemma coalesce_cons_congr e l l' :
  coalesce l = coalesce l' -> coalesce (e :: l) = coalesce (e :: l').
Proof. intros H. destruct e; cbn [coalesce]; rewrite H; reflexivity. Qed.

Lemma coalesce_app_congr p l l' :
  coalesce l = coalesce l' -> coalesce (p ++ l) = coalesce (p ++ l').
Proof.
  intros H. induction p as [|e p IH]; [exact H|].
  cbn [app]. apply coalesce_cons_congr. exact IH.
Qed.

Lemma coalesce_join a b e1 e2 rest :
  coalesce (Data (a ++ b) (e1 || e2) :: rest)
  = coalesce (Data a e1 :: Data b e2 :: rest).
Proof.
  cbn [coalesce]. destruct (coalesce rest) as [|[s q|c e|] r]; try reflexivity.
  rewrite app_assoc, orb_assoc. reflexivity.
Qed.

Lemma verdict_of_merge (n : nat) :
  forall rem A B ev1 rem1 P1 ev2 v2,
    (List.length A <= n)%nat ->
    0 <= rem < 1000000000 ->
    bytes_ok (A ++ B) ->
    verdict_of rem A = Some (ev1, Goes rem1 P1) ->
    verdict_of rem1 (P1 ++ B) = Some (ev2, v2) ->
    exists ev,
      verdict_of rem (A ++ B) = Some (ev, v2)
      /\ coalesce ev = coalesce (ev1 ++ ev2).
Proof.
  induction n as [|n IH]; intros rem A B ev1 rem1 P1 ev2 v2 Hn Hrem Hok H1 H2.
  all: assert (HokA : bytes_ok A) by (apply Forall_app in Hok; tauto).
  all: assert (HokB : bytes_ok B) by (apply Forall_app in Hok; tauto).
  all: destruct (Z.eq_dec rem 0) as [->|Hnz].
  - (* no bytes, at a head *)
    destruct A; [|cbn in Hn; lia].
    rewrite verdict_of_heads in H1. cbn in H1. injection H1 as <- <- <-.
    exists ev2. split; [exact H2 | reflexivity].
  - (* no bytes, in a body *)
    destruct A; [|cbn in Hn; lia].
    rewrite verdict_of_body in H1 by lia. cbn [List.length Z.of_nat] in H1.
    replace (0 <=? rem) with true in H1 by (symmetry; apply Z.leb_le; lia).
    injection H1 as <- <- <-. rewrite Z.sub_0_r in H2. cbn [app] in *.
    rewrite verdict_of_body in * by lia.
    destruct (Z.of_nat (List.length B) <=? rem) eqn:Hfits.
    + injection H2 as <- <-. eexists. split; [reflexivity|].
      replace (rem =? 0) with false by (symmetry; apply Z.eqb_neq; assumption).
      rewrite <- (coalesce_join [] B false). reflexivity.
    + apply add_events_some in H2. destruct H2 as (ev0 & -> & ->). cbn [add_events].
      eexists. split; [reflexivity|].
      replace (rem =? 0) with false by (symmetry; apply Z.eqb_neq; assumption).
      cbn [app]. rewrite <- (coalesce_join [] _ false true). reflexivity.
  - (* at a head *)
    rewrite verdict_of_heads in H1.
    destruct (List.length A =? 0)%nat eqn:HnilA.
    { apply Nat.eqb_eq, length_zero_iff_nil in HnilA. subst A.
      injection H1 as <- <- <-. exists ev2. split; [exact H2 | reflexivity]. }
    destruct (getHeaders A) as [[consumed slots] buf] eqn:Htok.
    destruct (getHeaders_extent _ _ _ _ Htok) as [Hbuf Hcons].
    assert (Hokbuf : bytes_ok buf)
      by exact (getHeaders_loop_bytes_ok _ _ _ _ _ _ _ HokA Htok).
    assert (Hnil : (List.length (A ++ B) =? 0)%nat = false).
    { apply Nat.eqb_neq in HnilA. apply Nat.eqb_neq. rewrite length_app. lia. }
    destruct (consumed =? 0)%nat eqn:Hzero.
    { (* an unfinished head *)
      apply Nat.eqb_eq in Hzero. subst consumed. injection H1 as <- <- <-.
      exists ev2. split; [|reflexivity].
      rewrite verdict_of_heads in H2. rewrite verdict_of_heads.
      rewrite length_app, Hbuf, <- length_app in H2.
      unfold getHeaders in *.
      rewrite (getHeaders_loop_retry _ _ _ A B slots buf Hok Htok) in H2.
      exact H2. }
    apply Nat.eqb_neq in Hzero.
    assert (Hwhole : getHeaders (A ++ B) = (consumed, slots, buf ++ B)).
    { unfold getHeaders in *. apply getHeaders_loop_extend; assumption. }
    rewrite verdict_of_heads, Hnil, Hwhole.
    replace (consumed =? 0)%nat with false by (symmetry; apply Nat.eqb_neq; assumption).
    destruct (sv_is_null _); [discriminate|].
    destruct (negb _ && negb _); [discriminate|].
    destruct (negb (sv_length (field_value slots transfer_encoding_name) =? 0)%nat);
      [discriminate|].
    unfold after_request in *. cbv zeta in *. rewrite skipn_app_le by lia.
    assert (Hshort : (List.length (skipn consumed buf) <= n)%nat)
      by (rewrite length_skipn; lia).
    assert (Hok1 : bytes_ok (skipn consumed buf ++ B))
      by (apply bytes_ok_app; [apply bytes_ok_skipn|]; assumption).
    destruct (negb (sv_length (field_value slots content_length_name) =? 0)%nat).
    + destruct (toUnsignedInteger _ =? UINT_MAX) eqn:Hmax; [discriminate|].
      apply Z.eqb_neq in Hmax.
      destruct (toUnsignedInteger _ =? 0).
      { apply add_events_some in H1. destruct H1 as (ev0 & Hrec & ->).
        destruct (IH 0 _ B _ _ _ _ _ Hshort ltac:(lia) Hok1 Hrec H2) as (ev & -> & Hev).
        cbn [add_events]. eexists. split; [reflexivity|].
        apply (coalesce_app_congr [_; _]). exact Hev. }
      apply add_events_some in H1. destruct H1 as (ev0 & Hrec & ->).
      destruct (IH _ _ B _ _ _ _ _ Hshort (toUnsignedInteger_bound _ Hmax) Hok1 Hrec H2)
        as (ev & -> & Hev).
      cbn [add_events]. eexists. split; [reflexivity|].
      apply (coalesce_app_congr [_]). exact Hev.
    + apply add_events_some in H1. destruct H1 as (ev0 & Hrec & ->).
      destruct (IH 0 _ B _ _ _ _ _ Hshort ltac:(lia) Hok1 Hrec H2) as (ev & -> & Hev).
      cbn [add_events]. eexists. split; [reflexivity|].
      apply (coalesce_app_congr [_; _]). exact Hev.
  - (* in a body *)
    rewrite verdict_of_body in H1 by lia.
    destruct (Z.of_nat (List.length A) <=? rem) eqn:HfitsA.
    + (* the body outlasts the first piece *)
      apply Z.leb_le in HfitsA. injection H1 as <- <- <-. cbn [app] in H2.
      rewrite verdict_of_body by lia. rewrite length_app, Nat2Z.inj_add.
      destruct (Z.eq_dec (rem - Z.of_nat (List.length A)) 0) as [Hdone|Hmore].
      * (* and ends with it *)
        rewrite Hdone in H2.
        replace (rem =? Z.of_nat (List.length A)) with true
          by (symmetry; apply Z.eqb_eq; lia).
        destruct B as [|b B].
        -- rewrite verdict_of_heads in H2. cbn in H2. injection H2 as <- <-.
           cbn [List.length Z.of_nat]. rewrite Z.add_0_r.
           replace (Z.of_nat (List.length A) <=? rem) with true
             by (symmetry; apply Z.leb_le; lia).
           rewrite Hdone. eexists. split; [reflexivity|].
           rewrite !app_nil_r.
           replace (rem =? Z.of_nat (List.length A)) with true
             by (symmetry; apply Z.eqb_eq; lia).
           reflexivity.
        -- replace (Z.of_nat (List.length A) + Z.of_nat (List.length (b :: B)) <=? rem)
             with false by (symmetry; apply Z.leb_gt; cbn [List.length]; lia).
           replace (Z.to_nat rem) with (List.length A + 0)%nat by lia.
           rewrite firstn_app_plus, skipn_app_plus. cbn [firstn skipn].
           rewrite H2. cbn [add_events]. eexists. split; [reflexivity|].
           rewrite app_nil_r. reflexivity.
      * (* and goes on in the second *)
        rewrite verdict_of_body in H2 by lia.
        replace (rem =? Z.of_nat (List.length A)) with false
          by (symmetry; apply Z.eqb_neq; lia).
        destruct (Z.of_nat (List.length B) <=? rem - Z.of_nat (List.length A)) eqn:HfitsB.
        -- apply Z.leb_le in HfitsB. injection H2 as <- <-.
           replace (Z.of_nat (List.length A) + Z.of_nat (List.length B) <=? rem)
             with true by (symmetry; apply Z.leb_le; lia).
           replace (rem - (Z.of_nat (List.length A) + Z.of_nat (List.length B)))
             with (rem - Z.of_nat (List.length A) - Z.of_nat (List.length B)) by lia.
           eexists. split; [reflexivity|].
           cbn [app]. rewrite <- coalesce_join. cbn [orb].
           replace (rem - Z.of_nat (List.length A) =? Z.of_nat (List.length B))
             with (rem =? Z.of_nat (List.length A) + Z.of_nat (List.length B)); [reflexivity|].
           destruct (Z.eqb_spec rem (Z.of_nat (List.length A) + Z.of_nat (List.length B)));
             symmetry; [apply Z.eqb_eq | apply Z.eqb_neq]; lia.
        -- apply Z.leb_gt in HfitsB.
           apply add_events_some in H2. destruct H2 as (ev0 & Hrec & ->).
           replace (Z.of_nat (List.length A) + Z.of_nat (List.length B) <=? rem)
             with false by (symmetry; apply Z.leb_gt; lia).
           replace (Z.to_nat rem)
             with (List.length A + Z.to_nat (rem - Z.of_nat (List.length A)))%nat by lia.
           rewrite firstn_app_plus, skipn_app_plus, Hrec. cbn [add_events].
           eexists. split; [reflexivity|].
           cbn [app]. rewrite <- coalesce_join. reflexivity.
    + (* the body ends in the first piece *)
      apply Z.leb_gt in HfitsA.
      apply add_events_some in H1. destruct H1 as (ev0 & Hrec & ->).
      rewrite verdict_of_body by lia. rewrite length_app, Nat2Z.inj_add.
      replace (Z.of_nat (List.length A) + Z.of_nat (List.length B) <=? rem)
        with false by (symmetry; apply Z.leb_gt; lia).
      rewrite firstn_app_le, skipn_app_le by lia.
      destruct (IH 0 (skipn (Z.to_nat rem) A) B _ _ _ _ _
                   ltac:(rewrite length_skipn; lia) ltac:(lia)
                   ltac:(apply bytes_ok_app; [apply bytes_ok_skipn|]; assumption)
                   Hrec H2) as (ev & -> & Hev).
      cbn [add_events]. eexists. split; [reflexivity|].
      apply (coalesce_app_congr [_]). exact Hev.
Qed.

(** A refusal stands, whatever bytes follow. *)
Lemma verdict_of_refused (n : nat) :
  forall rem A B ev,
    (List.length A <= n)%nat ->
    0 <= rem < 1000000000 ->
    bytes_ok (A ++ B) ->
    verdict_of rem A = Some (ev, Refused) ->
    verdict_of rem (A ++ B) = Some (ev, Refused).
Proof.
  induction n as [|n IH]; intros rem A B ev Hn Hrem Hok H1.
  all: assert (HokA : bytes_ok A) by (apply Forall_app in Hok; tauto).
  all: assert (HokB : bytes_ok B) by (apply Forall_app in Hok; tauto).
  all: destruct (Z.eq_dec rem 0) as [->|Hnz].
  - destruct A; [|cbn in Hn; lia].
    rewrite verdict_of_heads in H1. cbn in H1. discriminate.
  - destruct A; [|cbn in Hn; lia].
    rewrite verdict_of_body in H1 by lia. cbn [List.length Z.of_nat] in H1.
    replace (0 <=? rem) with true in H1 by (symmetry; apply Z.leb_le; lia).
    discriminate.
  - (* at a head *)
    rewrite verdict_of_heads in H1.
    destruct (List.length A =? 0)%nat eqn:HnilA; [discriminate|].
    destruct (getHeaders A) as [[consumed slots] buf] eqn:Htok.
    destruct (getHeaders_extent _ _ _ _ Htok) as [Hbuf Hcons].
    assert (Hokbuf : bytes_ok buf)
      by exact (getHeaders_loop_bytes_ok _ _ _ _ _ _ _ HokA Htok).
    assert (Hnil : (List.length (A ++ B) =? 0)%nat = false).
    { apply Nat.eqb_neq in HnilA. apply Nat.eqb_neq. rewrite length_app. lia. }
    destruct (consumed =? 0)%nat eqn:Hzero; [discriminate|].
    apply Nat.eqb_neq in Hzero.
    assert (Hwhole : getHeaders (A ++ B) = (consumed, slots, buf ++ B)).
    { unfold getHeaders in *. apply getHeaders_loop_extend; assumption. }
    rewrite verdict_of_heads, Hnil, Hwhole.
    replace (consumed =? 0)%nat with false by (symmetry; apply Nat.eqb_neq; assumption).
    destruct (sv_is_null _); [exact H1|].
    destruct (negb _ && negb _); [exact H1|].
    destruct (negb (sv_length (field_value slots transfer_encoding_name) =? 0)%nat);
      [discriminate|].
    unfold after_request in *. cbv zeta in *. rewrite skipn_app_le by lia.
    assert (Hshort : (List.length (skipn consumed buf) <= n)%nat)
      by (rewrite length_skipn; lia).
    assert (Hok1 : bytes_ok (skipn consumed buf ++ B))
      by (apply bytes_ok_app; [apply bytes_ok_skipn|]; assumption).
    destruct (negb (sv_length (field_value slots content_length_name) =? 0)%nat).
    + destruct (toUnsignedInteger _ =? UINT_MAX) eqn:Hmax; [exact H1|].
      apply Z.eqb_neq in Hmax.
      destruct (toUnsignedInteger _ =? 0).
      * apply add_events_some in H1. destruct H1 as (ev0 & Hrec & ->).
        rewrite (IH 0 _ B _ Hshort ltac:(lia) Hok1 Hrec). reflexivity.
      * apply add_events_some in H1. destruct H1 as (ev0 & Hrec & ->).
        rewrite (IH _ _ B _ Hshort (toUnsignedInteger_bound _ Hmax) Hok1 Hrec).
        reflexivity.
    + apply add_events_some in H1. destruct H1 as (ev0 & Hrec & ->).
      rewrite (IH 0 _ B _ Hshort ltac:(lia) Hok1 Hrec). reflexivity.
  - (* in a body *)
    rewrite verdict_of_body in H1 by lia.
    destruct (Z.of_nat (List.length A) <=? rem) eqn:HfitsA; [discriminate|].
    apply Z.leb_gt in HfitsA.
    apply add_events_some in H1. destruct H1 as (ev0 & Hrec & ->).
    rewrite verdict_of_body by lia. rewrite length_app, Nat2Z.inj_add.
    replace (Z.of_nat (List.length A) + Z.of_nat (List.length B) <=? rem)
      with false by (symmetry; apply Z.leb_gt; lia).
    rewrite firstn_app_le, skipn_app_le by lia.
    rewrite (IH 0 (skipn (Z.to_nat rem) A) B _
               ltac:(rewrite length_skipn; lia) ltac:(lia)
               ltac:(apply bytes_ok_app; [apply bytes_ok_skipn|]; assumption) Hrec).
    reflexivity.
Qed.

(** ** A stream handed over in any number of pieces *)

Section Pieces.

Context `{BF : BloomFilter} `{CE : ChunkedEncoding}.
Variable handlers : Handlers.
Variable user : Z.
Hypothesis Hanswers : answers_user handlers.
Hypothesis Huser : user <> FULLPTR.
Hypothesis Hlengths : lengths_not_chunked.

Lemma consumePostPadded_extend p tr data :
  exists more, made (consumePostPadded handlers user p tr data) = tr ++ more.
Proof.
  unfold consumePostPadded.
  destruct (negb (remainingStreamingBytes p =? 0)); [apply consume_body_extend|].
  destruct (negb (List.length (fallback p) =? 0)%nat); [|apply consume_heads_extend].
  cbv zeta. unfold fenceAndConsumePostPadded.
  match goal with
  | |- context [fence_loop handlers user ?f true ?d 0 ?r tr] =>
      destruct (fence_loop_calls_extend handlers user f true d 0 r tr) as [more Hmore];
      set (c := fence_loop handlers user f true d 0 r tr) in *
  end.
  destruct (negb (consumed_second c =? user)); [cbn [made]; eauto|].
  destruct (negb (consumed_first c =? 0)).
  - destruct (negb (remaining c =? 0)).
    + match goal with
      | |- context [consume_body handlers user [] ?d ?r (calls c)] =>
          destruct (consume_body_extend handlers user [] d r (calls c)) as [more' ->]
      end.
      rewrite Hmore, <- app_assoc. eauto.
    + match goal with
      | |- context [consume_heads handlers user [] ?d ?r (calls c)] =>
          destruct (consume_heads_extend handlers user [] d r (calls c)) as [more' ->]
      end.
      rewrite Hmore, <- app_assoc. eauto.
  - destruct (_ =? MAX_FALLBACK_SIZE); cbn [made]; rewrite Hmore, <- ?app_assoc; eauto.
Qed.

Lemma consume_all_extend chunks :
  forall p tr, exists more, made (consume_all handlers user p tr chunks) = tr ++ more.
Proof.
  induction chunks as [|data later IH]; intros p tr; cbn [consume_all].
  - exists []. cbn. rewrite app_nil_r. reflexivity.
  - destruct (consumePostPadded_extend p tr data) as [more Hmore].
    destruct (returned _ =? user); [|eauto].
    destruct (IH (parser (consumePostPadded handlers user p tr data))
                 (made (consumePostPadded handlers user p tr data))) as [more' ->].
    rewrite Hmore, <- app_assoc. eauto.
Qed.

End Pieces.

Section Verdicts.

Context `{BF : BloomFilter} `{CE : ChunkedEncoding}.
Variable handlers : Handlers.
Variable user : Z.
Hypothesis Hanswers : answers_user handlers.
Hypothesis Huser : user <> FULLPTR.
Hypothesis Hlengths : lengths_not_chunked.

(** A delivered stream whose verdict is known. *)
Lemma consume_heads_goes data tr ev rem' pending :
  Z.of_nat (List.length data) < 2 ^ 32 ->
  verdict_of 0 data = Some (ev, Goes rem' pending) ->
  Z.of_nat (List.length pending) < MAX_FALLBACK_SIZE ->
  consume_heads handlers user [] data 0 tr
  = mkConsumption user (mkParser pending rem') (tr ++ ev).
Proof.
  intros Hbound Hverdict Hfits. unfold consume_heads, fenceAndConsumePostPadded.
  pose proof (fence_false_verdict handlers user Hanswers (List.length data) data 0 tr
                ltac:(lia) ltac:(lia) ltac:(lia)) as Hfence.
  cbv zeta in Hfence. rewrite Hverdict in Hfence. destruct Hfence as (done & -> & Hlen).
  cbn [consumed_second consumed_first buffer remaining calls].
  rewrite Z.eqb_refl. cbn [negb].
  replace (Z.to_nat (0 + Z.of_nat (List.length done))) with (List.length done) by lia.
  rewrite skipn_length_app.
  replace (Z.of_nat (List.length pending) <? MAX_FALLBACK_SIZE) with true
    by (symmetry; apply Z.ltb_lt; assumption).
  destruct pending as [|b pending]; reflexivity.
Qed.

Lemma consume_heads_refused data tr ev :
  Z.of_nat (List.length data) < 2 ^ 32 ->
  verdict_of 0 data = Some (ev, Refused) ->
  returned (consume_heads handlers user [] data 0 tr) = FULLPTR
  /\ made (consume_heads handlers user [] data 0 tr) = tr ++ ev.
Proof.
  intros Hbound Hverdict. unfold consume_heads, fenceAndConsumePostPadded.
  pose proof (fence_false_verdict handlers user Hanswers (List.length data) data 0 tr
                ltac:(lia) ltac:(lia) ltac:(lia)) as Hfence.
  cbv zeta in Hfence. rewrite Hverdict in Hfence. destruct Hfence as [Hsecond Hcalls].
  rewrite Hsecond.
  replace (negb (FULLPTR =? user)) with true
    by (symmetry; apply negb_true_iff, Z.eqb_neq; congruence).
  cbn [returned made]. split; [reflexivity | assumption].
Qed.

(** One call from a settled state. *)
Lemma call_outcome p tr data :
  settled p ->
  bytes_ok data -> Z.of_nat (List.length data) < 2 ^ 32 ->
  slips p data = false ->
  clean (made (consumePostPadded handlers user p tr data)) = true ->
  match verdict_of (remainingStreamingBytes p) (fallback p ++ data) with
  | Some (ev, Goes rem' pending) =>
      consumePostPadded handlers user p tr data
      = mkConsumption user (mkParser pending rem') (tr ++ ev)
      /\ settled (mkParser pending rem')
  | Some (ev, Refused) =>
      returned (consumePostPadded handlers user p tr data) = FULLPTR
      /\ made (consumePostPadded handlers user p tr data) = tr ++ ev
  | None => False
  end.
Proof.
  intros (Hexcl & Hrem & HokF & Hcap & Hpend) Hok Hbound Hslip Hclean.
  destruct p as [F rem]. cbn [fallback remainingStreamingBytes] in *.
  assert (Hokall : bytes_ok (F ++ data)) by (apply bytes_ok_app; assumption).
  assert (Hresult : forall ev rem' pending,
             verdict_of rem (F ++ data) = Some (ev, Goes rem' pending) ->
             Z.of_nat (List.length pending) < MAX_FALLBACK_SIZE ->
             settled (mkParser pending rem')).
  { intros ev rem' pending Hverdict Hfits.
    destruct (verdict_of_result _ _ _ _ _ _ (Nat.le_refl _) Hrem Hokall Hverdict)
      as (H1 & H2 & H3 & H4 & H5).
    unfold settled. cbn [fallback remainingStreamingBytes].
    split; [|tauto].
    destruct (Z.eq_dec rem' 0); [left; assumption | right; auto]. }
  assert (Hout : outcome user tr (consumePostPadded handlers user (mkParser F rem) tr data)
                         (verdict_of rem (F ++ data))).
  { destruct (Z.eq_dec rem 0) as [->|Hnz].
    - destruct F as [|b F].
      + apply (consume_heads_outcome handlers user Hanswers Huser data tr Hbound Hclean).
      + apply (fallback_call_outcome handlers user Hanswers Huser Hlengths (b :: F) data tr
                 ltac:(discriminate) Hokall Hcap Hpend Hbound Hslip Hclean).
    - destruct Hexcl as [Hz|Hz]; [contradiction|]. subst F. cbn [app] in *.
      assert (Hbody : consumePostPadded handlers user (mkParser [] rem) tr data
                      = consume_body handlers user [] data rem tr).
      { unfold consumePostPadded. cbn [fallback remainingStreamingBytes].
        replace (negb (rem =? 0)) with true
          by (symmetry; apply negb_true_iff, Z.eqb_neq; assumption).
        reflexivity. }
      rewrite Hbody in *.
      apply (consume_body_outcome handlers user Hanswers Huser Hlengths data rem tr
               ltac:(lia) Hbound Hclean). }
  destruct (verdict_of rem (F ++ data)) as [[ev [rem' pending|]]|]; cbn [outcome] in Hout.
  - destruct Hout as [Heq Hfits]. split; [exact Heq|].
    apply (Hresult ev); [reflexivity | assumption].
  - exact Hout.
  - exact Hout.
Qed.

End Verdicts.

Section Deliveries.

Context `{BF : BloomFilter} `{CE : ChunkedEncoding}.
Variable handlers : Handlers.
Variable user : Z.
Hypothesis Hanswers : answers_user handlers.
Hypothesis Huser : user <> FULLPTR.
Hypothesis Hlengths : lengths_not_chunked.

Lemma clean_first p tr data later :
  clean (made (consume_all handlers user p tr (data :: later))) = true ->
  clean (made (consumePostPadded handlers user p tr data)) = true.
Proof.
  cbn [consume_all].
  destruct (returned (consumePostPadded handlers user p tr data) =? user);
    [|intros H; exact H].
  destruct (consume_all_extend handlers user later
              (parser (consumePostPadded handlers user p tr data))
              (made (consumePostPadded handlers user p tr data))) as [more ->].
  apply clean_prefix.
Qed.

(** The pieces of a stream, handed over one after the other, come to what
    the stream asks for, up to the cuts in the data. *)
Lemma pieces_outcome chunks :
  forall p tr,
    chunks <> [] ->
    settled p ->
    bytes_ok (concat chunks) -> Z.of_nat (List.length (concat chunks)) < 2 ^ 32 ->
    no_slip handlers user p tr chunks = true ->
    clean (made (consume_all handlers user p tr chunks)) = true ->
    exists ev evs v,
      verdict_of (remainingStreamingBytes p) (fallback p ++ concat chunks) = Some (ev, v)
      /\ coalesce evs = coalesce ev
      /\ made (consume_all handlers user p tr chunks) = tr ++ evs
      /\ match v with
         | Goes rem' pending =>
             consume_all handlers user p tr chunks
             = mkConsumption user (mkParser pending rem') (tr ++ evs)
             /\ settled (mkParser pending rem')
         | Refused => returned (consume_all handlers user p tr chunks) = FULLPTR
         end.
Proof.
  induction chunks as [|data later IH]; intros p tr Hne Hp Hok Hbound Hslip Hclean;
    [contradiction|].
  cbn [concat] in Hok, Hbound.
  assert (Hokd : bytes_ok data) by (apply Forall_app in Hok; tauto).
  assert (Hokl : bytes_ok (concat later)) by (apply Forall_app in Hok; tauto).
  rewrite length_app in Hbound.
  pose proof (clean_first p tr data later Hclean) as Hfirst.
  cbn [no_slip] in Hslip. apply andb_true_iff in Hslip. destruct Hslip as [Hslip1 Hslips].
  apply negb_true_iff in Hslip1.
  pose proof (call_outcome handlers user Hanswers Huser Hlengths p tr data Hp Hokd
                ltac:(lia) Hslip1 Hfirst) as Hcall.
  destruct Hp as (_ & Hrem & HokF & _).
  assert (Hokall : bytes_ok ((fallback p ++ data) ++ concat later))
    by (apply bytes_ok_app; [apply bytes_ok_app|]; assumption).
  destruct (verdict_of (remainingStreamingBytes p) (fallback p ++ data))
    as [[ev1 [rem1 P1|]]|] eqn:Hverdict1; [| |contradiction].
  - (* the call goes on *)
    destruct Hcall as [Heq1 Hp1].
    cbn [consume_all] in Hclean, Hslips |- *. cbv zeta in Hslips.
    rewrite Heq1 in Hclean, Hslips |- *. cbn [returned parser made] in Hclean, Hslips |- *.
    rewrite Z.eqb_refl in Hclean, Hslips |- *.
    destruct later as [|next later].
    + (* the last piece *)
      cbn [concat consume_all]. rewrite app_nil_r.
      exists ev1, ev1, (Goes rem1 P1). auto.
    + destruct (IH (mkParser P1 rem1) (tr ++ ev1) ltac:(discriminate) Hp1 Hokl
                   ltac:(lia) Hslips Hclean)
        as (ev2 & evs2 & v2 & Hverdict2 & Hev2 & Hmade2 & Hv2).
      cbn [fallback remainingStreamingBytes] in Hverdict2.
      destruct (verdict_of_merge _ _ _ (concat (next :: later)) _ _ _ _ _
                  (Nat.le_refl _) Hrem Hokall Hverdict1 Hverdict2) as (ev & Hverdict & Hev).
      exists ev, (ev1 ++ evs2), v2.
      cbn [concat] in *. rewrite app_assoc. split; [exact Hverdict|].
      split; [rewrite Hev; apply coalesce_app_congr; exact Hev2|].
      split; [rewrite Hmade2, <- app_assoc; reflexivity|].
      destruct v2 as [rem2 P2|]; [|exact Hv2].
      destruct Hv2 as [Heq2 Hp2]. split; [|exact Hp2].
      rewrite Heq2, <- app_assoc. reflexivity.
  - (* the call refuses: no later piece is handed over *)
    destruct Hcall as [Hret1 Hmade1].
    cbn [consume_all]. rewrite Hret1.
    replace (FULLPTR =? user) with false by (symmetry; apply Z.eqb_neq; congruence).
    exists ev1, ev1, Refused. cbn [concat]. rewrite app_assoc.
    split; [apply (verdict_of_refused _ _ _ _ _ (Nat.le_refl _) Hrem Hokall Hverdict1)|].
    split; [reflexivity|]. split; assumption.
Qed.

End Deliveries.

(** ** Split invariance *)

Lemma idle_settled : settled idle.
Proof.
  unfold settled, idle. cbn [fallback remainingStreamingBytes].
  split; [left; reflexivity|]. split; [lia|]. split; [constructor|].
  split; [reflexivity|]. eexists. reflexivity.
Qed.

Lemma coalesce_shown tr : coalesce (shown_calls tr) = shown_calls (coalesce tr).
Proof.
  induction tr as [|e tr IH]; [reflexivity|].
  destruct e as [slots separator|chunk is_end|];
    cbn [shown_calls map shown_event coalesce]; fold (shown_calls tr);
    rewrite IH; [reflexivity| |reflexivity].
  destruct (coalesce tr) as [|[slots' separator'|chunk' is_end'|] rest]; reflexivity.
Qed.

(** C3, as the code has it.  A stream of bytes is handed to an idle parser
    in one or more pieces, to handlers that always answer [user], which is
    not the error sentinel, beside a chunked decoder that takes no fixed
    body length for a state of its own.  If the delivery in pieces never
    calls the error handler, hands over no request that shows a
    [transfer-encoding] value, and never completes in the fallback buffer
    the head of a request that declares a length of zero, then the stream
    handed over in one call returns what the delivery in pieces returns
    ([user], or the error sentinel of a refused head), makes the same calls
    once adjacent data calls are joined, the requests compared by what they
    show, and leaves the parser in the same state where [user] is
    returned. *)
Theorem split_invariance `{BF : BloomFilter} `{CE : ChunkedEncoding}
    (handlers : Handlers) (user : Z) (chunks : list (list Z)) :
  answers_user handlers ->
  user <> FULLPTR ->
  lengths_not_chunked ->
  chunks <> [] ->
  bytes_ok (concat chunks) ->
  Z.of_nat (List.length (concat chunks)) < 2 ^ 32 ->
  no_slip handlers user idle [] chunks = true ->
  clean (made (consume_all handlers user idle [] chunks)) = true ->
  let whole := consumePostPadded handlers user idle [] (concat chunks) in
  let split := consume_all handlers user idle [] chunks in
  returned whole = returned split
  /\ coalesce (shown_calls (made whole)) = coalesce (shown_calls (made split))
  /\ (returned split = user -> parser whole = parser split).
Proof.
  intros Hanswers Huser Hlengths Hne Hok Hbound Hslip Hclean. cbv zeta.
  destruct (pieces_outcome handlers user Hanswers Huser Hlengths chunks idle []
              Hne idle_settled Hok Hbound Hslip Hclean)
    as (ev & evs & v & Hverdict & Hev & Hmade & Hv).
  cbn [idle fallback remainingStreamingBytes app] in Hverdict, Hmade.
  change (consumePostPadded handlers user idle [] (concat chunks))
    with (consume_heads handlers user [] (concat chunks) 0 []).
  rewrite !coalesce_shown.
  destruct v as [rem' pending|].
  - destruct Hv as [Heq (_ & _ & _ & Hfits & _)]. cbn [fallback] in Hfits.
    rewrite (consume_heads_goes handlers user Hanswers _ [] _ _ _ Hbound Hverdict Hfits).
    rewrite Heq. cbn [app returned made parser].
    split; [reflexivity|]. split; [rewrite Hev; reflexivity | reflexivity].
  - destruct (consume_heads_refused handlers user Hanswers Huser _ [] _ Hbound Hverdict)
      as [Hret Hwhole].
    rewrite Hret, Hwhole, Hmade, Hv. cbn [app].
    split; [reflexivity|]. split; [rewrite Hev; reflexivity|].
    intros Heq. symmetry in Heq. contradiction.
Qed.

Lemma willing_answers_user : answers_user willing.
Proof. split; intros; reflexivity. Defined.

Lemma absent_chunked_lengths : @lengths_not_chunked absent_chunked.
Proof. intros n Hn. cbn. apply Z.ltb_ge. lia. Defined.

(** Scenario S2 of the specification one byte at a time, then in one more
    piece a request that declares a length of zero and a head without
    [host], which is refused. *)
Lemma split_invariance_witness :
  let chunks := map (fun b => [b]) upload_request ++ [empty_upload ++ hostless_head] in
  let whole := consumePostPadded willing a_user idle [] (concat chunks) in
  let split := consume_all willing a_user idle [] chunks in
  returned whole = returned split
  /\ coalesce (shown_calls (made whole)) = coalesce (shown_calls (made split))
  /\ (returned split = a_user -> parser whole = parser split).
Proof.
  refine (@split_invariance exact_filter absent_chunked willing a_user
            (map (fun b => [b]) upload_request ++ [empty_upload ++ hostless_head])
            willing_answers_user _ absent_chunked_lengths _ _ _ _ _).
  - discriminate.
  - discriminate.
  - apply bytes_okb_ok. vm_compute. reflexivity.
  - vm_compute. reflexivity.
  - vm_compute. reflexivity.
  - vm_compute. reflexivity.
Defined.

(** A head of more than [MAX_FALLBACK_SIZE] bytes. *)
Definition long_head : list Z :=
  line "GET /long HTTP/1.1" ++ field "Host" "h"
  ++ bytes_of "X: " ++ repeat 97 4200 ++ CRLF ++ CRLF.

(** C3 at a head longer than the fallback buffer.  Handed over whole, the
    head is read in place (line 511) and the request is shown and ended.  Cut
    after its first byte, the head has to be completed in the fallback
    buffer, which takes [MAX_FALLBACK_SIZE] bytes of it and no more (line
    447): no head is found there, and line 505 calls the error handler. *)
Lemma long_head_split_refused :
  let whole := consume_all willing a_user idle [] [long_head] in
  let split := consume_all willing a_user idle [] [firstn 1 long_head; skipn 1 long_head] in
  let slots := snd (fst (getHeaders long_head)) in
  concat [firstn 1 long_head; skipn 1 long_head] = long_head
  /\ made whole = [Request slots 14; Data [] true]
  /\ made split = [Failure].
Proof. split; [|split]; vm_compute; reflexivity. Qed.

(** * Further properties of the code *)

(** ** What the tokenizer does to the buffer *)

(** [|= 32] leaves a byte as it is or adds 32 to it. *)
Lemma lower_cases c :
  (Z.land c 32 = 32 /\ lower c = c) \/ (Z.land c 32 = 0 /\ lower c = c + 32).
Proof.
  unfold lower. pose proof (Z.add_lor_land c 32) as Hadd.
  assert (Hbit : Z.land c 32 = if Z.testbit c 5 then 32 else 0).
  { apply Z.bits_inj'. intros n Hn. rewrite Z.land_spec.
    change 32 with (2 ^ 5). rewrite Z.pow2_bits_eqb by lia.
    destruct (Z.eqb_spec 5 n) as [<-|Hne].
    - destruct (Z.testbit c 5); [rewrite Z.pow2_bits_eqb by lia; reflexivity|].
      rewrite Z.bits_0. reflexivity.
    - rewrite andb_false_r. destruct (Z.testbit c 5); [|rewrite Z.bits_0; reflexivity].
      rewrite Z.pow2_bits_eqb by lia. symmetry. apply Z.eqb_neq. assumption. }
  destruct (Z.testbit c 5); [left | right]; split; lia.
Qed.

Lemma lower_case_bit c : Z.land (lower c) 32 = 32.
Proof.
  unfold lower. rewrite Z.land_lor_distr_l, Z.land_diag.
  apply Z.bits_inj'. intros n Hn. rewrite Z.lor_spec, Z.land_spec.
  destruct (Z.testbit 32 n); [rewrite andb_true_r, orb_true_r | rewrite andb_false_r];
    reflexivity.
Qed.

Lemma Forall2_lowered l : Forall2 (fun b c => b = c \/ b = lower c) (map lower l) l.
Proof. induction l; constructor; auto. Qed.

Lemma Forall2_same l : Forall2 (fun b c : Z => b = c \/ b = lower c) l l.
Proof. induction l; constructor; auto. Qed.

Lemma Forall2_split {A B : Type} (R : A -> B -> Prop) a' b' a b l :
  a ++ b = l -> Forall2 R a' a -> Forall2 R b' b -> Forall2 R (a' ++ b') l.
Proof. intros <-. apply Forall2_app. Qed.

Lemma getHeaders_loop_case n :
  forall i off l,
    Forall2 (fun b c => b = c \/ b = lower c) (snd (getHeaders_loop n i off l)) l.
Proof.
  induction n as [|n IH]; intros i off l; [apply Forall2_same|].
  cbn [getHeaders_loop].
  pose proof (firstn_skipn (key_scan l) l) as Hl.
  destruct (skipn (key_scan l) l) as [|c after] eqn:Hat.
  { rewrite app_nil_r in Hl. cbn [snd]. rewrite Hl. apply Forall2_lowered. }
  assert (Hstay : Forall2 (fun b c => b = c \/ b = lower c)
                    (map lower (firstn (key_scan l) l) ++ c :: after) l).
  { apply (Forall2_split _ _ _ _ _ _ Hl); [apply Forall2_lowered | apply Forall2_same]. }
  destruct (c =? CR).
  { destruct ((nth O after CR =? LF) && (0 <? i)%nat); exact Hstay. }
  destruct (memchr_r (skipn (value_skip after) after)) as [r|]; [|exact Hstay].
  destruct (nth (S r) (skipn (value_skip after) after) CR =? LF); [|exact Hstay].
  specialize (IH (S i) (off + key_scan l + 1 + value_skip after + r + 2)%nat
                 (skipn (r + 2) (skipn (value_skip after) after))).
  destruct (getHeaders_loop n (S i) _ _) as [[ret' slots'] rest]. cbn [snd] in *.
  apply (Forall2_split _ _ _ _ _ _ Hl); [apply Forall2_lowered|].
  constructor; [left; reflexivity|].
  apply (Forall2_split _ _ _ _ _ _ (firstn_skipn (value_skip after) after));
    [apply Forall2_same|].
  apply (Forall2_split _ _ _ _ _ _
           (firstn_skipn (r + 2) (skipn (value_skip after) after)));
    [apply Forall2_same | exact IH].
Qed.

(** X1.  [getHeaders] never reports more bytes than it was given, and what it
    does to the buffer is to set bit 5 of some of its bytes (line 251): every
    byte is left as it was or or-ed with 32. *)
Theorem getHeaders_sets_case_bit_only (l : list Z) :
  (fst (fst (getHeaders l)) <= List.length l)%nat
  /\ Forall2 (fun b c => b = c \/ b = lower c) (snd (getHeaders l)) l.
Proof.
  split; [|apply getHeaders_loop_case].
  destruct (getHeaders l) as [[ret slots] buf] eqn:H.
  apply getHeaders_extent in H. cbn [fst]. tauto.
Qed.

(** The bytes the key scan passes. *)
Lemma key_scan_bytes l : Forall (fun c => c <> COLON /\ 32 < c) (firstn (key_scan l) l).
Proof.
  induction l as [|c l IH]; cbn [key_scan]; [constructor|].
  destruct (Z.eqb_spec c COLON) as [Hc|Hc]; cbn [negb andb]; [constructor|].
  destruct (Z.ltb_spec 32 c); cbn [firstn]; constructor; auto.
Qed.

Lemma lowered_key_byte c :
  c <> COLON /\ 32 < c -> Z.land (lower c) 32 = 32 /\ lower c <> COLON /\ 32 < lower c.
Proof.
  intros [Hc Hlow]. split; [apply lower_case_bit|].
  destruct (lower_cases c) as [[_ ->]|[Hbit ->]]; [auto|].
  split; [|lia]. unfold COLON in *. lia.
Qed.

Lemma getHeaders_loop_keys n :
  forall i off l,
    Forall (fun h => Forall (fun c => Z.land c 32 = 32 /\ c <> COLON /\ 32 < c)
                            (sv_bytes (key h)))
           (snd (fst (getHeaders_loop n i off l))).
Proof.
  induction n as [|n IH]; intros i off l; [constructor|].
  cbn [getHeaders_loop].
  destruct (skipn (key_scan l) l) as [|c after]; [constructor|].
  destruct (c =? CR).
  { destruct ((nth O after CR =? LF) && (0 <? i)%nat); cbn [fst snd];
      repeat constructor. }
  destruct (memchr_r (skipn (value_skip after) after)) as [r|]; [|constructor].
  destruct (nth (S r) (skipn (value_skip after) after) CR =? LF); [|constructor].
  specialize (IH (S i) (off + key_scan l + 1 + value_skip after + r + 2)%nat
                 (skipn (r + 2) (skipn (value_skip after) after))).
  destruct (getHeaders_loop n (S i) _ _) as [[ret' slots'] rest]. cbn [fst snd] in *.
  constructor; [|exact IH]. cbn [key sv_bytes].
  apply Forall_map. eapply Forall_impl; [|apply key_scan_bytes].
  intros c0 Hc0. apply lowered_key_byte. exact Hc0.
Qed.

(** X2.  Every key [getHeaders] writes, the method of the request line in
    slot 0 included, has bit 5 set in each of its bytes, holds no colon and
    no byte of 32 or less: no upper-case letter is ever shown in a key. *)
Theorem keys_are_lower_cased (l : list Z) :
  Forall (fun h => Forall (fun c => Z.land c 32 = 32 /\ c <> COLON /\ 32 < c
                                    /\ ~ 65 <= c <= 90)
                          (sv_bytes (key h)))
         (snd (fst (getHeaders l))).
Proof.
  eapply Forall_impl; [|apply getHeaders_loop_keys].
  intros h Hh. eapply Forall_impl; [|exact Hh].
  intros c (Hbit & Hcolon & Hlow). repeat split; try assumption.
  intros Hupper.
  destruct (lower_cases c) as [[_ Hsame]|[Hclear _]]; [|lia].
  assert (Hc : byte_ok c) by (unfold byte_ok; lia).
  revert Hbit. revert Hupper.
  pose proof (each_byte_value
                (fun c => negb ((65 <=? c) && (c <=? 90) && (Z.land c 32 =? 32)))
                eq_refl c Hc) as H.
  apply negb_true_iff in H. intros Hupper Hbit.
  rewrite Hbit, Z.eqb_refl in H.
  replace (65 <=? c) with true in H by (symmetry; apply Z.leb_le; lia).
  replace (c <=? 90) with true in H by (symmetry; apply Z.leb_le; lia).
  discriminate.
Qed.

Lemma getHeaders_loop_values_ok n :
  forall i off l,
    bytes_ok l ->
    Forall (fun h => forall v, value h = Some v -> value_ok v)
           (snd (fst (getHeaders_loop n i off l))).
Proof.
  induction n as [|n IH]; intros i off l Hok; [constructor|].
  cbn [getHeaders_loop].
  destruct (skipn (key_scan l) l) as [|c after] eqn:Hat; [constructor|].
  destruct (c =? CR) eqn:Hcr.
  { destruct ((nth O after CR =? LF) && (0 <? i)%nat); cbn [fst snd];
      [constructor; [cbn [value]; intros ? ?; discriminate | constructor]
      | constructor]. }
  destruct (memchr_r (skipn (value_skip after) after)) as [r|] eqn:Hr; [|constructor].
  destruct (nth (S r) (skipn (value_skip after) after) CR =? LF) eqn:Hlf; [|constructor].
  destruct (entry_inversion l c after r Hok Hat Hcr Hr Hlf)
    as (name & sp & v & tail & _ & _ & _ & _ & _ & _ & Hv & _ & _ & _ & Htail & Hoktail
        & _ & _ & Ev & _).
  assert (Hok' : bytes_ok tail).
  { apply Forall_app in Hoktail. destruct Hoktail as [_ H].
    apply Forall_app in H. tauto. }
  specialize (IH (S i) (off + key_scan l + 1 + value_skip after + r + 2)%nat tail Hok').
  rewrite Htail in IH.
  destruct (getHeaders_loop n (S i) _ _) as [[ret' slots'] rest]. cbn [fst snd] in *.
  constructor; [|exact IH]. cbn [value]. intros v' Hv'.
  injection Hv' as <-. rewrite <- Ev. exact Hv.
Qed.

(** X3.  A value [getHeaders] writes ends before the first ['\r'] after its
    start and begins after the colons and the bytes below 33 that follow the
    key (line 261): it holds no ['\r'], and its first byte, when it has one,
    is neither a colon nor a space or control byte.  Nothing is cut off its
    end. *)
Theorem values_start_after_blanks (l : list Z) :
  bytes_ok l ->
  Forall (fun h => forall v, value h = Some v ->
                   ~ In CR v /\ (forall c rest, v = c :: rest -> c <> COLON /\ 32 < c))
         (snd (fst (getHeaders l))).
Proof.
  intros Hok. eapply Forall_impl; [|apply getHeaders_loop_values_ok; exact Hok].
  intros h Hh v Hv. destruct (Hh v Hv) as [Hcr Hfirst]. split; [exact Hcr|].
  intros c rest ->. destruct Hfirst. split; [assumption | lia].
Qed.

Lemma values_start_after_blanks_witness :
  let l := line "GET / HTTP/1.1" ++ bytes_of "Host::  example.org " ++ CRLF ++ CRLF in
  Forall (fun h => forall v, value h = Some v ->
                   ~ In CR v /\ (forall c rest, v = c :: rest -> c <> COLON /\ 32 < c))
         (snd (fst (getHeaders l))).
Proof.
  refine (values_start_after_blanks _ _).
  apply bytes_okb_ok. vm_compute. reflexivity.
Defined.

(** ** A complete head and what comes after it *)

(** X5.  Once [getHeaders] has found a head in the bytes it was given, what
    follows the bytes does not matter: with more bytes after them it returns
    the same count and writes the same table, and leaves the bytes that were
    added as they are. *)
Theorem complete_head_ignores_what_follows (X more : list Z) :
  bytes_ok (X ++ more) ->
  fst (fst (getHeaders X)) <> O ->
  getHeaders (X ++ more)
  = (fst (fst (getHeaders X)), snd (fst (getHeaders X)), snd (getHeaders X) ++ more).
Proof.
  intros Hok Hret. destruct (getHeaders X) as [[ret slots] buf] eqn:H. cbn [fst snd] in *.
  exact (getHeaders_loop_extend _ _ _ _ _ _ _ _ Hok H Hret).
Qed.

Lemma complete_head_ignores_what_follows_witness :
  let X := line "GET / HTTP/1.1" ++ field "Host" "h" ++ CRLF in
  let more := bytes_of "GET /next" in
  getHeaders (X ++ more)
  = (fst (fst (getHeaders X)), snd (fst (getHeaders X)), snd (getHeaders X) ++ more).
Proof.
  refine (complete_head_ignores_what_follows _ _ _ _).
  - apply bytes_okb_ok. vm_compute. reflexivity.
  - vm_compute. discriminate.
Defined.

(** X6.  The bytes an attempt without success leaves behind, some of them
    lower-cased, are tokenized like the bytes the attempt was given,
    whatever arrives after them: the fallback buffer can be tried again. *)
Theorem failed_attempt_can_be_retried (X more : list Z) :
  bytes_ok (X ++ more) ->
  fst (fst (getHeaders X)) = O ->
  getHeaders (snd (getHeaders X) ++ more) = getHeaders (X ++ more).
Proof.
  intros Hok Hret. destruct (getHeaders X) as [[ret slots] buf] eqn:H. cbn [fst snd] in *.
  subst ret. exact (getHeaders_loop_retry _ _ _ _ _ _ _ Hok H).
Qed.

Lemma failed_attempt_can_be_retried_witness :
  let X := bytes_of "GET / HTTP/1.1" ++ CRLF ++ bytes_of "Content-Le" in
  let more := bytes_of "ngth: 5" ++ CRLF ++ field "Host" "h" ++ CRLF in
  getHeaders (snd (getHeaders X) ++ more) = getHeaders (X ++ more).
Proof.
  refine (failed_attempt_can_be_retried _ _ _ _).
  - apply bytes_okb_ok. vm_compute. reflexivity.
  - vm_compute. reflexivity.
Defined.

(** X7.  A head found after more bytes arrived ends in the bytes that
    arrived: when [getHeaders] found no head in [X] and finds one in
    [X ++ more], the count it returns is above the length of [X].  This is
    what lines 461-466 of [consumePostPadded] rely on: [consumed.first - had]
    does not wrap. *)
Theorem head_ends_in_new_bytes (X more : list Z) :
  bytes_ok (X ++ more) ->
  fst (fst (getHeaders X)) = O ->
  fst (fst (getHeaders (X ++ more))) <> O ->
  (List.length X < fst (fst (getHeaders (X ++ more))))%nat.
Proof.
  intros Hok Hnone Hfound.
  destruct (getHeaders X) as [[ret slots] buf] eqn:HX.
  destruct (getHeaders (X ++ more)) as [[ret' slots'] buf'] eqn:HXm.
  cbn [fst snd] in *. subst ret.
  exact (getHeaders_pending _ _ _ _ _ _ _ Hok HX HXm Hfound).
Qed.

Lemma head_ends_in_new_bytes_witness :
  let X := bytes_of "GET / HTTP/1.1" ++ CRLF ++ bytes_of "Host: h" ++ CRLF in
  let more := CRLF ++ bytes_of "GET" in
  (List.length X < fst (fst (getHeaders (X ++ more))))%nat.
Proof.
  refine (head_ends_in_new_bytes _ _ _ _ _).
  - apply bytes_okb_ok. vm_compute. reflexivity.
  - vm_compute. reflexivity.
  - vm_compute. discriminate.
Defined.

(** ** The line that ends a head *)

(** A line of key bytes and nothing else ends the table like the blank
    line does. *)
Lemma getHeaders_loop_colonless n i off junk tail :
  name_ok junk -> (0 < i)%nat ->
  getHeaders_loop (S n) i off (junk ++ CRLF ++ tail)
  = ((off + List.length junk + 2)%nat, [mkHeader None None],
     map lower junk ++ CRLF ++ tail).
Proof.
  intros Hjunk Hi. cbn [getHeaders_loop].
  change (CRLF ++ tail) with (CR :: LF :: tail).
  rewrite key_scan_name, firstn_length_app, skipn_length_app
    by (try assumption; right; unfold CR; lia).
  rewrite Z.eqb_refl. cbn [nth]. rewrite Z.eqb_refl.
  replace (0 <? i)%nat with true by (symmetry; apply Nat.ltb_lt; assumption).
  reflexivity.
Qed.

(** Header fields as they are sent, then whatever follows. *)
Lemma getHeaders_loop_fields_then fields :
  forall n i off tail,
    fields_ok fields ->
    bytes_ok (concat (map field_bytes fields) ++ tail) ->
    getHeaders_loop (List.length fields + n) i off (concat (map field_bytes fields) ++ tail)
    = let '(ret, slots, rest) :=
        getHeaders_loop n (i + List.length fields)
                        (off + List.length (concat (map field_bytes fields)))%nat tail in
      (ret, map field_slot fields ++ slots,
       concat (map field_bytes (lowered fields)) ++ rest).
Proof.
  induction fields as [|f fields IH]; intros n i off tail Hfields Hok.
  - cbn [map concat List.length app Nat.add lowered]. rewrite !Nat.add_0_r.
    destruct (getHeaders_loop n i off tail) as [[ret slots] rest]. reflexivity.
  - inversion Hfields as [|? ? [Hname Hvalue] Hrest]; subst.
    cbn [map concat lowered List.length Nat.add]. fold (lowered fields).
    rewrite <- !app_assoc, !field_bytes_app. cbn [fst snd].
    cbn [map concat] in Hok. rewrite <- app_assoc, field_bytes_app in Hok.
    assert (Hok' : bytes_ok (snd f ++ CRLF ++ concat (map field_bytes fields) ++ tail)).
    { apply bytes_ok_tail in Hok. inversion Hok as [|? ? _ Hok1]; subst.
      apply (bytes_ok_tail [32]) in Hok1. exact Hok1. }
    assert (Hok'' : bytes_ok (concat (map field_bytes fields) ++ tail)).
    { apply bytes_ok_tail in Hok'. apply (bytes_ok_tail CRLF) in Hok'. exact Hok'. }
    rewrite (getHeaders_loop_entry (List.length fields + n) i off (fst f) COLON [32] (snd f)
               (concat (map field_bytes fields) ++ tail));
      [ | assumption | left; reflexivity | discriminate
        | constructor; [split; [right; lia | discriminate] | constructor]
        | assumption | assumption ].
    rewrite (IH n (S i) _ tail Hrest Hok'').
    match goal with
    | |- ?lhs = ?rhs =>
        match lhs with
        | context [getHeaders_loop n ?a1 ?o1 tail] =>
            match rhs with
            | context [getHeaders_loop n ?a2 ?o2 tail] =>
                replace a1 with a2 by lia; replace o1 with o2
            end
        end
    end.
    + destruct (getHeaders_loop n _ _ tail) as [[ret slots] rest].
      unfold field_slot.
      repeat (first [rewrite <- app_assoc | progress cbn [app fst snd]]). reflexivity.
    + unfold CRLF.
      repeat (first [rewrite length_app | progress cbn [List.length]]). lia.
Qed.

(** X4.  The head ends at the first line after the request line that the key
    scan passes whole: a line of bytes above 32 without a colon, followed by
    ['\r\n'], ends the head as the blank line does (lines 252-255 look at the
    byte that stopped the scan, not at where the scan started).  The line is
    lower-cased in place and counted among the bytes of the head. *)
Theorem colonless_line_ends_head (method target : list Z)
        (fields : list (list Z * list Z)) (junk rest : list Z) :
  name_ok method -> value_ok target -> fields_ok fields -> name_ok junk ->
  (List.length fields <= 48)%nat ->
  bytes_ok (method ++ [32] ++ target ++ CRLF
            ++ concat (map field_bytes fields) ++ junk ++ CRLF ++ rest) ->
  getHeaders (method ++ [32] ++ target ++ CRLF
              ++ concat (map field_bytes fields) ++ junk ++ CRLF ++ rest)
  = (List.length (method ++ [32] ++ target ++ CRLF
                  ++ concat (map field_bytes fields) ++ junk ++ CRLF),
     head_slots method target fields,
     map lower method ++ [32] ++ target ++ CRLF
     ++ concat (map field_bytes (lowered fields)) ++ map lower junk ++ CRLF ++ rest).
Proof.
  intros Hmethod Htarget Hfields Hjunk Hn Hok.
  unfold getHeaders, MAX_HEADERS. cbn [app] in *.
  assert (Hok' : bytes_ok (target ++ CRLF ++ concat (map field_bytes fields)
                           ++ junk ++ CRLF ++ rest)).
  { apply Forall_app in Hok. destruct Hok as [_ Hok]. inversion Hok; subst. assumption. }
  assert (Hok'' : bytes_ok (concat (map field_bytes fields) ++ junk ++ CRLF ++ rest)).
  { apply bytes_ok_tail in Hok'. apply (bytes_ok_tail CRLF) in Hok'. exact Hok'. }
  pose proof (getHeaders_loop_entry 49 0 0 method 32 [] target
                (concat (map field_bytes fields) ++ junk ++ CRLF ++ rest)) as Hentry.
  cbn [app] in Hentry. rewrite Hentry; clear Hentry; try assumption.
  2:{ right; lia. }
  2:{ discriminate. }
  2:{ constructor. }
  replace 49%nat with (List.length fields + S (48 - List.length fields))%nat by lia.
  rewrite (getHeaders_loop_fields_then fields _ _ _ _ Hfields Hok'').
  rewrite getHeaders_loop_colonless by (try assumption; lia).
  unfold head_slots. f_equal. f_equal.
  unfold CRLF. repeat (first [rewrite length_app | progress cbn [List.length]]). lia.
Qed.

Lemma colonless_line_ends_head_witness :
  let method := bytes_of "GET" in
  let target := bytes_of "/ HTTP/1.1" in
  let fields := [(bytes_of "Host", bytes_of "h")] in
  let junk := bytes_of "Trailer" in
  let rest := bytes_of "GET /next" in
  getHeaders (method ++ [32] ++ target ++ CRLF
              ++ concat (map field_bytes fields) ++ junk ++ CRLF ++ rest)
  = (List.length (method ++ [32] ++ target ++ CRLF
                  ++ concat (map field_bytes fields) ++ junk ++ CRLF),
     head_slots method target fields,
     map lower method ++ [32] ++ target ++ CRLF
     ++ concat (map field_bytes (lowered fields)) ++ map lower junk ++ CRLF ++ rest).
Proof.
  refine (colonless_line_ends_head _ _ _ _ _ _ _ _ _ _ _).
  - apply Forall_forall. intros c Hc. vm_compute in Hc.
    repeat (destruct Hc as [<-|Hc]; [split; [discriminate | reflexivity]|]).
    destruct Hc.
  - split; [vm_compute; intuition discriminate | split; [discriminate | discriminate]].
  - repeat constructor; cbn; try discriminate; try reflexivity.
    vm_compute. intuition discriminate.
  - apply Forall_forall. intros c Hc. vm_compute in Hc.
    repeat (destruct Hc as [<-|Hc]; [split; [discriminate | reflexivity]|]).
    destruct Hc.
  - cbn. lia.
  - apply bytes_okb_ok. vm_compute. reflexivity.
Defined.

(** ** The request line *)

(** A head that is tokenized has a request line: slot 0 holds the bytes
    before the first colon or byte of 32 or less, lower-cased, and a
    value. *)
Lemma getHeaders_loop_first n off data :
  fst (fst (getHeaders_loop (S n) 0 off data)) <> O ->
  exists target later,
    snd (fst (getHeaders_loop (S n) 0 off data))
    = mkHeader (Some (map lower (firstn (key_scan data) data))) (Some target) :: later.
Proof.
  cbn [getHeaders_loop].
  destruct (skipn (key_scan data) data) as [|c after]; [intros H; contradiction H; reflexivity|].
  destruct (c =? CR).
  { rewrite andb_false_r. intros H. contradiction H. reflexivity. }
  destruct (memchr_r (skipn (value_skip after) after)) as [r|];
    [|intros H; contradiction H; reflexivity].
  destruct (nth (S r) (skipn (value_skip after) after) CR =? LF);
    [|intros H; contradiction H; reflexivity].
  destruct (getHeaders_loop n 1 _ _) as [[ret slots] rest]. cbn [fst snd].
  intros _. eauto.
Qed.

Lemma getHeaders_request_line data :
  fst (fst (getHeaders data)) <> O ->
  exists target later,
    snd (fst (getHeaders data))
    = mkHeader (Some (map lower (firstn (key_scan data) data))) (Some target) :: later.
Proof. apply getHeaders_loop_first. Qed.

Lemma query_separator_split target :
  ~ In 63 (firstn (query_separator target) target)
  /\ (query_separator target <= List.length target)%nat
  /\ ((query_separator target < List.length target)%nat ->
      target = firstn (query_separator target) target
               ++ 63 :: skipn (query_separator target + 1) target).
Proof.
  induction target as [|c target IH]; cbn [query_separator].
  - cbn. split; [tauto|]. split; lia.
  - destruct (Z.eqb_spec c 63) as [->|Hc].
    + cbn. split; [tauto|]. split; [lia|]. reflexivity.
    + destruct IH as (Hno & Hle & Hsplit). cbn [firstn skipn List.length Nat.add].
      split; [intros [H|H]; [congruence | contradiction]|].
      split; [lia|]. intros Hlt. cbn [app]. f_equal. apply Hsplit. lia.
Qed.

(** X8.  The request a handler is given has a target that [getUrl] and
    [getQuery] take apart at the first ['?']: [getUrl] holds no ['?'], and
    the full URL is the URL when [getQuery] returns the null view, the URL,
    a ['?'] and the query otherwise.  (The target is the whole rest of the
    request line, the version included.) *)
Theorem url_and_query_make_the_target `{BF : BloomFilter} (data : list Z) :
  fst (fst (getHeaders data)) <> O ->
  let req := handed_request (snd (fst (getHeaders data))) in
  exists target url,
    getFullUrl req = Some target
    /\ getUrl req = Some url
    /\ ~ In 63 url
    /\ match getQuery req with
       | None => target = url
       | Some query => target = url ++ 63 :: query
       end.
Proof.
  intros Hret. destruct (getHeaders_request_line data Hret) as (target & later & Hslots).
  cbv zeta. rewrite Hslots.
  unfold getFullUrl, getUrl, getQuery, handed_request, request_line, separator_of, subview.
  cbn [headers querySeparator hd value sv_length sv_bytes option_map skipn].
  destruct (query_separator_split target) as (Hno & Hle & Hsplit).
  exists target, (firstn (query_separator target) target).
  split; [rewrite firstn_all; reflexivity|].
  split; [reflexivity|]. split; [exact Hno|].
  destruct (Nat.ltb_spec (query_separator target) (List.length target)) as [Hlt|Hge].
  - rewrite (firstn_all2 (skipn (query_separator target + 1) target))
      by (rewrite length_skipn; lia).
    apply Hsplit. exact Hlt.
  - rewrite firstn_all2 by lia. reflexivity.
Qed.

Lemma url_and_query_make_the_target_witness :
  let data := line "GET /find?q=1 HTTP/1.1" ++ field "Host" "h" ++ CRLF in
  let req := @handed_request exact_filter (snd (fst (getHeaders data))) in
  exists target url,
    getFullUrl req = Some target
    /\ getUrl req = Some url
    /\ ~ In 63 url
    /\ match getQuery req with
       | None => target = url
       | Some query => target = url ++ 63 :: query
       end.
Proof.
  refine (@url_and_query_make_the_target exact_filter _ _).
  vm_compute. discriminate.
Defined.

(** X9.  The method a handler reads is already lower-cased: the key scan of
    line 251 or-s 32 into the bytes of the request line's first word as into
    any key, so [getCaseSensitiveMethod] returns the lower-cased method, and
    [getMethod] returns the same bytes and changes nothing. *)
Theorem method_is_lower_cased_at_once `{BF : BloomFilter} (data : list Z) :
  fst (fst (getHeaders data)) <> O ->
  let req := handed_request (snd (fst (getHeaders data))) in
  getCaseSensitiveMethod req = Some (map lower (firstn (key_scan data) data))
  /\ getMethod req = (getCaseSensitiveMethod req, req).
Proof.
  intros Hret. destruct (getHeaders_request_line data Hret) as (target & later & Hslots).
  cbv zeta. rewrite Hslots.
  unfold getCaseSensitiveMethod, getMethod, handed_request, request_line, subview.
  cbn [headers querySeparator ancientHttp bf hd tl key value sv_length option_map skipn].
  rewrite map_lower_idempotent, firstn_all. split; reflexivity.
Qed.

Lemma method_is_lower_cased_at_once_witness :
  let data := line "GET / HTTP/1.1" ++ field "Host" "h" ++ CRLF in
  let req := @handed_request exact_filter (snd (fst (getHeaders data))) in
  getCaseSensitiveMethod req = Some (map lower (firstn (key_scan data) data))
  /\ getMethod req = (getCaseSensitiveMethod req, req).
Proof.
  refine (@method_is_lower_cased_at_once exact_filter _ _).
  vm_compute. discriminate.
Defined.

(** ** Iterating over the header fields *)

Lemma header_range_shown fuel :
  forall slots i,
    (List.length (shown_headers (skipn i slots)) < fuel)%nat ->
    header_range fuel slots (Some i)
    = map (fun h => (key h, value h)) (shown_headers (skipn i slots)).
Proof.
  induction fuel as [|fuel IH]; intros slots i Hfuel; [lia|].
  cbn [header_range header_differs header_end header_deref header_next option_map].
  destruct (Nat.lt_ge_cases i (List.length slots)) as [Hin|Hout].
  - destruct (nth_split slots (mkHeader None None) Hin) as (before & after & Hslots & Hlen).
    assert (Hskip : skipn i slots = nth i slots (mkHeader None None) :: after).
    { rewrite Hslots at 1. rewrite <- Hlen. apply skipn_length_app. }
    assert (Hnext : skipn (S i) slots = after).
    { rewrite Hslots at 1. rewrite <- Hlen.
      replace (S (List.length before)) with (List.length before + 1)%nat by lia.
      rewrite skipn_app_plus. reflexivity. }
    rewrite Hskip in *. cbn [shown_headers] in *.
    destruct (sv_length (key (nth i slots (mkHeader None None))) =? 0)%nat;
      cbn [negb map]; [reflexivity|].
    cbn [List.length] in Hfuel. rewrite IH by (rewrite Hnext; lia).
    rewrite Hnext. reflexivity.
  - rewrite nth_overflow by lia. rewrite skipn_all2 by lia. reflexivity.
Qed.

(** The table of a tokenized head has at most [n] slots and ends with the
    slot of the empty key. *)
Lemma getHeaders_loop_table n :
  forall i off l,
    fst (fst (getHeaders_loop n i off l)) <> O ->
    (List.length (snd (fst (getHeaders_loop n i off l))) <= n)%nat
    /\ exists entries, snd (fst (getHeaders_loop n i off l))
                       = entries ++ [mkHeader None None].
Proof.
  induction n as [|n IH]; intros i off l; [intros H; contradiction H; reflexivity|].
  cbn [getHeaders_loop].
  destruct (skipn (key_scan l) l) as [|c after]; [intros H; contradiction H; reflexivity|].
  destruct (c =? CR).
  { destruct ((nth O after CR =? LF) && (0 <? i)%nat); cbn [fst snd];
      [|intros H; contradiction H; reflexivity].
    intros _. split; [cbn; lia | exists []; reflexivity]. }
  destruct (memchr_r (skipn (value_skip after) after)) as [r|];
    [|intros H; contradiction H; reflexivity].
  destruct (nth (S r) (skipn (value_skip after) after) CR =? LF);
    [|intros H; contradiction H; reflexivity].
  specialize (IH (S i) (off + key_scan l + 1 + value_skip after + r + 2)%nat
                 (skipn (r + 2) (skipn (value_skip after) after))).
  destruct (getHeaders_loop n (S i) _ _) as [[ret' slots'] rest]. cbn [fst snd] in *.
  intros Hret. destruct (IH Hret) as [Hlen [entries ->]].
  split; [cbn [List.length]; lia|].
  eexists (_ :: entries). reflexivity.
Qed.

Lemma shown_headers_before_end entries :
  (List.length (shown_headers (entries ++ [mkHeader None None])) <= List.length entries)%nat.
Proof.
  induction entries as [|h entries IH]; cbn [app shown_headers]; [cbn; lia|].
  destruct (sv_length (key h) =? 0)%nat; cbn [List.length]; lia.
Qed.

Lemma iteration_shown `{BF : BloomFilter} (data : list Z) :
  fst (fst (getHeaders data)) <> O ->
  let slots := snd (fst (getHeaders data)) in
  iterate_headers (handed_request slots)
  = map (fun h => (key h, value h)) (shown_headers (tl slots))
  /\ (S (List.length (iterate_headers (handed_request slots))) < List.length slots)%nat
  /\ (List.length slots <= 50)%nat.
Proof.
  intros Hret. cbv zeta.
  destruct (getHeaders_loop_table _ _ _ _ Hret) as [Hlen [entries Hslots]].
  destruct (getHeaders_request_line data Hret) as (target & later & Hline).
  fold (getHeaders data) in Hlen, Hslots.
  set (slots := snd (fst (getHeaders data))) in *.
  assert (Hlater : exists entries', later = entries' ++ [mkHeader None None]).
  { rewrite Hline in Hslots. destruct entries as [|e entries].
    - cbn in Hslots. injection Hslots as Hkey _. discriminate.
    - cbn [app] in Hslots. injection Hslots as _ ->. eauto. }
  destruct Hlater as [entries' ->].
  pose proof (shown_headers_before_end entries') as Hshown.
  assert (Hiter : iterate_headers (handed_request slots)
                  = map (fun h => (key h, value h)) (shown_headers (tl slots))).
  { unfold iterate_headers, handed_request, header_begin. cbn [headers].
    rewrite header_range_shown; rewrite Hline; cbn [skipn tl]; [reflexivity|].
    rewrite Hline in Hlen. cbn [List.length] in Hlen. rewrite length_app in Hlen.
    cbn [List.length] in Hlen. unfold MAX_HEADERS in *. lia. }
  split; [exact Hiter|]. split; [|exact Hlen].
  rewrite Hiter, length_map, Hline. cbn [tl List.length].
  rewrite length_app. cbn [List.length]. lia.
Qed.


(** X10.  Iterating over a request a handler is given ([begin()], [!=],
    [++], [*]) yields the header fields after the request line, in order, up
    to the first key of length zero, and stops at a slot [getHeaders] wrote:
    at the slot that ends the table, or before it at a field whose line
    starts with a colon or blank. *)
Theorem iteration_yields_shown_headers `{BF : BloomFilter} (data : list Z) :
  fst (fst (getHeaders data)) <> O ->
  let slots := snd (fst (getHeaders data)) in
  iterate_headers (handed_request slots)
  = map (fun h => (key h, value h)) (shown_headers (tl slots))
  /\ (S (List.length (iterate_headers (handed_request slots))) < List.length slots)%nat
  /\ (List.length slots <= 50)%nat.
Proof. exact (iteration_shown data). Qed.

Lemma iteration_yields_shown_headers_witness :
  let data := line "GET / HTTP/1.1" ++ field "Host" "h" ++ field "Accept" "a" ++ CRLF in
  let slots := snd (fst (getHeaders data)) in
  iterate_headers (@handed_request exact_filter slots)
  = map (fun h => (key h, value h)) (shown_headers (tl slots))
  /\ (S (List.length (iterate_headers (@handed_request exact_filter slots)))
      < List.length slots)%nat
  /\ (List.length slots <= 50)%nat.
Proof.
  refine (@iteration_yields_shown_headers exact_filter _ _).
  vm_compute. discriminate.
Defined.

(** ** Looking a header field up *)

Lemma find_first {A} (f : A -> bool) l x :
  find f l = Some x ->
  exists before after,
    l = before ++ x :: after /\ f x = true /\ Forall (fun y => f y = false) before.
Proof.
  induction l as [|y l IH]; cbn [find]; [discriminate|].
  destruct (f y) eqn:Hy.
  - intros [= ->]. exists [], l. auto.
  - intros H. destruct (IH H) as (before & after & -> & Hx & Hb).
    exists (y :: before), after. auto.
Qed.

Lemma list_eqb_true a b : list_eqb a b = true <-> a = b.
Proof. unfold list_eqb. destruct (list_eq_dec Z.eq_dec a b); split; congruence. Qed.

(** X11.  [getHeader] on a request a handler is given, for a name without a
    [NUL] byte: it returns the value of the first field of the iteration
    that bears the name, and the null view exactly when no field of the
    iteration bears it. *)
Theorem getHeader_returns_first_field `{BF : BloomFilter} (data name : list Z) :
  fst (fst (getHeaders data)) <> O ->
  Forall (fun c => c <> 0) name ->
  let req := handed_request (snd (fst (getHeaders data))) in
  match getHeader req name with
  | Some v =>
      exists before after,
        iterate_headers req = before ++ (Some name, Some v) :: after
        /\ ~ In (Some name) (map fst before)
  | None => ~ In (Some name) (map fst (iterate_headers req))
  end.
Proof.
  intros Hret Hname. cbv zeta.
  destruct (iteration_shown data Hret) as [Hiter _].
  cbv zeta in Hiter. rewrite Hiter. clear Hiter.
  change (getHeader (handed_request (snd (fst (getHeaders data)))) name)
    with (getHeader (request_of (snd (fst (getHeaders data)))) name).
  rewrite getHeader_field_value by assumption. unfold field_value.
  set (slots := snd (fst (getHeaders data))).
  assert (Hvalues : forall h, In h (shown_headers (tl slots)) ->
                              exists k v, h = mkHeader (Some k) (Some v)).
  { intros h Hh. pose proof (shown_headers_keyed _ _ Hh) as Hk.
    apply shown_headers_incl in Hh.
    assert (Hin : In h slots) by (destruct slots; [destruct Hh | right; exact Hh]).
    destruct (getHeaders data) as [[ret slots0] buf] eqn:Hdata.
    pose proof (getHeaders_loop_values _ _ _ _ _ _ _ Hdata h Hin Hk) as Hv.
    destruct h as [[k|] [v|]]; try contradiction; eauto. }
  destruct (find _ (shown_headers (tl slots))) as [h|] eqn:Hfind.
  - destruct (find_first _ _ _ Hfind) as (before & after & Hsplit & Hh & Hbefore).
    destruct (Hvalues h) as (k & v & ->).
    { apply find_some in Hfind. tauto. }
    cbn [key sv_bytes value] in *. apply list_eqb_true in Hh. subst k.
    exists (map (fun h => (key h, value h)) before),
           (map (fun h => (key h, value h)) after).
    split; [rewrite Hsplit, map_app; reflexivity|].
    rewrite map_map. cbn [fst]. intros Hin. apply in_map_iff in Hin.
    destruct Hin as (h & Hkey & Hin).
    rewrite Forall_forall in Hbefore. specialize (Hbefore h Hin).
    rewrite Hkey in Hbefore. cbn [sv_bytes] in Hbefore.
    assert (list_eqb name name = true) by (apply list_eqb_true; reflexivity).
    congruence.
  - rewrite map_map. cbn [fst]. intros Hin. apply in_map_iff in Hin.
    destruct Hin as (h & Hkey & Hin).
    pose proof (find_none _ _ Hfind h Hin) as Hno. cbn beta in Hno.
    rewrite Hkey in Hno. cbn [sv_bytes] in Hno.
    assert (list_eqb name name = true) by (apply list_eqb_true; reflexivity).
    congruence.
Qed.

Lemma getHeader_returns_first_field_witness :
  let data := line "GET / HTTP/1.1" ++ field "Host" "h" ++ field "Accept" "a"
              ++ field "accept" "b" ++ CRLF in
  let req := @handed_request exact_filter (snd (fst (getHeaders data))) in
  match getHeader req (bytes_of "accept") with
  | Some v =>
      exists before after,
        iterate_headers req = before ++ (Some (bytes_of "accept"), Some v) :: after
        /\ ~ In (Some (bytes_of "accept")) (map fst before)
  | None => ~ In (Some (bytes_of "accept")) (map fst (iterate_headers req))
  end.
Proof.
  refine (@getHeader_returns_first_field exact_filter
            (line "GET / HTTP/1.1" ++ field "Host" "h" ++ field "Accept" "a"
             ++ field "accept" "b" ++ CRLF)
            (bytes_of "accept") _ _).
  - vm_compute. discriminate.
  - vm_compute. repeat constructor; discriminate.
Defined.

(** [strncmp] on a key: a key holds no [NUL], so the comparison goes through
    all of it. *)
Lemma strncmp_eq_key a :
  Forall (fun c => 32 < c) a ->
  forall b, List.length a = List.length b -> strncmp_eq a b = true -> a = b.
Proof.
  induction 1 as [|x a Hx Ha IH]; intros [|y b] Hlen Heq; try discriminate; [reflexivity|].
  cbn [strncmp_eq] in Heq. destruct (Z.eqb_spec x y) as [->|]; [|discriminate].
  destruct (Z.eqb_spec y 0) as [->|_]; [lia|].
  f_equal. apply IH; [cbn in Hlen; lia | exact Heq].
Qed.

Lemma getHeader_scan_case_bit slots name :
  Forall (fun h => Forall (fun c => Z.land c 32 = 32 /\ c <> COLON /\ 32 < c)
                          (sv_bytes (key h))) slots ->
  Exists (fun c => Z.land c 32 <> 32) name ->
  getHeader_scan slots name = None.
Proof.
  intros Hslots Hname. induction Hslots as [|h slots Hh _ IH]; cbn [getHeader_scan];
    [reflexivity|].
  destruct (sv_length (key h) =? 0)%nat; [reflexivity|].
  destruct (Nat.eqb_spec (sv_length (key h)) (List.length name)) as [Hlen|_];
    cbn [andb]; [|exact IH].
  destruct (strncmp_eq (sv_bytes (key h)) name) eqn:Hcmp; [|exact IH].
  exfalso. apply (strncmp_eq_key (sv_bytes (key h))) in Hcmp.
  - rewrite <- Hcmp in Hname. apply Exists_exists in Hname.
    destruct Hname as (c & Hc & Hbit).
    rewrite Forall_forall in Hh. destruct (Hh c Hc) as [Hset _]. contradiction.
  - eapply Forall_impl; [|exact Hh]. intros c (_ & _ & Hc). exact Hc.
  - destruct (key h); exact Hlen.
Qed.

(** X12.  [getHeader] is given lower-cased names for a reason: the keys of
    the table all have bit 5 set, so a name with a byte that has not (an
    upper-case letter, for one) is never found, whatever the head holds. *)
Theorem getHeader_never_finds_upper_case `{BF : BloomFilter} (data name : list Z) :
  Exists (fun c => Z.land c 32 <> 32) name ->
  getHeader (handed_request (snd (fst (getHeaders data)))) name = None.
Proof.
  intros Hname. unfold getHeader, handed_request. cbn [bf headers].
  destruct (bf_mightHave _ name); [|reflexivity].
  apply getHeader_scan_case_bit; [|exact Hname].
  pose proof (getHeaders_loop_keys MAX_HEADERS O O data) as Hkeys.
  fold (getHeaders data) in Hkeys.
  destruct (snd (fst (getHeaders data))) as [|h slots]; [constructor|].
  inversion Hkeys; subst. assumption.
Qed.

Lemma getHeader_never_finds_upper_case_witness :
  let data := line "GET / HTTP/1.1" ++ field "Host" "h" ++ CRLF in
  getHeader (@handed_request exact_filter (snd (fst (getHeaders data)))) (bytes_of "Host")
  = None.
Proof.
  refine (@getHeader_never_finds_upper_case exact_filter
            (line "GET / HTTP/1.1" ++ field "Host" "h" ++ CRLF) (bytes_of "Host") _).
  apply Exists_cons_hd. vm_compute. discriminate.
Defined.

(** ** Field-name bytes *)

(** X13.  [isFieldNameByte] accepts the hyphen, the digits and the letters,
    and no other byte; each byte it accepts is one the key scan of
    [getHeaders] passes (line 251), or-ing 32 into it gives a field-name
    byte again, and changes it only when it is an upper-case letter, into
    its lower-case letter. *)
Theorem field_name_bytes_are_key_bytes (x : Z) :
  (isFieldNameByte x = true
   <-> x = 45 \/ 48 <= x <= 57 \/ 65 <= x <= 90 \/ 97 <= x <= 122)
  /\ (isFieldNameByte x = true ->
      key_byte x = true
      /\ isFieldNameByte (lower x) = true
      /\ (if (64 <? x) && (x <? 91) then lower x = x + 32 else lower x = x)).
Proof.
  assert (Hrange : isFieldNameByte x = true
                   <-> x = 45 \/ 48 <= x <= 57 \/ 65 <= x <= 90 \/ 97 <= x <= 122).
  { unfold isFieldNameByte.
    rewrite !orb_true_iff, !andb_true_iff, Z.eqb_eq, !Z.ltb_lt. lia. }
  split; [exact Hrange|]. intros H.
  assert (Hbyte : byte_ok x) by (apply Hrange in H; unfold byte_ok; lia).
  pose proof (each_byte_value
                (fun x => implb (isFieldNameByte x)
                            (key_byte x && isFieldNameByte (lower x)
                             && (if (64 <? x) && (x <? 91)
                                 then lower x =? x + 32 else lower x =? x)))
                eq_refl x Hbyte) as Hall.
  cbn beta in Hall. rewrite H in Hall. cbn [implb] in Hall.
  apply andb_true_iff in Hall. destruct Hall as [Hall Hcase].
  apply andb_true_iff in Hall. destruct Hall as [Hkey Hlower].
  split; [exact Hkey|]. split; [exact Hlower|].
  destruct ((64 <? x) && (x <? 91)); apply Z.eqb_eq; exact Hcase.
Qed.

(** ** What a call does with the first head of a read *)

Section FirstHead.

Context `{BF : BloomFilter} `{CE : ChunkedEncoding}.
Variable handlers : Handlers.
Variable user : Z.
Variables (data : list Z) (tr : list event).

Let slots := snd (fst (getHeaders data)).
Let req := handed_request slots.

Hypothesis Hhead : fst (fst (getHeaders data)) <> O.

Lemma first_head_tokenized :
  getHeaders data = (fst (fst (getHeaders data)), slots, snd (getHeaders data)).
Proof. subst slots. destruct (getHeaders data) as [[ret s] buf]. reflexivity. Qed.

(** X14.  When the request handler answers something else than [user]
    (the connection was upgraded or closed), the call ends there: it
    returns the answer, the data handler is not called, the bytes after the
    head are neither parsed nor kept, and the parser is left idle. *)
Theorem declined_request_ends_the_call :
  getHeader req host_name <> None ->
  sv_length (getHeader req transfer_encoding_name) = O
  \/ sv_length (getHeader req content_length_name) = O ->
  requestHandler handlers tr user slots (separator_of slots) <> user ->
  consumePostPadded handlers user idle tr data
  = mkConsumption (requestHandler handlers tr user slots (separator_of slots))
                  idle (tr ++ [Request slots (separator_of slots)]).
Proof.
  subst req.
  change (getHeader (handed_request slots)) with (getHeader (request_of slots)).
  rewrite (getHeader_field_value slots host_name host_name_nonzero).
  rewrite (getHeader_field_value slots _ transfer_encoding_name_nonzero).
  rewrite (getHeader_field_value slots _ content_length_name_nonzero).
  intros Hhost Hone Hanswer.
  change (consumePostPadded handlers user idle tr data)
    with (consume_heads handlers user [] data 0 tr).
  unfold consume_heads, fenceAndConsumePostPadded.
  rewrite (fence_loop_called handlers user data _ slots _ first_head_tokenized Hhead
             _ false 0 0 tr Hhost Hone Hanswer).
  cbn [consumed_second remaining calls].
  apply Z.eqb_neq in Hanswer. rewrite Hanswer. reflexivity.
Qed.

(** X15.  A [content-length] that [toUnsignedInteger] does not read is
    found out after the request handler has been called (lines 329 and
    375-378): the handler is given the request, then the call returns the
    error sentinel, without a data call, and leaves [UINT_MAX] in
    [remainingStreamingBytes]. *)
Theorem unreadable_length_found_after_the_handler :
  user <> FULLPTR ->
  getHeader req host_name <> None ->
  sv_length (getHeader req transfer_encoding_name) = O ->
  sv_length (getHeader req content_length_name) <> O ->
  toUnsignedInteger (sv_bytes (getHeader req content_length_name)) = UINT_MAX ->
  requestHandler handlers tr user slots (separator_of slots) = user ->
  consumePostPadded handlers user idle tr data
  = mkConsumption FULLPTR (mkParser [] UINT_MAX)
                  (tr ++ [Request slots (separator_of slots)]).
Proof.
  subst req.
  change (getHeader (handed_request slots)) with (getHeader (request_of slots)).
  intros Huser Hhost Hte Hcl Hvalue Hanswer.
  change (consumePostPadded handlers user idle tr data)
    with (consume_heads handlers user [] data 0 tr).
  unfold consume_heads, fenceAndConsumePostPadded. cbn [fence_loop].
  rewrite (tokenized_nonempty data _ slots _ first_head_tokenized Hhead),
    first_head_tokenized, (consumed_nonzero _ Hhead).
  destruct (getHeader (request_of slots) host_name) as [hv|]; [|contradiction].
  cbn [sv_is_null].
  rewrite Hte. cbn [Nat.eqb negb andb].
  fold (separator_of slots). rewrite Hanswer, Z.eqb_refl. cbn [negb].
  replace (sv_length (getHeader (request_of slots) content_length_name) =? 0)%nat
    with false by (symmetry; apply Nat.eqb_neq; assumption).
  cbn [negb]. rewrite Hvalue, Z.eqb_refl.
  cbn [consumed_second remaining calls].
  replace (FULLPTR =? user) with false by (symmetry; apply Z.eqb_neq; congruence).
  reflexivity.
Qed.

End FirstHead.

Lemma declined_request_ends_the_call_witness :
  let data := simple_get ++ simple_get in
  let slots := snd (fst (getHeaders data)) in
  consumePostPadded declining a_user idle [] data
  = mkConsumption (requestHandler declining [] a_user slots (separator_of slots))
                  idle ([] ++ [Request slots (separator_of slots)]).
Proof.
  refine (@declined_request_ends_the_call exact_filter absent_chunked declining a_user
            (simple_get ++ simple_get) [] _ _ _ _).
  - vm_compute. discriminate.
  - vm_compute. discriminate.
  - left. vm_compute. reflexivity.
  - vm_compute. discriminate.
Defined.

Lemma unreadable_length_found_after_the_handler_witness :
  let slots := snd (fst (getHeaders unreadable_length)) in
  consumePostPadded willing a_user idle [] unreadable_length
  = mkConsumption FULLPTR (mkParser [] UINT_MAX)
                  ([] ++ [Request slots (separator_of slots)]).
Proof.
  refine (@unreadable_length_found_after_the_handler exact_filter absent_chunked
            willing a_user unreadable_length [] _ _ _ _ _ _ _).
  - vm_compute. discriminate.
  - vm_compute. discriminate.
  - vm_compute. discriminate.
  - vm_compute. reflexivity.
  - vm_compute. discriminate.
  - vm_compute. reflexivity.
  - reflexivity.
Defined.

(** ** A body that arrives in pieces *)

Section Body.

Context `{BF : BloomFilter} `{CE : ChunkedEncoding}.
Variable handlers : Handlers.
Variable user : Z.
Hypothesis Hanswers : answers_user handlers.
Hypothesis Hlengths : lengths_not_chunked.

Lemma body_chunk_taken chunk rem tr :
  0 < rem < 1000000000 ->
  Z.of_nat (List.length chunk) <= rem ->
  consumePostPadded handlers user (mkParser [] rem) tr chunk
  = mkConsumption user (mkParser [] (rem - Z.of_nat (List.length chunk)))
                  (tr ++ [Data chunk (rem =? Z.of_nat (List.length chunk))]).
Proof.
  intros Hrem Hfits. unfold consumePostPadded. cbn [remainingStreamingBytes fallback].
  replace (rem =? 0) with false by (symmetry; apply Z.eqb_neq; lia). cbn [negb].
  rewrite (consume_body_step handlers user Hanswers Hlengths) by assumption.
  replace (Z.of_nat (List.length chunk) <=? rem) with true
    by (symmetry; apply Z.leb_le; assumption).
  reflexivity.
Qed.

Lemma body_pieces (chunks : list (list Z)) (last : list Z) :
  forall (rem : Z) (tr : list event),
    0 < rem < 1000000000 ->
    Z.of_nat (List.length (concat chunks)) < rem ->
    Z.of_nat (List.length (concat chunks)) + Z.of_nat (List.length last) = rem ->
    consume_all handlers user (mkParser [] rem) tr (chunks ++ [last])
    = mkConsumption user idle
        (tr ++ map (fun chunk => Data chunk false) chunks ++ [Data last true]).
Proof.
  induction chunks as [|chunk chunks IH]; intros rem tr Hrem Hshort Htotal;
    cbn [app map concat consume_all].
  - cbn [concat List.length] in Htotal.
    rewrite body_chunk_taken by lia. cbn [returned parser made].
    rewrite Z.eqb_refl.
    replace (rem - Z.of_nat (List.length last)) with 0 by lia.
    replace (rem =? Z.of_nat (List.length last)) with true
      by (symmetry; apply Z.eqb_eq; lia).
    reflexivity.
  - cbn [concat] in Hshort, Htotal. rewrite length_app, Nat2Z.inj_add in Hshort, Htotal.
    rewrite body_chunk_taken by lia. cbn [returned parser made].
    rewrite Z.eqb_refl.
    replace (rem =? Z.of_nat (List.length chunk)) with false
      by (symmetry; apply Z.eqb_neq; lia).
    rewrite IH by lia. rewrite <- app_assoc. reflexivity.
Qed.

(** X16.  A body of [rem] bytes under way, handed over in reads that
    together hold exactly [rem] bytes, to handlers that answer [user]: the
    data handler is called once for each read, with the bytes of the read
    (an empty read gives an empty chunk), [is_end] is [false] on every call
    but the last and [true] on the last, and the parser is idle again. *)
Theorem body_is_streamed_read_by_read (chunks : list (list Z)) (last : list Z) :
  forall (rem : Z) (tr : list event),
    0 < rem < 1000000000 ->
    Z.of_nat (List.length (concat chunks)) < rem ->
    Z.of_nat (List.length (concat chunks)) + Z.of_nat (List.length last) = rem ->
    consume_all handlers user (mkParser [] rem) tr (chunks ++ [last])
    = mkConsumption user idle
        (tr ++ map (fun chunk => Data chunk false) chunks ++ [Data last true]).
Proof. exact (body_pieces chunks last). Qed.

End Body.

Lemma body_is_streamed_read_by_read_witness :
  consume_all willing a_user (mkParser [] 5) []
              ([bytes_of "he"; []; bytes_of "l"] ++ [bytes_of "lo"])
  = mkConsumption a_user idle
      ([] ++ map (fun chunk => Data chunk false) [bytes_of "he"; []; bytes_of "l"]
          ++ [Data (bytes_of "lo") true]).
Proof.
  refine (@body_is_streamed_read_by_read exact_filter absent_chunked willing a_user
            willing_answers_user absent_chunked_lengths
            [bytes_of "he"; []; bytes_of "l"] (bytes_of "lo") 5 [] _ _ _).
  - lia.
  - vm_compute. reflexivity.
  - vm_compute. reflexivity.
Defined.

(** ** A read without a complete head *)

Lemma idle_read_without_head `{BF : BloomFilter} `{CE : ChunkedEncoding}
        (handlers : Handlers) (user : Z) (data : list Z) (tr : list event) :
  data <> [] ->
  fst (fst (getHeaders data)) = O ->
  consumePostPadded handlers user idle tr data
  = if Z.of_nat (List.length data) <? MAX_FALLBACK_SIZE
    then mkConsumption user (mkParser (snd (getHeaders data)) 0) tr
    else mkConsumption (errorHandler handlers tr user) idle (tr ++ [Failure]).
Proof.
  intros Hdata Hnone.
  change (consumePostPadded handlers user idle tr data)
    with (consume_heads handlers user [] data 0 tr).
  unfold consume_heads, fenceAndConsumePostPadded. cbn [fence_loop].
  destruct (getHeaders data) as [[ret slots] buf] eqn:Htok. cbn [fst snd] in *. subst ret.
  pose proof (getHeaders_extent _ _ _ _ Htok) as [Hlen _].
  replace (List.length data =? 0)%nat with false
    by (symmetry; apply Nat.eqb_neq; destruct data; [contradiction | discriminate]).
  cbn [Nat.eqb consumed_second consumed_first buffer remaining calls].
  rewrite Z.eqb_refl. cbn [negb Z.to_nat skipn app]. rewrite Hlen.
  replace (List.length data =? 0)%nat with false
    by (symmetry; apply Nat.eqb_neq; destruct data; [contradiction | discriminate]).
  cbn [negb]. reflexivity.
Qed.

(** X17.  An idle parser given bytes in which [getHeaders] finds no head
    makes no request or data call.  Below [MAX_FALLBACK_SIZE] bytes it keeps
    them in the fallback buffer, as [getHeaders] left them (lower-cased where
    the key scan went), and returns [user]; from [MAX_FALLBACK_SIZE] bytes
    on it keeps nothing, calls the error handler and returns its answer. *)
Theorem read_without_head_is_kept_or_refused `{BF : BloomFilter} `{CE : ChunkedEncoding}
        (handlers : Handlers) (user : Z) (data : list Z) (tr : list event) :
  data <> [] ->
  fst (fst (getHeaders data)) = O ->
  consumePostPadded handlers user idle tr data
  = if Z.of_nat (List.length data) <? MAX_FALLBACK_SIZE
    then mkConsumption user (mkParser (snd (getHeaders data)) 0) tr
    else mkConsumption (errorHandler handlers tr user) idle (tr ++ [Failure]).
Proof. exact (idle_read_without_head handlers user data tr). Qed.

Lemma read_without_head_is_kept_or_refused_witness :
  let data := bytes_of "GET / HTTP/1.1" ++ CRLF ++ bytes_of "Host: h" in
  consumePostPadded willing a_user idle [] data
  = if Z.of_nat (List.length data) <? MAX_FALLBACK_SIZE
    then mkConsumption a_user (mkParser (snd (getHeaders data)) 0) []
    else mkConsumption (errorHandler willing [] a_user) idle ([] ++ [Failure]).
Proof.
  refine (@read_without_head_is_kept_or_refused exact_filter absent_chunked
            willing a_user (bytes_of "GET / HTTP/1.1" ++ CRLF ++ bytes_of "Host: h") [] _ _).
  - vm_compute. discriminate.
  - vm_compute. reflexivity.
Defined.

(** ** One head after the other *)

Lemma wrap32_rebase cf cf' A A' ct ct' d :
  wrap32 (cf - A) = wrap32 (cf' - A') ->
  A = wrap32 (ct + d) -> A' = wrap32 (ct' + d) ->
  wrap32 (cf - ct) = wrap32 (cf' - ct').
Proof.
  unfold wrap32. intros H -> ->.
  assert (Hgen : forall x y, (x - y) mod 2 ^ 32
                             = ((x - (y + d) mod 2 ^ 32) mod 2 ^ 32 + d) mod 2 ^ 32).
  { intros x y. rewrite Zplus_mod_idemp_l.
    replace (x - (y + d) mod 2 ^ 32 + d) with ((x + d) - (y + d) mod 2 ^ 32) by lia.
    rewrite Zminus_mod_idemp_r. f_equal. lia. }
  rewrite (Hgen cf ct), (Hgen cf' ct'), H. reflexivity.
Qed.

Lemma wrap32_add_l a b : wrap32 (wrap32 a + b) = wrap32 (a + b).
Proof. unfold wrap32. apply Zplus_mod_idemp_l. Qed.

Section Shift.

Context `{BF : BloomFilter} `{CE : ChunkedEncoding}.
Variable handlers : Handlers.
Variable user : Z.
Hypothesis Huser : user <> FULLPTR.

(** The count of consumed bytes the loop starts from is carried along and
    has no part in what the loop does. *)
Lemma fence_loop_shift fuel :
  forall data ct ct' rem tr,
    let r := fence_loop handlers user fuel false data ct rem tr in
    let r' := fence_loop handlers user fuel false data ct' rem tr in
    consumed_second r = consumed_second r'
    /\ buffer r = buffer r'
    /\ remaining r = remaining r'
    /\ calls r = calls r'
    /\ (consumed_second r = user ->
        wrap32 (consumed_first r - ct) = wrap32 (consumed_first r' - ct')).
Proof.
  assert (Hstop : forall ct ct' buf rem tr,
             let r := mkFenced ct user buf rem tr in
             let r' := mkFenced ct' user buf rem tr in
             consumed_second r = consumed_second r'
             /\ buffer r = buffer r' /\ remaining r = remaining r'
             /\ calls r = calls r'
             /\ (consumed_second r = user ->
                 wrap32 (consumed_first r - ct) = wrap32 (consumed_first r' - ct'))).
  { intros. cbn. rewrite !Z.sub_diag. auto 6. }
  assert (Hfail : forall a ct ct' buf rem tr,
             a <> user ->
             forall x x',
             let r := mkFenced x a buf rem tr in
             let r' := mkFenced x' a buf rem tr in
             consumed_second r = consumed_second r'
             /\ buffer r = buffer r' /\ remaining r = remaining r'
             /\ calls r = calls r'
             /\ (consumed_second r = user ->
                 wrap32 (consumed_first r - ct) = wrap32 (consumed_first r' - ct'))).
  { intros. cbn. repeat split; try reflexivity. intros. contradiction. }
  assert (Hpre : forall pre (r r' : fenced) ct ct' A A' d,
             (consumed_second r = consumed_second r'
              /\ buffer r = buffer r' /\ remaining r = remaining r'
              /\ calls r = calls r'
              /\ (consumed_second r = user ->
                  wrap32 (consumed_first r - A) = wrap32 (consumed_first r' - A'))) ->
             A = wrap32 (ct + d) -> A' = wrap32 (ct' + d) ->
             consumed_second (prepend pre r) = consumed_second (prepend pre r')
             /\ buffer (prepend pre r) = buffer (prepend pre r')
             /\ remaining (prepend pre r) = remaining (prepend pre r')
             /\ calls (prepend pre r) = calls (prepend pre r')
             /\ (consumed_second (prepend pre r) = user ->
                 wrap32 (consumed_first (prepend pre r) - ct)
                 = wrap32 (consumed_first (prepend pre r') - ct'))).
  { intros pre r r' ct ct' A A' d (H1 & H2 & H3 & H4 & H5) HA HA'.
    cbn [prepend consumed_first consumed_second buffer remaining calls].
    repeat split; try congruence.
    intros Hs. eapply wrap32_rebase; [apply H5; exact Hs | exact HA | exact HA']. }
  assert (Hfull : FULLPTR <> user) by congruence.
  induction fuel as [|fuel IH]; intros data ct ct' rem tr; cbn [fence_loop].
  { apply Hstop. }
  destruct (List.length data =? 0)%nat; [apply Hstop|].
  destruct (getHeaders data) as [[consumed slots] buf].
  destruct (consumed =? 0)%nat; [apply Hstop|].
  destruct (sv_is_null _); [apply Hfail; exact Hfull|].
  destruct (negb (sv_length (getHeader (request_of slots) transfer_encoding_name) =? 0)%nat
            && negb (sv_length (getHeader (request_of slots) content_length_name) =? 0)%nat);
    [apply Hfail; exact Hfull|].
  destruct (negb (requestHandler handlers tr user slots _ =? user)) eqn:Hanswer.
  { apply Hfail. apply negb_true_iff, Z.eqb_neq in Hanswer. exact Hanswer. }
  destruct (negb (sv_length (getHeader (request_of slots) transfer_encoding_name) =? 0)%nat).
  { destruct (ChunkIterator (skipn consumed buf) STATE_IS_CHUNKED) as [[chunks taken] state].
    destruct (isParsingInvalidChunkedEncoding state); [apply Hfail; exact Hfull|].
    eapply Hpre; [apply IH | |];
      rewrite wrap32_add_l, <- Z.add_assoc; reflexivity. }
  destruct (negb (sv_length (getHeader (request_of slots) content_length_name) =? 0)%nat).
  { destruct (toUnsignedInteger _ =? UINT_MAX); [apply Hfail; exact Hfull|].
    eapply Hpre; [apply IH | |];
      rewrite wrap32_add_l, <- Z.add_assoc; reflexivity. }
  eapply Hpre; [apply IH | |]; reflexivity.
Qed.

End Shift.

Section Pipelining.

Context `{BF : BloomFilter} `{CE : ChunkedEncoding}.
Variable handlers : Handlers.
Variable user : Z.
Hypothesis Huser : user <> FULLPTR.
Hypothesis Hdrains : decoder_drains.

(** The loop going on after [pre], the bytes it has consumed, does with
    the bytes that follow what a call of their own does with them. *)
Lemma rest_as_a_call (pre rest : list Z) (fuel : nat) (tr : list event) :
  (List.length rest < fuel)%nat ->
  Z.of_nat (List.length pre) + Z.of_nat (List.length rest) < 2 ^ 32 ->
  let r := prepend pre (fence_loop handlers user fuel false rest
                                   (Z.of_nat (List.length pre)) 0 tr) in
  (if negb (consumed_second r =? user)
   then mkConsumption (consumed_second r) (mkParser [] (remaining r)) (calls r)
   else
     let kept := skipn (Z.to_nat (consumed_first r)) (buffer r) in
     if negb (List.length kept =? 0)%nat then
       if Z.of_nat (List.length kept) <? MAX_FALLBACK_SIZE
       then mkConsumption user (mkParser ([] ++ kept) (remaining r)) (calls r)
       else mkConsumption (errorHandler handlers (calls r) user)
                          (mkParser [] (remaining r)) (calls r ++ [Failure])
     else mkConsumption user (mkParser [] (remaining r)) (calls r))
  = consumePostPadded handlers user idle tr rest.
Proof.
  intros Hfuel Hbound. cbv zeta.
  change (consumePostPadded handlers user idle tr rest)
    with (consume_heads handlers user [] rest 0 tr).
  unfold consume_heads, fenceAndConsumePostPadded.
  rewrite (fence_loop_fuel handlers user fuel (S (List.length rest))
             false rest _ 0 tr Hfuel (Nat.lt_succ_diag_r _)).
  pose proof (fence_loop_shift handlers user Huser (S (List.length rest)) rest
                (Z.of_nat (List.length pre)) 0 0 tr) as Hshift.
  pose proof (fence_false_shape handlers user Huser Hdrains (S (List.length rest)) rest
                (Z.of_nat (List.length pre)) 0 tr (Nat.lt_succ_diag_r _)
                (or_introl eq_refl) ltac:(lia) ltac:(lia)) as Hshape.
  pose proof (fence_false_shape handlers user Huser Hdrains (S (List.length rest)) rest
                0 0 tr (Nat.lt_succ_diag_r _) (or_introl eq_refl)
                ltac:(lia) ltac:(lia)) as Hshape0.
  cbv zeta in Hshift, Hshape, Hshape0.
  set (r := fence_loop handlers user (S (List.length rest)) false rest
              (Z.of_nat (List.length pre)) 0 tr) in *.
  set (r0 := fence_loop handlers user (S (List.length rest)) false rest 0 0 tr) in *.
  destruct Hshift as (Hsecond & Hbuffer & Hremaining & Hcalls & Hfirst).
  destruct Hshape as [Hblen Hk]. destruct Hshape0 as [_ Hk0].
  cbn [prepend consumed_first consumed_second buffer remaining calls].
  rewrite Hsecond, Hremaining, Hcalls.
  destruct (consumed_second r0 =? user) eqn:Hserved; cbn [negb]; [|reflexivity].
  apply Z.eqb_eq in Hserved.
  destruct (Hk (eq_trans Hsecond Hserved)) as (k & Hkle & Hkfirst & _).
  destruct (Hk0 Hserved) as (k0 & Hk0le & Hk0first & _).
  specialize (Hfirst (eq_trans Hsecond Hserved)).
  rewrite Hkfirst, Hk0first in Hfirst. unfold wrap32 in Hfirst.
  rewrite !Z.mod_small in Hfirst by lia.
  assert (k = k0) by lia. subst k0.
  rewrite Hkfirst, Hk0first, Hbuffer.
  replace (Z.to_nat (Z.of_nat (List.length pre) + Z.of_nat k))
    with (List.length pre + k)%nat by lia.
  replace (Z.to_nat (0 + Z.of_nat k)) with k by lia.
  rewrite skipn_app_plus. reflexivity.
Qed.

Lemma bodiless_head_step (data : list Z) (tr : list event) :
  bytes_ok data ->
  Z.of_nat (List.length data) < 2 ^ 32 ->
  fst (fst (getHeaders data)) <> O ->
  let slots := snd (fst (getHeaders data)) in
  let req := handed_request slots in
  getHeader req host_name <> None ->
  sv_length (getHeader req transfer_encoding_name) = O ->
  sv_length (getHeader req content_length_name) = O ->
  requestHandler handlers tr user slots (separator_of slots) = user ->
  consumePostPadded handlers user idle tr data
  = consumePostPadded handlers user idle
      (tr ++ [Request slots (separator_of slots); Data [] true])
      (skipn (fst (fst (getHeaders data))) data).
Proof.
  intros Hok Hbound Hhead. cbv zeta.
  change (getHeader (handed_request (snd (fst (getHeaders data)))))
    with (getHeader (request_of (snd (fst (getHeaders data))))).
  destruct (getHeaders data) as [[consumed slots] buf] eqn:Htok. cbn [fst snd] in *.
  rewrite (getHeader_field_value slots host_name host_name_nonzero).
  rewrite (getHeader_field_value slots _ transfer_encoding_name_nonzero).
  rewrite (getHeader_field_value slots _ content_length_name_nonzero).
  intros Hhost Hte Hcl Hanswer.
  set (tr2 := tr ++ [Request slots (separator_of slots); Data [] true]).
  change (consumePostPadded handlers user idle tr data)
    with (consume_heads handlers user [] data 0 tr).
  unfold consume_heads, fenceAndConsumePostPadded.
  rewrite (fence_loop_no_body handlers user data consumed slots buf Htok Hhead
             _ false 0 0 tr Hhost Hte Hcl Hanswer).
  cbv zeta. fold tr2.
  pose proof (getHeaders_extent _ _ _ _ Htok) as [Hlen Hle].
  pose proof (getHeaders_tail _ _ _ _ Hok Htok Hhead) as Htail.
  pose proof (getHeaders_rest_shorter _ _ _ _ Htok Hhead) as Hshorter.
  rewrite Htail in *.
  assert (Hhd : List.length (firstn consumed buf) = consumed)
    by (rewrite length_firstn; apply Nat.min_l; lia).
  assert (Hc : wrap32 (0 + Z.of_nat consumed) = Z.of_nat (List.length (firstn consumed buf))).
  { rewrite Hhd. unfold wrap32. rewrite Z.mod_small; lia. }
  rewrite Hc.
  apply (rest_as_a_call (firstn consumed buf) (skipn consumed data) _ tr2 Hshorter).
  rewrite Hhd, length_skipn. lia.
Qed.

(** X18.  Requests that arrive in one read are handled one after the other:
    when the read starts with the head of a request without a body and the
    request handler answers [user], the call makes the two calls of that
    request and then does what a call of its own on the bytes after the head
    would do: the same answer, the same parser state, and the same calls as
    far as the requests show their tables (the slot that ends the table of a
    later head keeps the value an earlier head of the same call left there,
    which no accessor reads). *)
Theorem bodiless_head_then_the_rest (data : list Z) (tr : list event) :
  bytes_ok data ->
  Z.of_nat (List.length data) < 2 ^ 32 ->
  fst (fst (getHeaders data)) <> O ->
  let slots := snd (fst (getHeaders data)) in
  let req := handed_request slots in
  getHeader req host_name <> None ->
  sv_length (getHeader req transfer_encoding_name) = O ->
  sv_length (getHeader req content_length_name) = O ->
  requestHandler handlers tr user slots (separator_of slots) = user ->
  alike (consumePostPadded handlers user idle tr data)
        (consumePostPadded handlers user idle
           (tr ++ [Request slots (separator_of slots); Data [] true])
           (skipn (fst (fst (getHeaders data))) data)).
Proof.
  intros Hok Hbound Hhead slots req Hhost Hte Hcl Hanswer.
  rewrite (bodiless_head_step data tr Hok Hbound Hhead Hhost Hte Hcl Hanswer).
  unfold alike. auto.
Qed.


End Pipelining.

Lemma bodiless_head_then_the_rest_witness :
  let data := simple_get ++ simple_get in
  let slots := snd (fst (getHeaders data)) in
  alike (consumePostPadded willing a_user idle [] data)
        (consumePostPadded willing a_user idle
           ([] ++ [Request slots (separator_of slots); Data [] true])
           (skipn (fst (fst (getHeaders data))) data)).
Proof.
  refine (@bodiless_head_then_the_rest exact_filter absent_chunked willing a_user
            _ absent_chunked_drains (simple_get ++ simple_get) [] _ _ _ _ _ _ _).
  - discriminate.
  - apply bytes_okb_ok. vm_compute. reflexivity.
  - vm_compute. reflexivity.
  - vm_compute. discriminate.
  - vm_compute. discriminate.
  - vm_compute. reflexivity.
  - vm_compute. reflexivity.
  - reflexivity.
Defined.

(** ** A head that declares a length *)

Section Inside.

Context `{BF : BloomFilter} `{CE : ChunkedEncoding}.
Variable handlers : Handlers.
Variable user : Z.

(** The read ends inside the body, or with it. *)
Lemma declared_body_inside (data : list Z) (tr : list event) :
  bytes_ok data ->
  Z.of_nat (List.length data) < 2 ^ 32 ->
  fst (fst (getHeaders data)) <> O ->
  let slots := snd (fst (getHeaders data)) in
  let req := handed_request slots in
  let declared := toUnsignedInteger (sv_bytes (getHeader req content_length_name)) in
  let rest := skipn (fst (fst (getHeaders data))) data in
  getHeader req host_name <> None ->
  sv_length (getHeader req transfer_encoding_name) = O ->
  sv_length (getHeader req content_length_name) <> O ->
  declared <> UINT_MAX ->
  requestHandler handlers tr user slots (separator_of slots) = user ->
  Z.of_nat (List.length rest) <= declared ->
  consumePostPadded handlers user idle tr data
  = mkConsumption user (mkParser [] (declared - Z.of_nat (List.length rest)))
      (tr ++ [Request slots (separator_of slots);
              Data rest (Z.of_nat (List.length rest) =? declared)]).
Proof.
  intros Hok Hbound Hhead. cbv zeta.
  change (getHeader (handed_request (snd (fst (getHeaders data)))))
    with (getHeader (request_of (snd (fst (getHeaders data))))).
  destruct (getHeaders data) as [[consumed slots] buf] eqn:Htok. cbn [fst snd] in *.
  intros Hhost Hte Hcl Hvalue Hanswer Hin.
  pose proof (toUnsignedInteger_bound _ Hvalue) as Hdeclared.
  set (declared := toUnsignedInteger
                     (sv_bytes (getHeader (request_of slots) content_length_name))) in *.
  pose proof (getHeaders_extent _ _ _ _ Htok) as [Hlen Hle].
  pose proof (getHeaders_tail _ _ _ _ Hok Htok Hhead) as Htail.
  assert (Hhd : List.length (firstn consumed buf) = consumed)
    by (rewrite length_firstn; apply Nat.min_l; lia).
  set (rest := skipn consumed data) in *.
  assert (Hrest : List.length rest = (List.length data - consumed)%nat)
    by (subst rest; apply length_skipn).
  change (consumePostPadded handlers user idle tr data)
    with (consume_heads handlers user [] data 0 tr).
  unfold consume_heads, fenceAndConsumePostPadded. cbn [fence_loop].
  rewrite (tokenized_nonempty data consumed slots buf Htok Hhead), Htok,
    (consumed_nonzero consumed Hhead).
  destruct (getHeader (request_of slots) host_name) as [hv|]; [|contradiction].
  cbn [sv_is_null]. rewrite Hte. cbn [Nat.eqb negb andb].
  fold (separator_of slots). rewrite Hanswer, Z.eqb_refl. cbn [negb].
  replace (sv_length (getHeader (request_of slots) content_length_name) =? 0)%nat
    with false by (symmetry; apply Nat.eqb_neq; assumption).
  cbn [negb]. fold declared.
  replace (declared =? UINT_MAX) with false by (symmetry; apply Z.eqb_neq; assumption).
  rewrite Htail.
  assert (Hc : wrap32 (0 + Z.of_nat consumed) = Z.of_nat consumed)
    by (unfold wrap32; rewrite Z.mod_small; lia).
  rewrite Hc. rewrite <- !app_assoc. cbn [app].
  rewrite Z.min_r by lia. rewrite Nat2Z.id.
  rewrite firstn_all, skipn_all, fence_loop_nil.
  cbn [prepend consumed_first consumed_second buffer remaining calls].
  rewrite Z.eqb_refl. cbn [negb].
  replace (wrap32 (Z.of_nat consumed + Z.of_nat (List.length rest)))
    with (Z.of_nat (List.length data)) by (unfold wrap32; rewrite Z.mod_small; lia).
  rewrite Nat2Z.id, skipn_all2
    by (rewrite !length_app, Hhd, Hrest; cbn [List.length]; lia).
  cbn [List.length Nat.eqb negb].
  unfold wrap32. rewrite Z.mod_small by lia. reflexivity.
Qed.

End Inside.

Section Declared.

Context `{BF : BloomFilter} `{CE : ChunkedEncoding}.
Variable handlers : Handlers.
Variable user : Z.
Hypothesis Huser : user <> FULLPTR.
Hypothesis Hdrains : decoder_drains.

Lemma declared_body_step (data : list Z) (tr : list event) :
  bytes_ok data ->
  Z.of_nat (List.length data) < 2 ^ 32 ->
  fst (fst (getHeaders data)) <> O ->
  let slots := snd (fst (getHeaders data)) in
  let req := handed_request slots in
  let declared := toUnsignedInteger (sv_bytes (getHeader req content_length_name)) in
  let rest := skipn (fst (fst (getHeaders data))) data in
  getHeader req host_name <> None ->
  sv_length (getHeader req transfer_encoding_name) = O ->
  sv_length (getHeader req content_length_name) <> O ->
  declared <> UINT_MAX ->
  requestHandler handlers tr user slots (separator_of slots) = user ->
  consumePostPadded handlers user idle tr data
  = if Z.of_nat (List.length rest) <=? declared
    then mkConsumption user (mkParser [] (declared - Z.of_nat (List.length rest)))
           (tr ++ [Request slots (separator_of slots);
                   Data rest (Z.of_nat (List.length rest) =? declared)])
    else consumePostPadded handlers user idle
           (tr ++ [Request slots (separator_of slots);
                   Data (firstn (Z.to_nat declared) rest) true])
           (skipn (Z.to_nat declared) rest).
Proof.
  intros Hok Hbound Hhead. cbv zeta.
  change (getHeader (handed_request (snd (fst (getHeaders data)))))
    with (getHeader (request_of (snd (fst (getHeaders data))))).
  destruct (getHeaders data) as [[consumed slots] buf] eqn:Htok. cbn [fst snd] in *.
  intros Hhost Hte Hcl Hvalue Hanswer.
  pose proof (toUnsignedInteger_bound _ Hvalue) as Hdeclared.
  set (declared := toUnsignedInteger
                     (sv_bytes (getHeader (request_of slots) content_length_name))) in *.
  pose proof (getHeaders_extent _ _ _ _ Htok) as [Hlen Hle].
  pose proof (getHeaders_tail _ _ _ _ Hok Htok Hhead) as Htail.
  assert (Hhd : List.length (firstn consumed buf) = consumed)
    by (rewrite length_firstn; apply Nat.min_l; lia).
  set (rest := skipn consumed data) in *.
  assert (Hrest : List.length rest = (List.length data - consumed)%nat)
    by (subst rest; apply length_skipn).
  change (consumePostPadded handlers user idle tr data)
    with (consume_heads handlers user [] data 0 tr).
  unfold consume_heads, fenceAndConsumePostPadded. cbn [fence_loop].
  rewrite (tokenized_nonempty data consumed slots buf Htok Hhead), Htok,
    (consumed_nonzero consumed Hhead).
  destruct (getHeader (request_of slots) host_name) as [hv|]; [|contradiction].
  cbn [sv_is_null]. rewrite Hte. cbn [Nat.eqb negb andb].
  fold (separator_of slots). rewrite Hanswer, Z.eqb_refl. cbn [negb].
  replace (sv_length (getHeader (request_of slots) content_length_name) =? 0)%nat
    with false by (symmetry; apply Nat.eqb_neq; assumption).
  cbn [negb]. fold declared.
  replace (declared =? UINT_MAX) with false by (symmetry; apply Z.eqb_neq; assumption).
  rewrite Htail.
  assert (Hc : wrap32 (0 + Z.of_nat consumed) = Z.of_nat consumed)
    by (unfold wrap32; rewrite Z.mod_small; lia).
  rewrite Hc. rewrite <- !app_assoc. cbn [app].
  destruct (Z.leb_spec (Z.of_nat (List.length rest)) declared) as [Hin|Hout].
  - (* the read ends inside the body, or with it *)
    rewrite Z.min_r by lia. rewrite Nat2Z.id.
    rewrite firstn_all, skipn_all, fence_loop_nil.
    cbn [prepend consumed_first consumed_second buffer remaining calls].
    rewrite Z.eqb_refl. cbn [negb].
    replace (wrap32 (Z.of_nat consumed + Z.of_nat (List.length rest)))
      with (Z.of_nat (List.length data)) by (unfold wrap32; rewrite Z.mod_small; lia).
    rewrite Nat2Z.id, skipn_all2
      by (rewrite !length_app, Hhd, Hrest; cbn [List.length]; lia).
    cbn [List.length Nat.eqb negb].
    unfold wrap32. rewrite Z.mod_small by lia. reflexivity.
  - (* the read goes beyond the body *)
    rewrite Z.min_l by lia. rewrite Z.eqb_refl, Z.sub_diag.
    change (wrap32 0) with 0.
    assert (Hpre : Z.of_nat (List.length (firstn consumed buf
                                          ++ firstn (Z.to_nat declared) rest))
                   = wrap32 (Z.of_nat consumed + declared)).
    { rewrite length_app, Hhd, length_firstn, Nat.min_l by lia.
      unfold wrap32. rewrite Z.mod_small; lia. }
    rewrite <- Hpre.
    apply rest_as_a_call; try assumption.
    + rewrite length_skipn. lia.
    + rewrite Hpre, length_skipn. unfold wrap32. rewrite Z.mod_small; lia.
Qed.

(** X19.  A read that starts with a head declaring [content-length: n]: once
    the request handler has answered [user], the data handler is given what
    the read holds of the body in one call, with [is_end] set when that is
    all of it, and its answer is not looked at (line 383).  When the read
    ends inside the body, the rest of [n] is left in
    [remainingStreamingBytes]; when it goes beyond the body, the bytes after
    the body are handled as a call of their own would handle them: the same
    answer, the same parser state, and the same calls as far as the requests
    show their tables. *)
Theorem declared_body_begins_in_the_read (data : list Z) (tr : list event) :
  bytes_ok data ->
  Z.of_nat (List.length data) < 2 ^ 32 ->
  fst (fst (getHeaders data)) <> O ->
  let slots := snd (fst (getHeaders data)) in
  let req := handed_request slots in
  let declared := toUnsignedInteger (sv_bytes (getHeader req content_length_name)) in
  let rest := skipn (fst (fst (getHeaders data))) data in
  getHeader req host_name <> None ->
  sv_length (getHeader req transfer_encoding_name) = O ->
  sv_length (getHeader req content_length_name) <> O ->
  declared <> UINT_MAX ->
  requestHandler handlers tr user slots (separator_of slots) = user ->
  if Z.of_nat (List.length rest) <=? declared
  then consumePostPadded handlers user idle tr data
       = mkConsumption user (mkParser [] (declared - Z.of_nat (List.length rest)))
           (tr ++ [Request slots (separator_of slots);
                   Data rest (Z.of_nat (List.length rest) =? declared)])
  else alike (consumePostPadded handlers user idle tr data)
             (consumePostPadded handlers user idle
                (tr ++ [Request slots (separator_of slots);
                        Data (firstn (Z.to_nat declared) rest) true])
                (skipn (Z.to_nat declared) rest)).
Proof.
  intros Hok Hbound Hhead slots req declared rest Hhost Hte Hcl Hvalue Hanswer.
  rewrite (declared_body_step data tr Hok Hbound Hhead Hhost Hte Hcl Hvalue Hanswer).
  fold slots req declared rest.
  destruct (Z.of_nat (List.length rest) <=? declared); [reflexivity|].
  unfold alike. auto.
Qed.

End Declared.

Lemma declared_body_begins_in_the_read_witness :
  let data := upload_request ++ simple_get in
  let slots := snd (fst (getHeaders data)) in
  let req := @handed_request exact_filter slots in
  let declared := toUnsignedInteger (sv_bytes (getHeader req content_length_name)) in
  let rest := skipn (fst (fst (getHeaders data))) data in
  if Z.of_nat (List.length rest) <=? declared
  then consumePostPadded willing a_user idle [] data
       = mkConsumption a_user (mkParser [] (declared - Z.of_nat (List.length rest)))
           ([] ++ [Request slots (separator_of slots);
                   Data rest (Z.of_nat (List.length rest) =? declared)])
  else alike (consumePostPadded willing a_user idle [] data)
             (consumePostPadded willing a_user idle
                ([] ++ [Request slots (separator_of slots);
                        Data (firstn (Z.to_nat declared) rest) true])
                (skipn (Z.to_nat declared) rest)).
Proof.
  refine (@declared_body_begins_in_the_read exact_filter absent_chunked willing a_user
            _ absent_chunked_drains (upload_request ++ simple_get) [] _ _ _ _ _ _ _ _).
  - discriminate.
  - apply bytes_okb_ok. vm_compute. reflexivity.
  - vm_compute. reflexivity.
  - vm_compute. discriminate.
  - vm_compute. discriminate.
  - vm_compute. reflexivity.
  - vm_compute. discriminate.
  - vm_compute. discriminate.
  - reflexivity.
Defined.

(** ** The length read off a head *)

(** X21.  A [content-length] that [toUnsignedInteger] reads is below
    [2 ^ 30]: stored in [remainingStreamingBytes] it leaves the two highest
    bits clear, which line 167 keeps for the state of the chunked decoder. *)
Theorem declared_length_spares_the_state_bits (s : list Z) :
  toUnsignedInteger s <> UINT_MAX ->
  0 <= toUnsignedInteger s < 2 ^ 30
  /\ Z.land (toUnsignedInteger s) (Z.lor (2 ^ 31) (2 ^ 30)) = 0.
Proof.
  intros H. pose proof (toUnsignedInteger_bound s H) as Hb.
  split; [lia|].
  apply Z.bits_inj'. intros n Hn. rewrite Z.land_spec, Z.bits_0.
  destruct (Z.ltb_spec n 30) as [Hlow|Hhigh].
  - change (Z.lor (2 ^ 31) (2 ^ 30)) with (Z.shiftl 3 30).
    rewrite (Z.shiftl_spec_low 3 30 n Hlow). apply andb_false_r.
  - destruct (Z.eq_dec (toUnsignedInteger s) 0) as [->|Hnz];
      [rewrite Z.bits_0; reflexivity|].
    rewrite Z.bits_above_log2; [reflexivity | lia|].
    assert (Z.log2 (toUnsignedInteger s) < 30); [|lia].
    apply Z.log2_lt_pow2; lia.
Qed.

Lemma declared_length_spares_the_state_bits_witness :
  0 <= toUnsignedInteger (bytes_of "999999999") < 2 ^ 30
  /\ Z.land (toUnsignedInteger (bytes_of "999999999")) (Z.lor (2 ^ 31) (2 ^ 30)) = 0.
Proof.
  refine (declared_length_spares_the_state_bits (bytes_of "999999999") _).
  vm_compute. discriminate.
Defined.

Section Delivered.

Context `{BF : BloomFilter} `{CE : ChunkedEncoding}.
Variable handlers : Handlers.
Variable user : Z.
Hypothesis Hanswers : answers_user handlers.
Hypothesis Hlengths : lengths_not_chunked.

(** X20.  A request whose head arrives in one read and declares
    [content-length: n], its body arriving in that read and any number of
    later ones, to handlers that answer [user]: the request handler is
    called once, then the data handler once for each read, with the bytes
    of the body that the read holds; the chunks add up to the [n] bytes of
    the body, [is_end] is set on the last call and on no other, and the
    parser is idle again. *)
Theorem declared_body_is_delivered_whole
        (data : list Z) (chunks : list (list Z)) (last : list Z) (tr : list event) :
  bytes_ok data ->
  Z.of_nat (List.length data) < 2 ^ 32 ->
  fst (fst (getHeaders data)) <> O ->
  let slots := snd (fst (getHeaders data)) in
  let req := handed_request slots in
  let declared := toUnsignedInteger (sv_bytes (getHeader req content_length_name)) in
  let rest := skipn (fst (fst (getHeaders data))) data in
  getHeader req host_name <> None ->
  sv_length (getHeader req transfer_encoding_name) = O ->
  sv_length (getHeader req content_length_name) <> O ->
  declared <> UINT_MAX ->
  Z.of_nat (List.length rest + List.length (concat chunks)) < declared ->
  Z.of_nat (List.length rest + List.length (concat chunks) + List.length last) = declared ->
  consume_all handlers user idle tr (data :: chunks ++ [last])
  = mkConsumption user idle
      (tr ++ [Request slots (separator_of slots); Data rest false]
          ++ map (fun chunk => Data chunk false) chunks ++ [Data last true])
  /\ List.length (rest ++ concat chunks ++ last) = Z.to_nat declared.
Proof.
  intros Hok Hbound Hhead. cbv zeta.
  intros Hhost Hte Hcl Hvalue Hshort Htotal.
  split; [|rewrite !length_app; lia].
  pose proof (toUnsignedInteger_bound _ Hvalue) as Hrange.
  cbn [consume_all].
  pose proof (declared_body_inside handlers user data tr Hok Hbound Hhead
                Hhost Hte Hcl Hvalue (proj1 Hanswers _ _ _ _) ltac:(lia)) as Hstep.
  cbv zeta in Hstep. rewrite Hstep. clear Hstep.
  set (declared := toUnsignedInteger _) in *.
  set (rest := skipn _ data) in *.
  cbn [returned parser made]. rewrite Z.eqb_refl.
  replace (Z.of_nat (List.length rest) =? declared) with false
    by (symmetry; apply Z.eqb_neq; lia).
  rewrite (body_pieces handlers user Hanswers Hlengths chunks last) by lia.
  rewrite <- !app_assoc. reflexivity.
Qed.

End Delivered.

Lemma declared_body_is_delivered_whole_witness :
  let data := firstn 50 upload_request in
  let chunks := [bytes_of "l"; []; bytes_of "l"] in
  let last := bytes_of "o" in
  let slots := snd (fst (getHeaders data)) in
  let rest := skipn (fst (fst (getHeaders data))) data in
  let declared :=
    toUnsignedInteger
      (sv_bytes (getHeader (@handed_request exact_filter slots) content_length_name)) in
  consume_all willing a_user idle [] (data :: chunks ++ [last])
  = mkConsumption a_user idle
      ([] ++ [Request slots (separator_of slots); Data rest false]
          ++ map (fun chunk => Data chunk false) chunks ++ [Data last true])
  /\ List.length (rest ++ concat chunks ++ last) = Z.to_nat declared.
Proof.
  refine (@declared_body_is_delivered_whole exact_filter absent_chunked willing a_user
            willing_answers_user absent_chunked_lengths
            (firstn 50 upload_request) [bytes_of "l"; []; bytes_of "l"] (bytes_of "o") []
            _ _ _ _ _ _ _ _ _).
  - apply bytes_okb_ok. vm_compute. reflexivity.
  - vm_compute. reflexivity.
  - vm_compute. discriminate.
  - vm_compute. discriminate.
  - vm_compute. reflexivity.
  - vm_compute. discriminate.
  - vm_compute. discriminate.
  - vm_compute. reflexivity.
  - vm_compute. reflexivity.
Defined.

(** ** A head kept in the fallback buffer *)

Section Kept.

Context `{BF : BloomFilter} `{CE : ChunkedEncoding}.
Variable handlers : Handlers.
Variable user : Z.

Lemma maxCopyDistance_extent F A :
  Z.of_nat (List.length F) < MAX_FALLBACK_SIZE ->
  (maxCopyDistance F A <= List.length A)%nat /\ (List.length F + maxCopyDistance F A <= 4096)%nat
  /\ ((List.length F + maxCopyDistance F A < 4096)%nat -> maxCopyDistance F A = List.length A).
Proof.
  unfold maxCopyDistance, wrap64, MAX_FALLBACK_SIZE. intros Hcap.
  rewrite Z.mod_small by lia. lia.
Qed.

Lemma fallback_call F A tr :
  F <> [] ->
  Z.of_nat (List.length F) < MAX_FALLBACK_SIZE ->
  consumePostPadded handlers user (mkParser F 0) tr A
  = let consumed :=
      fenceAndConsumePostPadded handlers user true (F ++ firstn (maxCopyDistance F A) A) 0 tr in
    if negb (consumed_second consumed =? user)
    then mkConsumption (consumed_second consumed)
                       (mkParser (buffer consumed) (remaining consumed)) (calls consumed)
    else if negb (consumed_first consumed =? 0) then
      let data1 := skipn (Z.to_nat (wrap32 (consumed_first consumed
                                            - Z.of_nat (List.length F)))) A in
      if negb (remaining consumed =? 0)
      then consume_body handlers user [] data1 (remaining consumed) (calls consumed)
      else consume_heads handlers user [] data1 (remaining consumed) (calls consumed)
    else
      if Z.of_nat (List.length (buffer consumed)) =? MAX_FALLBACK_SIZE
      then mkConsumption (errorHandler handlers (calls consumed) user)
                         (mkParser (buffer consumed) (remaining consumed))
                         (calls consumed ++ [Failure])
      else mkConsumption user (mkParser (buffer consumed) (remaining consumed))
                         (calls consumed).
Proof.
  intros HF _.
  unfold consumePostPadded. cbn [remainingStreamingBytes fallback Z.eqb negb].
  replace (List.length F =? 0)%nat with false
    by (symmetry; apply Nat.eqb_neq; destruct F; [contradiction | discriminate]).
  cbn [negb]. reflexivity.
Qed.

Lemma fallback_read_without_head (F A : list Z) (tr : list event) :
  F <> [] ->
  Z.of_nat (List.length F) < MAX_FALLBACK_SIZE ->
  fst (fst (getHeaders (F ++ firstn (maxCopyDistance F A) A))) = O ->
  consumePostPadded handlers user (mkParser F 0) tr A
  = if Z.of_nat (List.length F + List.length A) <? MAX_FALLBACK_SIZE
    then mkConsumption user (mkParser (snd (getHeaders (F ++ A))) 0) tr
    else mkConsumption (errorHandler handlers tr user)
                       (mkParser (snd (getHeaders (F ++ firstn (maxCopyDistance F A) A))) 0)
                       (tr ++ [Failure]).
Proof.
  intros HF Hcap Hnone. rewrite fallback_call by assumption. cbv zeta.
  destruct (maxCopyDistance_extent F A Hcap) as (Hc1 & Hc2 & Hc3).
  set (copied := maxCopyDistance F A) in *.
  unfold fenceAndConsumePostPadded. cbn [fence_loop].
  replace (List.length (F ++ firstn copied A) =? 0)%nat with false
    by (symmetry; apply Nat.eqb_neq; rewrite length_app;
        destruct F; [contradiction | cbn [List.length]; lia]).
  destruct (getHeaders (F ++ firstn copied A)) as [[c slots] buf] eqn:Htok.
  cbn [fst snd] in *. subst c.
  pose proof (getHeaders_extent _ _ _ _ Htok) as [Hlen _].
  rewrite length_app, length_firstn, Nat.min_l in Hlen by lia.
  cbn [Nat.eqb consumed_second consumed_first buffer remaining calls].
  rewrite Z.eqb_refl. cbn [negb Z.eqb]. rewrite Hlen.
  unfold MAX_FALLBACK_SIZE in Hcap |- *.
  destruct (Z.ltb_spec (Z.of_nat (List.length F + List.length A)) (1024 * 4)) as [Hfit|Hfull].
  - assert (Hall : copied = List.length A) by lia.
    replace (Z.of_nat (List.length F + copied) =? 1024 * 4) with false
      by (symmetry; apply Z.eqb_neq; lia).
    rewrite Hall, firstn_all in Htok. rewrite Htok. reflexivity.
  - replace (Z.of_nat (List.length F + copied) =? 1024 * 4) with true
      by (symmetry; apply Z.eqb_eq; lia).
    reflexivity.
Qed.

(** X23.  A parser that keeps the beginning of a head, given a read with
    which [getHeaders] still finds no head in the first [MAX_FALLBACK_SIZE]
    bytes kept and read: no request or data call is made.  When the bytes
    kept and the read together stay below [MAX_FALLBACK_SIZE], they are all
    kept and the call returns [user]; otherwise the buffer is filled up to
    [MAX_FALLBACK_SIZE] bytes and the error handler is called. *)
Theorem kept_head_grows_or_fails (F A : list Z) (tr : list event) :
  F <> [] ->
  Z.of_nat (List.length F) < MAX_FALLBACK_SIZE ->
  fst (fst (getHeaders (F ++ firstn (maxCopyDistance F A) A))) = O ->
  consumePostPadded handlers user (mkParser F 0) tr A
  = if Z.of_nat (List.length F + List.length A) <? MAX_FALLBACK_SIZE
    then mkConsumption user (mkParser (snd (getHeaders (F ++ A))) 0) tr
    else mkConsumption (errorHandler handlers tr user)
                       (mkParser (snd (getHeaders (F ++ firstn (maxCopyDistance F A) A))) 0)
                       (tr ++ [Failure]).
Proof. exact (fallback_read_without_head F A tr). Qed.

Lemma kept_head_step (F A : list Z) (tr : list event) :
  F <> [] ->
  bytes_ok (F ++ A) ->
  Z.of_nat (List.length F) < MAX_FALLBACK_SIZE ->
  fst (fst (getHeaders F)) = O ->
  let consumed := fst (fst (getHeaders (F ++ A))) in
  let slots := snd (fst (getHeaders (F ++ A))) in
  let req := handed_request slots in
  consumed <> O ->
  (consumed <= 4096)%nat ->
  getHeader req host_name <> None ->
  sv_length (getHeader req transfer_encoding_name) = O ->
  sv_length (getHeader req content_length_name) = O ->
  requestHandler handlers tr user slots (separator_of slots) = user ->
  consumePostPadded handlers user (mkParser F 0) tr A
  = consumePostPadded handlers user idle
      (tr ++ [Request slots (separator_of slots); Data [] true])
      (skipn (consumed - List.length F) A).
Proof.
  intros HF Hok Hcap Hpending. cbv zeta.
  change (getHeader (handed_request (snd (fst (getHeaders (F ++ A))))))
    with (getHeader (request_of (snd (fst (getHeaders (F ++ A)))))).
  destruct (getHeaders (F ++ A)) as [[c slots] buf] eqn:Hwhole. cbn [fst snd].
  rewrite (getHeader_field_value slots host_name host_name_nonzero).
  rewrite (getHeader_field_value slots _ transfer_encoding_name_nonzero).
  rewrite (getHeader_field_value slots _ content_length_name_nonzero).
  intros Hc Hfits Hhost Hte Hcl Hanswer.
  destruct (maxCopyDistance_extent F A Hcap) as (Hc1 & Hc2 & Hc3).
  set (copied := maxCopyDistance F A) in *.
  destruct (getHeaders F) as [[cF slotsF] F'] eqn:HtokF. cbn [fst] in Hpending. subst cF.
  pose proof (getHeaders_pending F A slotsF F' c slots buf Hok HtokF Hwhole Hc) as Hreach.
  pose proof (getHeaders_extent _ _ _ _ Hwhole) as [_ Hcle].
  rewrite length_app in Hcle.
  (* the head lies in what the buffer takes *)
  assert (Hsplit : F ++ A = (F ++ firstn copied A) ++ skipn copied A)
    by (rewrite <- app_assoc, firstn_skipn; reflexivity).
  assert (Hhead : firstn c (F ++ A) = firstn c (F ++ firstn copied A)).
  { rewrite Hsplit at 1. apply firstn_app_le. rewrite length_app, length_firstn. lia. }
  assert (Hok1 : bytes_ok (F ++ firstn copied A)).
  { rewrite Hsplit in Hok. apply Forall_app in Hok. tauto. }
  assert (Htok1 : getHeaders (F ++ firstn copied A)
                  = (c, slots, firstn c buf ++ skipn c (F ++ firstn copied A))).
  { pose proof (getHeaders_loop_restrict _ _ _ _ _ _ _ Hok Hwhole Hc) as Hr.
    rewrite Nat.sub_0_r, Hhead in Hr.
    rewrite <- (firstn_skipn c (F ++ firstn copied A)) at 1.
    apply getHeaders_loop_extend; [rewrite firstn_skipn; exact Hok1 | exact Hr | exact Hc]. }
  rewrite fallback_call by assumption. cbv zeta. fold copied.
  unfold fenceAndConsumePostPadded.
  rewrite (fence_loop_no_body handlers user _ c slots _ Htok1 Hc
             _ true 0 0 tr Hhost Hte Hcl Hanswer).
  cbv zeta. cbn [consumed_second consumed_first buffer remaining calls].
  rewrite Z.eqb_refl. cbn [negb Z.eqb].
  assert (Hw : wrap32 (0 + Z.of_nat c) = Z.of_nat c)
    by (unfold wrap32; rewrite Z.mod_small; lia).
  rewrite Hw.
  replace (Z.of_nat c =? 0) with false by (symmetry; apply Z.eqb_neq; lia).
  cbn [negb].
  replace (Z.to_nat (wrap32 (Z.of_nat c - Z.of_nat (List.length F))))
    with (c - List.length F)%nat
    by (unfold wrap32; rewrite Z.mod_small; lia).
  reflexivity.
Qed.

(** X22.  A parser that keeps the beginning of a head, given a read that
    completes it within the [MAX_FALLBACK_SIZE] bytes the buffer takes, for
    a request without a body that the handler answers with [user]: the call
    makes the two calls of the request and then does with the bytes of the
    read after the head what a call of their own on an idle parser does: the
    same answer, the same parser state, and the same calls as far as the
    requests show their tables (the table of line 408 serves the head from
    the buffer and the heads after it, and line 254 resets only the key of
    the slot that ends it). *)
Theorem kept_head_is_completed (F A : list Z) (tr : list event) :
  F <> [] ->
  bytes_ok (F ++ A) ->
  Z.of_nat (List.length F) < MAX_FALLBACK_SIZE ->
  fst (fst (getHeaders F)) = O ->
  let consumed := fst (fst (getHeaders (F ++ A))) in
  let slots := snd (fst (getHeaders (F ++ A))) in
  let req := handed_request slots in
  consumed <> O ->
  (consumed <= 4096)%nat ->
  getHeader req host_name <> None ->
  sv_length (getHeader req transfer_encoding_name) = O ->
  sv_length (getHeader req content_length_name) = O ->
  requestHandler handlers tr user slots (separator_of slots) = user ->
  alike (consumePostPadded handlers user (mkParser F 0) tr A)
        (consumePostPadded handlers user idle
           (tr ++ [Request slots (separator_of slots); Data [] true])
           (skipn (consumed - List.length F) A)).
Proof.
  intros HF Hok Hcap Hpending consumed slots req Hc Hfits Hhost Hte Hcl Hanswer.
  rewrite (kept_head_step F A tr HF Hok Hcap Hpending Hc Hfits Hhost Hte Hcl Hanswer).
  unfold alike. auto.
Qed.

End Kept.

Lemma kept_head_grows_or_fails_witness :
  let F := bytes_of "get / HT" in
  let A := bytes_of "TP/1.1" ++ CRLF ++ bytes_of "Host" in
  consumePostPadded willing a_user (mkParser F 0) [] A
  = if Z.of_nat (List.length F + List.length A) <? MAX_FALLBACK_SIZE
    then mkConsumption a_user (mkParser (snd (getHeaders (F ++ A))) 0) []
    else mkConsumption (errorHandler willing [] a_user)
                       (mkParser (snd (getHeaders (F ++ firstn (maxCopyDistance F A) A))) 0)
                       ([] ++ [Failure]).
Proof.
  refine (@kept_head_grows_or_fails exact_filter absent_chunked willing a_user
            (bytes_of "get / HT") (bytes_of "TP/1.1" ++ CRLF ++ bytes_of "Host")
            [] _ _ _).
  - discriminate.
  - reflexivity.
  - vm_compute. reflexivity.
Defined.

Lemma kept_head_is_completed_witness :
  let F := bytes_of "get / HTTP/1.1" ++ CRLF ++ bytes_of "host: h" in
  let A := CRLF ++ CRLF ++ simple_get in
  let consumed := fst (fst (getHeaders (F ++ A))) in
  let slots := snd (fst (getHeaders (F ++ A))) in
  alike (consumePostPadded willing a_user (mkParser F 0) [] A)
        (consumePostPadded willing a_user idle
           ([] ++ [Request slots (separator_of slots); Data [] true])
           (skipn (consumed - List.length F) A)).
Proof.
  refine (@kept_head_is_completed exact_filter absent_chunked willing a_user
            (bytes_of "get / HTTP/1.1" ++ CRLF ++ bytes_of "host: h")
            (CRLF ++ CRLF ++ simple_get) [] _ _ _ _ _ _ _ _ _ _).
  - discriminate.
  - apply bytes_okb_ok. vm_compute. reflexivity.
  - reflexivity.
  - vm_compute. reflexivity.
  - vm_compute. discriminate.
  - vm_compute. lia.
  - vm_compute. discriminate.
  - vm_compute. reflexivity.
  - vm_compute. reflexivity.
  - reflexivity.
Defined.

(** ** Bytes that hold no head *)

(** No head in the bytes, no head in their beginning. *)
Lemma headless_prefix X more :
  bytes_ok (X ++ more) ->
  fst (fst (getHeaders (X ++ more))) = O -> fst (fst (getHeaders X)) = O.
Proof.
  intros Hok Hnone.
  destruct (getHeaders X) as [[ret slots] buf] eqn:HX. cbn [fst].
  destruct (Nat.eq_dec ret O) as [Hz|Hnz]; [exact Hz|].
  unfold getHeaders in *.
  rewrite (getHeaders_loop_extend _ _ _ _ _ _ _ _ Hok HX Hnz) in Hnone.
  exact Hnone.
Qed.

(** What an attempt without success leaves is left as it is by the next. *)
Lemma kept_bytes_settled X :
  bytes_ok X ->
  fst (fst (getHeaders X)) = O ->
  getHeaders (snd (getHeaders X)) = (O, snd (fst (getHeaders X)), snd (getHeaders X))
  /\ bytes_ok (snd (getHeaders X))
  /\ List.length (snd (getHeaders X)) = List.length X.
Proof.
  intros Hok Hnone.
  destruct (getHeaders X) as [[ret slots] buf] eqn:HX. cbn [fst snd] in *. subst ret.
  split; [|split].
  - pose proof (getHeaders_loop_retry _ _ _ X [] slots buf
                  ltac:(rewrite app_nil_r; exact Hok) HX) as Hretry.
    rewrite !app_nil_r in Hretry. unfold getHeaders in *. rewrite Hretry. exact HX.
  - exact (getHeaders_loop_bytes_ok _ _ _ _ _ _ _ Hok HX).
  - apply getHeaders_extent in HX. tauto.
Qed.

Lemma kept_bytes_then X more :
  bytes_ok (X ++ more) ->
  fst (fst (getHeaders X)) = O ->
  getHeaders (snd (getHeaders X) ++ more) = getHeaders (X ++ more).
Proof.
  intros Hok Hnone.
  destruct (getHeaders X) as [[ret slots] buf] eqn:HX. cbn [fst snd] in *. subst ret.
  exact (getHeaders_loop_retry _ _ _ _ _ _ _ Hok HX).
Qed.

Section Headless.

Context `{BF : BloomFilter} `{CE : ChunkedEncoding}.
Variable handlers : Handlers.
Variable user : Z.

Lemma failure_stays_first c later :
  made c = [Failure] ->
  exists more,
    made (if returned c =? user
          then consume_all handlers user (parser c) (made c) later else c)
    = Failure :: more.
Proof.
  intros Hmade. destruct (returned c =? user).
  - destruct (consume_all_extend handlers user later (parser c) (made c)) as [more ->].
    rewrite Hmade. exists more. reflexivity.
  - exists []. exact Hmade.
Qed.

Lemma headless_run chunks :
  forall F,
    bytes_ok (F ++ concat chunks) ->
    Z.of_nat (List.length F) < MAX_FALLBACK_SIZE ->
    snd (getHeaders F) = F ->
    fst (fst (getHeaders (F ++ concat chunks))) = O ->
    let c := consume_all handlers user (mkParser F 0) [] chunks in
    (Z.of_nat (List.length F + List.length (concat chunks)) < MAX_FALLBACK_SIZE ->
     c = mkConsumption user (mkParser (snd (getHeaders (F ++ concat chunks))) 0) [])
    /\ (made c = [] \/ exists more, made c = Failure :: more).
Proof.
  induction chunks as [|data later IH]; intros F Hok Hcap Hfix Hnone; cbv zeta.
  { cbn [concat consume_all made]. rewrite app_nil_r, Hfix. auto. }
  cbn [concat] in *. cbn [consume_all].
  assert (Hok1 : bytes_ok (F ++ data))
    by (rewrite app_assoc in Hok; apply Forall_app in Hok; tauto).
  assert (Hnone1 : fst (fst (getHeaders (F ++ data))) = O)
    by (apply (headless_prefix _ (concat later)); rewrite <- app_assoc; assumption).
  destruct (kept_bytes_settled _ Hok1 Hnone1) as (Hsettled & Hokkept & Hlenkept).
  pose proof (kept_bytes_then (F ++ data) (concat later)
                ltac:(rewrite <- app_assoc; exact Hok) Hnone1) as Hthen.
  rewrite <- app_assoc in Hthen.
  assert (Hstep :
            (Z.of_nat (List.length F + List.length data) < MAX_FALLBACK_SIZE ->
             consumePostPadded handlers user (mkParser F 0) [] data
             = mkConsumption user (mkParser (snd (getHeaders (F ++ data))) 0) [])
            /\ (MAX_FALLBACK_SIZE <= Z.of_nat (List.length F + List.length data) ->
                made (consumePostPadded handlers user (mkParser F 0) [] data) = [Failure])).
  { destruct F as [|b F].
    - destruct data as [|d data].
      + split; [|unfold MAX_FALLBACK_SIZE; cbn; lia].
        intros _. unfold consumePostPadded, consume_heads, fenceAndConsumePostPadded.
        cbn. rewrite Z.eqb_refl. reflexivity.
      + cbn [app] in *. change (mkParser [] 0) with idle.
        rewrite idle_read_without_head by (try discriminate; assumption).
        cbn [List.length Nat.add].
        split; intros Hsize.
        * apply Z.ltb_lt in Hsize. rewrite Hsize. reflexivity.
        * apply Z.ltb_ge in Hsize. rewrite Hsize. reflexivity.
    - rewrite fallback_read_without_head; try discriminate; try assumption.
      + split; intros Hsize.
        * apply Z.ltb_lt in Hsize. rewrite Hsize. reflexivity.
        * apply Z.ltb_ge in Hsize. rewrite Hsize. reflexivity.
      + apply (headless_prefix _ (skipn (maxCopyDistance (b :: F) data) data
                                  ++ concat later)).
        * rewrite <- !app_assoc, (app_assoc (firstn _ data)), firstn_skipn. exact Hok.
        * rewrite <- !app_assoc, (app_assoc (firstn _ data)), firstn_skipn. exact Hnone. }
  destruct Hstep as [Hkept Hfailed].
  destruct (Z.lt_ge_cases (Z.of_nat (List.length F + List.length data)) MAX_FALLBACK_SIZE)
    as [Hfits|Hfull].
  - (* the read is kept *)
    rewrite (Hkept Hfits). cbn [returned parser made]. rewrite Z.eqb_refl.
    destruct (IH (snd (getHeaders (F ++ data)))) as [IH1 IH2].
    + apply Forall_app. split; [exact Hokkept|].
      apply Forall_app in Hok. destruct Hok as [_ Hok].
      apply Forall_app in Hok. tauto.
    + rewrite Hlenkept, length_app. lia.
    + rewrite Hsettled. reflexivity.
    + rewrite Hthen. exact Hnone.
    + cbv zeta in IH1, IH2. split; [|exact IH2].
      intros Hall. rewrite IH1, Hthen; [reflexivity|].
      rewrite Hlenkept, !length_app in *. lia.
  - (* the buffer is full *)
    split; [rewrite !length_app in *; lia|].
    right. apply failure_stays_first. exact (Hfailed Hfull).
Qed.

End Headless.

(** X24.  Bytes in which [getHeaders] finds no head, handed to an idle
    parser in any number of reads: while they stay below
    [MAX_FALLBACK_SIZE] no handler is called, every call returns [user],
    and the fallback buffer ends up holding all of them as one attempt of
    [getHeaders] on the whole would leave them, wherever the reads were cut;
    and whatever their number, the first call made, if one is made at all,
    is the error handler. *)
Theorem headless_bytes_are_only_kept `{BF : BloomFilter} `{CE : ChunkedEncoding}
        (handlers : Handlers) (user : Z) (chunks : list (list Z)) :
  bytes_ok (concat chunks) ->
  fst (fst (getHeaders (concat chunks))) = O ->
  let c := consume_all handlers user idle [] chunks in
  (Z.of_nat (List.length (concat chunks)) < MAX_FALLBACK_SIZE ->
   c = mkConsumption user (mkParser (snd (getHeaders (concat chunks))) 0) [])
  /\ (made c = [] \/ exists more, made c = Failure :: more).
Proof.
  intros Hok Hnone.
  exact (headless_run handlers user chunks [] Hok ltac:(reflexivity) eq_refl Hnone).
Qed.

Lemma headless_bytes_are_only_kept_witness :
  let chunks := map (fun b => [b]) (bytes_of "GET / HTTP/1.1" ++ CRLF ++ bytes_of "Host: h") in
  let c := consume_all willing a_user idle [] chunks in
  (Z.of_nat (List.length (concat chunks)) < MAX_FALLBACK_SIZE ->
   c = mkConsumption a_user (mkParser (snd (getHeaders (concat chunks))) 0) [])
  /\ (made c = [] \/ exists more, made c = Failure :: more).
Proof.
  refine (@headless_bytes_are_only_kept exact_filter absent_chunked willing a_user
            (map (fun b => [b]) (bytes_of "GET / HTTP/1.1" ++ CRLF ++ bytes_of "Host: h"))
            _ _).
  - apply bytes_okb_ok. vm_compute. reflexivity.
  - vm_compute. reflexivity.
Defined.

(** A ['\r'] where a head should start: line 253 wants a header field before
    the line that ends the head. *)
Lemma getHeaders_leading_cr rest :
  getHeaders (CR :: rest) = (O, [], CR :: rest).
Proof.
  unfold getHeaders, MAX_HEADERS.
  change 50%nat with (S 49). generalize 49%nat. intros n.
  cbn [getHeaders_loop key_scan]. change (CR =? COLON) with false.
  change (32 <? CR) with false. cbn [negb andb firstn skipn map app Nat.ltb Nat.leb].
  rewrite Z.eqb_refl, andb_false_r. reflexivity.
Qed.

(** X25.  Empty lines before the request line are not skipped: when the
    first byte an idle parser is given is ['\r'], [getHeaders] finds no head
    whatever follows.  In whatever reads the bytes arrive, they are kept
    unchanged and no handler is called while they stay below
    [MAX_FALLBACK_SIZE], and the first call made, if one is made at all, is
    the error handler: no request is shown before it. *)
Theorem leading_cr_is_never_a_request `{BF : BloomFilter} `{CE : ChunkedEncoding}
        (handlers : Handlers) (user : Z) (chunks : list (list Z)) (rest : list Z) :
  concat chunks = CR :: rest ->
  bytes_ok rest ->
  let c := consume_all handlers user idle [] chunks in
  (Z.of_nat (List.length (concat chunks)) < MAX_FALLBACK_SIZE ->
   c = mkConsumption user (mkParser (CR :: rest) 0) [])
  /\ (made c = [] \/ exists more, made c = Failure :: more).
Proof.
  intros Hstream Hok.
  assert (Hokall : bytes_ok (concat chunks)).
  { rewrite Hstream. constructor; [unfold byte_ok, CR; lia | exact Hok]. }
  assert (Hnone : fst (fst (getHeaders (concat chunks))) = O)
    by (rewrite Hstream, getHeaders_leading_cr; reflexivity).
  pose proof (headless_run handlers user chunks [] Hokall ltac:(reflexivity) eq_refl Hnone)
    as Hrun.
  cbv zeta in Hrun. cbn [app] in Hrun.
  rewrite Hstream, getHeaders_leading_cr in Hrun. cbn [snd] in Hrun.
  rewrite Hstream. exact Hrun.
Qed.

Lemma leading_cr_is_never_a_request_witness :
  let chunks := [CRLF; simple_get] in
  let c := consume_all willing a_user idle [] chunks in
  (Z.of_nat (List.length (concat chunks)) < MAX_FALLBACK_SIZE ->
   c = mkConsumption a_user (mkParser (CR :: LF :: simple_get ++ []) 0) [])
  /\ (made c = [] \/ exists more, made c = Failure :: more).
Proof.
  refine (@leading_cr_is_never_a_request exact_filter absent_chunked willing a_user
            [CRLF; simple_get] (LF :: simple_get ++ []) _ _).
  - reflexivity.
  - apply bytes_okb_ok. vm_compute. reflexivity.
Defined.

